(** * N-Queens solver (level3/n_queens.py): shallow embedding and verification

    The Python class [NQueensSolver] is embedded with explicit state passing:
    the mutable attributes of [self] form the record [Solver], the three
    conflict sets that [solve_all_backtrack] shares between its recursive
    calls are threaded through the recursion, and every operation that can
    raise in Python (list indexing, [set.remove]) lives in the [outcome]
    monad.  Recursion and [while] loops are driven by a fuel argument;
    running out of fuel is the separate result [OutOfFuel], proved
    unreachable for the fuel the theorems supply. *)

From Stdlib Require Import ZArith List Lia Bool.
From stdpp Require Import base option list sets gmap sorting.

Local Open Scope Z_scope.

(** ** Outcomes of Python code *)

Inductive exn : Type := IndexError | KeyError.

Inductive outcome (A : Type) : Type :=
  | Ok (a : A)
  | Raise (e : exn)
  | OutOfFuel.
Arguments Ok {A} a.
Arguments Raise {A} e.
Arguments OutOfFuel {A}.

#[global] Instance outcome_ret : MRet outcome := fun A a => Ok a.
#[global] Instance outcome_bind : MBind outcome := fun A B f m =>
  match m with
  | Ok a => f a
  | Raise e => Raise e
  | OutOfFuel => OutOfFuel
  end.

(** ** Python lists: indexing with negative wrap-around and [IndexError] *)

Definition py_index (len i : Z) : outcome nat :=
  if (0 <=? i) && (i <? len) then Ok (Z.to_nat i)
  else if (- len <=? i) && (i <? 0) then Ok (Z.to_nat (i + len))
  else Raise IndexError.

(** [l[i]] *)
Definition getitem {A} (l : list A) (i : Z) : outcome A :=
  k ← py_index (Z.of_nat (length l)) i;
  match l !! k with
  | Some x => Ok x
  | None => Raise IndexError
  end.

(** [l[i] = x] *)
Definition setitem {A} (l : list A) (i : Z) (x : A) : outcome (list A) :=
  k ← py_index (Z.of_nat (length l)) i;
  Ok (<[k := x]> l).

(** [range(n)] and [range(a, b)] *)
Definition range (n : Z) : list Z := seqZ 0 n.
Definition range2 (a b : Z) : list Z := seqZ a (b - a).

(** [cols.remove(x)]: raises [KeyError] when [x] is absent. *)
Definition set_remove (x : Z) (s : gset Z) : outcome (gset Z) :=
  if decide (x ∈ s) then Ok (s ∖ {[ x ]}) else Raise KeyError.

(** ** The solver object *)

Definition Board : Type := list (list Z).

(** The attributes of [NQueensSolver]; [start_time] (wall-clock time) is
    not modelled. *)
Record Solver : Type := mkSolver {
  n : Z;
  board : Board;
  solutions : list (list (Z * Z));
  solution_count : Z;
  backtrack_count : Z
}.

Definition set_board (self : Solver) (b : Board) : Solver :=
  mkSolver (n self) b (solutions self) (solution_count self) (backtrack_count self).

Definition incr_backtrack_count (self : Solver) : Solver :=
  mkSolver (n self) (board self) (solutions self) (solution_count self)
           (backtrack_count self + 1).

(** [self.solutions.append(sol); self.solution_count += 1] *)
Definition record_solution (self : Solver) (sol : list (Z * Z)) : Solver :=
  mkSolver (n self) (board self) (solutions self ++ [sol])
           (solution_count self + 1) (backtrack_count self).

(** [[[0 for _ in range(n)] for _ in range(n)]] *)
Definition empty_board (size : Z) : Board :=
  (fun _ => (fun _ => 0) <$> range size) <$> range size.

(** [NQueensSolver.__init__] *)
Definition init (size : Z) : outcome Solver :=
  Ok (mkSolver size (empty_board size) [] 0 0).

(** [NQueensSolver.reset] *)
Definition reset (self : Solver) : Solver :=
  mkSolver (n self) (empty_board (n self)) [] 0 0.

(** [board[i][j]] *)
Definition cell (b : Board) (i j : Z) : outcome Z :=
  r ← getitem b i; getitem r j.

(** [board[i][j] = v] *)
Definition board_set (b : Board) (i j v : Z) : outcome Board :=
  r ← getitem b i;
  r' ← setitem r j v;
  setitem b i r'.

(** ** [is_safe]: scanning the board *)

(** [for i in range(row): if board[i][col] == 1: return False];
    the result [false] stands for the early [return False]. *)
Fixpoint column_clear (b : Board) (col : Z) (rows : list Z) : outcome bool :=
  match rows with
  | [] => Ok true
  | i :: rows' =>
      v ← cell b i col;
      if v =? 1 then Ok false else column_clear b col rows'
  end.

(** [while i >= 0 and j >= 0: ...; i -= 1; j -= 1] *)
Fixpoint diag_left_clear (fuel : nat) (b : Board) (i j : Z) : outcome bool :=
  if (0 <=? i) && (0 <=? j) then
    match fuel with
    | O => OutOfFuel
    | S fuel' =>
        v ← cell b i j;
        if v =? 1 then Ok false else diag_left_clear fuel' b (i - 1) (j - 1)
    end
  else Ok true.

(** [while i >= 0 and j < self.n: ...; i -= 1; j += 1] *)
Fixpoint diag_right_clear (fuel : nat) (size : Z) (b : Board) (i j : Z) : outcome bool :=
  if (0 <=? i) && (j <? size) then
    match fuel with
    | O => OutOfFuel
    | S fuel' =>
        v ← cell b i j;
        if v =? 1 then Ok false else diag_right_clear fuel' size b (i - 1) (j + 1)
    end
  else Ok true.

(** [NQueensSolver.is_safe].  Both [while] loops start at [i = row - 1]
    and decrease [i], so [row] iterations of fuel are enough. *)
Definition is_safe (self : Solver) (row col : Z) : outcome bool :=
  c ← column_clear (board self) col (range row);
  if negb c then Ok false else
  l ← diag_left_clear (Z.to_nat row) (board self) (row - 1) (col - 1);
  if negb l then Ok false else
  r ← diag_right_clear (Z.to_nat row) (n self) (board self) (row - 1) (col + 1);
  if negb r then Ok false else
  Ok true.

(** [NQueensSolver.is_safe_optimized] *)
Definition is_safe_optimized (row col : Z) (cols diag1 diag2 : gset Z) : bool :=
  bool_decide (col ∉ cols) &&
  bool_decide (row - col ∉ diag1) &&
  bool_decide (row + col ∉ diag2).

(** ** [solve_backtrack]: first solution, recursively *)

(** The [for col in range(self.n)] loop of [solve_backtrack]; [rec] is the
    recursive call [self.solve_backtrack(row + 1)]. *)
Fixpoint solve_backtrack_loop (rec : Solver -> outcome (bool * Solver))
    (row : Z) (columns : list Z) (self : Solver) : outcome (bool * Solver) :=
  match columns with
  | [] => Ok (false, self)
  | col :: columns' =>
      safe ← is_safe self row col;
      if (safe : bool) then
        b1 ← board_set (board self) row col 1;
        '(found, self2) ← rec (set_board self b1);
        if (found : bool) then Ok (true, self2)
        else
          b3 ← board_set (board self2) row col 0;
          solve_backtrack_loop rec row columns'
            (incr_backtrack_count (set_board self2 b3))
      else solve_backtrack_loop rec row columns' self
  end.

(** [NQueensSolver.solve_backtrack]; one unit of fuel per recursive call. *)
Fixpoint solve_backtrack (fuel : nat) (self : Solver) (row : Z)
    : outcome (bool * Solver) :=
  match fuel with
  | O => OutOfFuel
  | S fuel' =>
      if n self <=? row then Ok (true, self)
      else
        solve_backtrack_loop (fun s => solve_backtrack fuel' s (row + 1))
          row (range (n self)) self
  end.

(** Reading the queens off the board in row-major order, as the base case
    of [solve_all_backtrack] (and [main]) does. *)
Fixpoint collect_row (b : Board) (r : Z) (columns : list Z)
    (solution : list (Z * Z)) : outcome (list (Z * Z)) :=
  match columns with
  | [] => Ok solution
  | c :: columns' =>
      v ← cell b r c;
      collect_row b r columns' (if v =? 1 then solution ++ [(r, c)] else solution)
  end.

Fixpoint collect_rows (b : Board) (size : Z) (rows : list Z)
    (solution : list (Z * Z)) : outcome (list (Z * Z)) :=
  match rows with
  | [] => Ok solution
  | r :: rows' =>
      solution' ← collect_row b r (range size) solution;
      collect_rows b size rows' solution'
  end.

Definition collect_board (self : Solver) : outcome (list (Z * Z)) :=
  collect_rows (board self) (n self) (range (n self)) [].

(** ** [solve_all_backtrack]: every solution *)

(** The solver together with the three shared sets [cols], [diag1], [diag2]. *)
Record AllState : Type := mkAll {
  solver : Solver;
  cols : gset Z;
  diag1 : gset Z;
  diag2 : gset Z
}.

Fixpoint solve_all_loop (rec : AllState -> outcome AllState)
    (row : Z) (columns : list Z) (st : AllState) : outcome AllState :=
  match columns with
  | [] => Ok st
  | col :: columns' =>
      if is_safe_optimized row col (cols st) (diag1 st) (diag2 st) then
        b1 ← board_set (board (solver st)) row col 1;
        st2 ← rec (mkAll (set_board (solver st) b1)
                         ({[ col ]} ∪ cols st)
                         ({[ row - col ]} ∪ diag1 st)
                         ({[ row + col ]} ∪ diag2 st));
        b3 ← board_set (board (solver st2)) row col 0;
        cols3 ← set_remove col (cols st2);
        diag13 ← set_remove (row - col) (diag1 st2);
        diag23 ← set_remove (row + col) (diag2 st2);
        solve_all_loop rec row columns'
          (mkAll (incr_backtrack_count (set_board (solver st2) b3))
                 cols3 diag13 diag23)
      else solve_all_loop rec row columns' st
  end.

(** [NQueensSolver.solve_all_backtrack].  An argument [None] is replaced by
    a fresh empty set; the sets are returned with the solver because the
    caller keeps using the very objects the callee mutated. *)
Fixpoint solve_all_backtrack (fuel : nat) (self : Solver) (row : Z)
    (cols0 diag10 diag20 : option (gset Z)) : outcome AllState :=
  match fuel with
  | O => OutOfFuel
  | S fuel' =>
      let st0 := mkAll self (default ∅ cols0) (default ∅ diag10) (default ∅ diag20) in
      if row =? n self then
        solution ← collect_board self;
        Ok (mkAll (record_solution self solution) (cols st0) (diag1 st0) (diag2 st0))
      else
        solve_all_loop
          (fun st => solve_all_backtrack fuel' (solver st) (row + 1)
                       (Some (cols st)) (Some (diag1 st)) (Some (diag2 st)))
          row (range (n self)) st0
  end.

(** ** [solve_iterative]: first solution with an explicit stack *)

(** [stack] and [positions] are Python lists used as stacks ([append] and
    [pop] at the end); the model keeps their last element first. *)

(** [while len(positions) > row: old_row, old_col = positions.pop();
    self.board[old_row][old_col] = 0] *)
Fixpoint unwind_positions (positions : list (Z * Z)) (row : Z) (b : Board)
    : outcome (list (Z * Z) * Board) :=
  match positions with
  | [] => if 0 >? row then Raise IndexError else Ok ([], b)
  | (old_row, old_col) :: positions' =>
      if Z.of_nat (length positions) >? row then
        b' ← board_set b old_row old_col 0;
        unwind_positions positions' row b'
      else Ok (positions, b)
  end.

(** How the [for c in range(col, self.n)] loop is left. *)
Inductive for_exit : Type :=
  | ReturnTrue (self : Solver)
  | Break (self : Solver) (stack positions : list (Z * Z))
  | Exhausted.

Fixpoint place_loop (self : Solver) (row : Z) (columns : list Z)
    (stack positions : list (Z * Z)) : outcome for_exit :=
  match columns with
  | [] => Ok Exhausted
  | c :: columns' =>
      safe ← is_safe self row c;
      if (safe : bool) then
        b ← board_set (board self) row c 1;
        let positions := (row, c) :: positions in
        if row =? n self - 1 then Ok (ReturnTrue (set_board self b))
        else Ok (Break (set_board self b)
                       ((row + 1, 0) :: (row, c + 1) :: stack) positions)
      else place_loop self row columns' stack positions
  end.

(** The [while stack] loop; one unit of fuel per iteration. *)
Fixpoint iterative_loop (fuel : nat) (self : Solver)
    (stack positions : list (Z * Z)) : outcome (bool * Solver) :=
  match stack with
  | [] => Ok (false, self)
  | (row, col) :: stack' =>
      match fuel with
      | O => OutOfFuel
      | S fuel' =>
          '(positions1, b1) ← unwind_positions positions row (board self);
          let self1 := set_board self b1 in
          e ← place_loop self1 row (range2 col (n self1)) stack' positions1;
          match e with
          | ReturnTrue self2 => Ok (true, self2)
          | Break self2 stack2 positions2 =>
              iterative_loop fuel' self2 stack2 positions2
          | Exhausted =>
              iterative_loop fuel' (incr_backtrack_count self1) stack' positions1
          end
      end
  end.

(** [NQueensSolver.solve_iterative] *)
Definition solve_iterative (fuel : nat) (self : Solver) : outcome (bool * Solver) :=
  if n self =? 0 then Ok (true, self)
  else iterative_loop fuel self [(0, 0)] [].

(** ** Statistics and validation *)

(** The dictionary returned by [get_statistics], without the wall-clock
    entry ['time_taken']. *)
Record Statistics : Type := mkStatistics {
  board_size : Z;
  solutions_found : Z;
  backtrack_operations : Z
}.

Definition get_statistics (self : Solver) : Statistics :=
  mkStatistics (n self) (solution_count self) (backtrack_count self).

Fixpoint validate_loop (solution : list (Z * Z))
    (rows cols diag1 diag2 : gset Z) : bool :=
  match solution with
  | [] => true
  | (row, col) :: solution' =>
      if bool_decide (row ∈ rows) || bool_decide (col ∈ cols) ||
         bool_decide (row - col ∈ diag1) || bool_decide (row + col ∈ diag2)
      then false
      else validate_loop solution' ({[ row ]} ∪ rows) ({[ col ]} ∪ cols)
                         ({[ row - col ]} ∪ diag1) ({[ row + col ]} ∪ diag2)
  end.

(** [NQueensSolver.validate_solution] *)
Definition validate_solution (self : Solver) (solution : list (Z * Z)) : bool :=
  if negb (Z.of_nat (length solution) =? n self) then false
  else validate_loop solution ∅ ∅ ∅ ∅.

(** ** [NQueensAnalyzer] *)

(** [get_known_solution_counts] *)
Definition get_known_solution_counts : gmap Z Z :=
  list_to_map [(1, 1); (2, 0); (3, 0); (4, 2); (5, 10); (6, 4); (7, 40);
               (8, 92); (9, 352); (10, 724); (11, 2680); (12, 14200);
               (13, 73712); (14, 365596)].

(** Python's order on pairs of integers. *)
Definition pair_le (p q : Z * Z) : Prop :=
  p.1 < q.1 ∨ (p.1 = q.1 ∧ p.2 ≤ q.2).

#[global] Instance pair_le_dec p q : Decision (pair_le p q).
Proof. unfold pair_le. apply _. Defined.

(** [tuple(sorted(solution))]: the ascending rearrangement of the pairs. *)
Definition sorted (solution : list (Z * Z)) : list (Z * Z) :=
  merge_sort pair_le solution.

(** The set [unique_solutions] built by the loop of [analyze_symmetry]. *)
Definition unique_solutions (sols : list (list (Z * Z))) : gset (list (Z * Z)) :=
  foldl (fun acc solution => {[ sorted solution ]} ∪ acc) ∅ sols.

(** [analyze_symmetry]: [None] for the early return on an empty list,
    otherwise the two counts it prints, "Total solutions" and
    "Unique solutions (ignoring symmetry)". *)
Definition analyze_symmetry (sols : list (list (Z * Z))) (N : Z)
    : option (nat * nat) :=
  match sols with
  | [] => None
  | _ => Some (length sols, size (unique_solutions sols))
  end.

(** ** Display *)

(** [for x in l: ...] with a body that can raise, collecting the results. *)
Fixpoint outcome_map {A B} (f : A -> outcome B) (l : list A) : outcome (list B) :=
  match l with
  | [] => Ok []
  | x :: l' => y ← f x; ys ← outcome_map f l'; Ok (y :: ys)
  end.

(** [for row, col in solution: temp_board[row][col] = 1] *)
Fixpoint mark_queens (temp_board : Board) (solution : list (Z * Z)) : outcome Board :=
  match solution with
  | [] => Ok temp_board
  | (row, col) :: solution' =>
      b ← board_set temp_board row col 1;
      mark_queens b solution'
  end.

(** The board [display_board] and [display_compact_board] show: a fresh
    board marked with the given solution, or [self.board] when the argument
    is [None] or empty ([if solution:]). *)
Definition board_to_show (self : Solver) (solution : option (list (Z * Z)))
    : outcome Board :=
  match solution with
  | Some (p :: solution') => mark_queens (empty_board (n self)) (p :: solution')
  | _ => Ok (board self)
  end.

(** What [display_compact_board] prints for one cell, each followed by a
    space: [Q] for a queen, a centred dot otherwise. *)
Inductive Glyph : Type := GlyphQ | GlyphDot.

(** [NQueensSolver.display_compact_board]: the printed lines. *)
Definition display_compact_board (self : Solver) (solution : option (list (Z * Z)))
    : outcome (list (list Glyph)) :=
  b ← board_to_show self solution;
  outcome_map
    (fun i => outcome_map
                (fun j => v ← cell b i j; Ok (if v =? 1 then GlyphQ else GlyphDot))
                (range (n self)))
    (range (n self)).

(** ** The benchmark *)

(** One line of the table printed by [benchmark_different_sizes], without
    the elapsed time: board size, [solution_count], [backtrack_count], and
    whether [solution_count] equals the known count. *)
Record BenchmarkRow : Type := mkBenchmarkRow {
  bench_n : Z;
  bench_solutions : Z;
  bench_backtracks : Z;
  bench_matches : bool
}.

(** [NQueensAnalyzer.benchmark_different_sizes]: [for n in range(4,
    min(10, 15))], a fresh solver and one exhaustive search per size. *)
Definition benchmark_different_sizes (fuel : nat) : outcome (list BenchmarkRow) :=
  let known_counts := get_known_solution_counts in
  outcome_map
    (fun size =>
       slv ← init size;
       st ← solve_all_backtrack fuel slv 0 None None None;
       let expected := known_counts !! size in
       Ok (mkBenchmarkRow size (solution_count (solver st))
             (backtrack_count (solver st))
             (bool_decide (Some (solution_count (solver st)) = expected))))
    (range2 4 (Z.min 10 15)).

(** ** The interactive front end *)

(** What [get_board_size] prints after a rejected attempt. *)
Inductive SizeMessage : Type := MustBeAtLeast4 | TooLarge | NotANumber.

(** [get_board_size].  Each element of [inputs] is one answer to the
    prompt as [int(input(...))] sees it: [Some n], or [None] when [int]
    raises [ValueError].  The result is the accepted size with the messages
    printed before it and the answers not yet read; [None] when the answers
    run out while the loop is still asking. *)
Fixpoint get_board_size (inputs : list (option Z))
    : option (Z * list SizeMessage * list (option Z)) :=
  match inputs with
  | [] => None
  | answer :: inputs' =>
      match answer with
      | Some size =>
          if (4 <=? size) && (size <=? 20) then Some (size, [], inputs')
          else
            '(r, messages, rest) ← get_board_size inputs';
            Some (r, (if size <? 4 then MustBeAtLeast4 else TooLarge) :: messages, rest)
      | None =>
          '(r, messages, rest) ← get_board_size inputs';
          Some (r, NotANumber :: messages, rest)
      end
  end.

(** What one pass of [main] reports for the methods 1, 2 and 3. *)
Inductive Report : Type :=
  | SolutionFound (solution : list (Z * Z)) (valid : bool)
  | NoSolutionExists
  | AllSolutionsFound (stats : Statistics) (shown : list (list (list Glyph)))
                      (more : option Z) (symmetry : option (nat * nat))
  | NoSolutionsExist
  | IterativeSolutionFound.

(** [main], method ['1']: first solution, then validation of the queens
    read off the board. *)
Definition main_first_solution (fuel : nat) (size : Z) : outcome Report :=
  slv ← init size;
  '(found, slv) ← solve_backtrack fuel slv 0;
  if (found : bool) then
    solution ← collect_rows (board slv) size (range size) [];
    Ok (SolutionFound solution (validate_solution slv solution))
  else Ok NoSolutionExists.

(** [main], method ['2']: all solutions, statistics, the first three
    solutions displayed, the symmetry analysis for [n <= 8]. *)
Definition main_all_solutions (fuel : nat) (size : Z) : outcome Report :=
  slv ← init size;
  st ← solve_all_backtrack fuel slv 0 None None None;
  let slv := solver st in
  match solutions slv with
  | [] => Ok NoSolutionsExist
  | _ =>
      let stats := get_statistics slv in
      let show_count := Z.min 3 (Z.of_nat (length (solutions slv))) in
      shown ← outcome_map
                (fun i => solution ← getitem (solutions slv) i;
                          display_compact_board slv (Some solution))
                (range show_count);
      let more := if Z.of_nat (length (solutions slv)) >? show_count
                  then Some (Z.of_nat (length (solutions slv)) - show_count)
                  else None in
      let symmetry := if size <=? 8
                      then analyze_symmetry (solutions slv) size
                      else None in
      Ok (AllSolutionsFound stats shown more symmetry)
  end.

(** [main], method ['3']: the iterative search. *)
Definition main_iterative (fuel : nat) (size : Z) : outcome Report :=
  slv ← init size;
  '(found, slv) ← solve_iterative fuel slv;
  if (found : bool) then Ok IterativeSolutionFound else Ok NoSolutionExists.

(** * Specification

    The notions in which the claims are stated and proved: boards described
    by the list of their queens, the searches replayed on such lists, and
    N-Queens solutions. *)

(** ** Boards and placements *)

(** The [N] x [N] board whose cell [(i, j)] holds [f i j]. *)
Definition board_fn (N : Z) (f : Z -> Z -> Z) : Board :=
  (fun i => (fun j => f i j) <$> range N) <$> range N.

(** The content of cell [(i, j)] when the queens stand on the squares of
    [qs]: 1 for a queen, 0 otherwise. *)
Definition has_queen (qs : list (Z * Z)) (i j : Z) : Z :=
  if bool_decide ((i, j) ∈ qs) then 1 else 0.

(** The [N] x [N] board holding a queen exactly on the squares of [qs]. *)
Definition board_of (N : Z) (qs : list (Z * Z)) : Board :=
  board_fn N (has_queen qs).

(** [placed N row qs]: rows [0 .. row-1] hold one queen each, the most
    recently placed queen first, every column inside the board. *)
Inductive placed (N : Z) : Z -> list (Z * Z) -> Prop :=
  | placed_nil : placed N 0 []
  | placed_cons row c qs :
      placed N row qs -> 0 <= c < N -> placed N (row + 1) ((row, c) :: qs).

(** Two queens on different rows attack each other when they share a
    column or one of the two diagonals. *)
Definition attacks (p q : Z * Z) : Prop :=
  p.2 = q.2 \/ p.1 - p.2 = q.1 - q.2 \/ p.1 + p.2 = q.1 + q.2.

#[global] Instance attacks_dec p q : Decision (attacks p q).
Proof. unfold attacks. apply _. Defined.

(** No queen of [qs] attacks the square [(row, col)]. *)
Definition Safe (qs : list (Z * Z)) (row col : Z) : Prop :=
  Forall (fun q => ~ attacks q (row, col)) qs.

(** ** First-solution search on lists of queens *)

(** The search of [solve_backtrack] replayed on the list of placed queens:
    [k] rows remain below [row]. *)
Fixpoint first_column (rec : list (Z * Z) -> option (list (Z * Z)))
    (qs : list (Z * Z)) (row : Z) (columns : list Z) : option (list (Z * Z)) :=
  match columns with
  | [] => None
  | c :: columns' =>
      if bool_decide (Safe qs row c) then
        match rec ((row, c) :: qs) with
        | Some r => Some r
        | None => first_column rec qs row columns'
        end
      else first_column rec qs row columns'
  end.

Fixpoint search (N : Z) (k : nat) (row : Z) (qs : list (Z * Z))
    : option (list (Z * Z)) :=
  match k with
  | O => Some qs
  | S k' => first_column (search N k' (row + 1)) qs row (range N)
  end.

(** What a search leaves untouched in the solver. *)
Definition frame (s s' : Solver) : Prop :=
  n s' = n s /\ solutions s' = solutions s /\
  solution_count s' = solution_count s /\
  backtrack_count s <= backtrack_count s'.

(** Outcome of a first-solution search started on a board holding [qs]:
    success leaves the queens [qs'] found by [search] on the board, failure
    leaves the board as it was. *)
Definition first_post (N : Z) (self : Solver) (qs : list (Z * Z))
    (found : option (list (Z * Z))) (out : outcome (bool * Solver)) : Prop :=
  match found with
  | Some qs' => exists s', out = Ok (true, s') /\ frame self s' /\
                           board s' = board_of N qs'
  | None => exists s', out = Ok (false, s') /\ frame self s' /\
                       board s' = board_of N qs
  end.

(** ** Solutions of the N-Queens problem *)

(** Two squares attack each other when they share a row, a column or a
    diagonal. *)
Definition queens_attack (p q : Z * Z) : Prop :=
  p.1 = q.1 \/ p.2 = q.2 \/ p.1 - p.2 = q.1 - q.2 \/ p.1 + p.2 = q.1 + q.2.

(** A solution of the N-Queens problem: [N] distinct squares of the
    [N] x [N] board, no two of them attacking each other. *)
Definition is_solution (N : Z) (sol : list (Z * Z)) : Prop :=
  Z.of_nat (length sol) = N /\ NoDup sol /\
  (forall p, p ∈ sol -> 0 <= p.1 < N /\ 0 <= p.2 < N) /\
  (forall p q, p ∈ sol -> q ∈ sol -> p <> q -> ~ queens_attack p q).

(** Each queen of [qs] was safe when it was placed on top of the others. *)
Fixpoint nonattacking (qs : list (Z * Z)) : Prop :=
  match qs with
  | [] => True
  | q :: qs' => Safe qs' q.1 q.2 /\ nonattacking qs'
  end.

(** ** Placements given by a column function *)

(** A placement given by the column [q i] of the queen of each row [i]. *)
Definition compatible (q : Z -> Z) (N : Z) : Prop :=
  (forall i, 0 <= i < N -> 0 <= q i < N) /\
  (forall i j, 0 <= i < j -> j < N ->
     q i <> q j /\ i - q i <> j - q j /\ i + q i <> j + q j).

(** Size [2 * m]: odd columns on the upper half, even columns below. *)
Definition staircase (m i : Z) : Z :=
  if i <? m then 2 * i + 1 else 2 * (i - m).

(** [x mod (2 * m)] for [0 <= x < 4 * m]. *)
Definition wrap (m x : Z) : Z := if x <? 2 * m then x else x - 2 * m.

(** Size [2 * m]: the staircase shifted by [m - 1], mirrored below. *)
Definition shifted (m i : Z) : Z :=
  if i <? m then wrap m (2 * i + m - 1)
  else 2 * m - 1 - wrap m (2 * (2 * m - 1 - i) + m - 1).

(** One more row and column, with a queen on the new corner. *)
Definition with_corner (q : Z -> Z) (N' i : Z) : Z :=
  if i <? N' then q i else N'.

(** Case analysis on every [<?] test of the goal. *)
Ltac split_ltb :=
  repeat match goal with
         | |- context [?a <? ?b] => destruct (Z.ltb_spec a b)
         end.

(** ** Row-major reading and validation *)

(** The queens of [qs] on the given rows, in row-major order. *)
Definition row_major (N : Z) (qs : list (Z * Z)) (rows : list Z) : list (Z * Z) :=
  rows ≫= (fun r => (fun c => (r, c)) <$> filter (fun c => (r, c) ∈ qs) (range N)).

(** The two diagonal identifiers of a square. *)
Definition diag1_of (p : Z * Z) : Z := p.1 - p.2.
Definition diag2_of (p : Z * Z) : Z := p.1 + p.2.

(** The values of [f] on [sol] are pairwise distinct and none is in [acc]. *)
Definition fresh_family (f : Z * Z -> Z) (sol : list (Z * Z)) (acc : gset Z) : Prop :=
  NoDup (f <$> sol) /\ forall p, p ∈ sol -> f p ∉ acc.

(** ** Exhaustive search with a log of its safety queries *)

(** One evaluation of [is_safe_optimized] in [solve_all_backtrack]: the
    solver and the three sets as they are at that moment. *)
Record Query : Type := mkQuery {
  q_state : AllState;
  q_row : Z;
  q_col : Z
}.

(** [solve_all_loop] and [solve_all_backtrack] once more, with a ghost log
    that receives every safety query; nothing else differs. *)
Fixpoint solve_all_loop_traced
    (rec : AllState * list Query -> outcome (AllState * list Query))
    (row : Z) (columns : list Z) (st : AllState) (log : list Query)
    : outcome (AllState * list Query) :=
  match columns with
  | [] => Ok (st, log)
  | col :: columns' =>
      let log1 := log ++ [mkQuery st row col] in
      if is_safe_optimized row col (cols st) (diag1 st) (diag2 st) then
        b1 ← board_set (board (solver st)) row col 1;
        '(st2, log2) ← rec (mkAll (set_board (solver st) b1)
                                  ({[ col ]} ∪ cols st)
                                  ({[ row - col ]} ∪ diag1 st)
                                  ({[ row + col ]} ∪ diag2 st), log1);
        b3 ← board_set (board (solver st2)) row col 0;
        cols3 ← set_remove col (cols st2);
        diag13 ← set_remove (row - col) (diag1 st2);
        diag23 ← set_remove (row + col) (diag2 st2);
        solve_all_loop_traced rec row columns'
          (mkAll (incr_backtrack_count (set_board (solver st2) b3))
                 cols3 diag13 diag23) log2
      else solve_all_loop_traced rec row columns' st log1
  end.

Fixpoint solve_all_backtrack_traced (fuel : nat) (self : Solver) (row : Z)
    (cols0 diag10 diag20 : option (gset Z)) (log : list Query)
    : outcome (AllState * list Query) :=
  match fuel with
  | O => OutOfFuel
  | S fuel' =>
      let st0 := mkAll self (default ∅ cols0) (default ∅ diag10) (default ∅ diag20) in
      if row =? n self then
        solution ← collect_board self;
        Ok (mkAll (record_solution self solution) (cols st0) (diag1 st0) (diag2 st0),
            log)
      else
        solve_all_loop_traced
          (fun '(st, log') =>
             solve_all_backtrack_traced fuel' (solver st) (row + 1)
               (Some (cols st)) (Some (diag1 st)) (Some (diag2 st)) log')
          row (range (n self)) st0 log
  end.

(** Forgetting the log. *)
Definition erase {A B} (m : outcome (A * B)) : outcome A :=
  '(a, _) ← m; Ok a.

(** The three sets mirror the queens on the board: they hold exactly the
    columns, [row - col] and [row + col] values of the queens read off the
    board, and no two queens share any of these values. *)
Definition mirrors (st : AllState) : Prop :=
  exists queens,
    collect_board (solver st) = Ok queens /\
    cols st = list_to_set (snd <$> queens) /\ NoDup (snd <$> queens) /\
    diag1 st = list_to_set (diag1_of <$> queens) /\ NoDup (diag1_of <$> queens) /\
    diag2 st = list_to_set (diag2_of <$> queens) /\ NoDup (diag2_of <$> queens).

(** A safety query at which the sets mirror the board and the set-based
    test agrees with the board-scanning [is_safe]. *)
Definition query_ok (q : Query) : Prop :=
  mirrors (q_state q) /\
  is_safe (solver (q_state q)) (q_row q) (q_col q)
  = Ok (is_safe_optimized (q_row q) (q_col q)
          (cols (q_state q)) (diag1 (q_state q)) (diag2 (q_state q))).

(** ** Enumeration on lists of queens *)

(** The enumeration of [solve_all_backtrack] replayed on lists of queens. *)
Fixpoint all_columns (rec : list (Z * Z) -> list (list (Z * Z)))
    (qs : list (Z * Z)) (row : Z) (columns : list Z) : list (list (Z * Z)) :=
  match columns with
  | [] => []
  | c :: columns' =>
      (if bool_decide (Safe qs row c) then rec ((row, c) :: qs) else [])
      ++ all_columns rec qs row columns'
  end.

Fixpoint enumerate (N : Z) (k : nat) (row : Z) (qs : list (Z * Z))
    : list (list (Z * Z)) :=
  match k with
  | O => [qs]
  | S k' => all_columns (enumerate N k' (row + 1)) qs row (range N)
  end.

(** The three sets are those of the queens [qs]. *)
Definition sets_of (qs : list (Z * Z)) (st : AllState) : Prop :=
  cols st = list_to_set (snd <$> qs) /\
  diag1 st = list_to_set (diag1_of <$> qs) /\
  diag2 st = list_to_set (diag2_of <$> qs).

(** Outcome of an exhaustive search started in state [st] with log [log]:
    the sets and the board are as before, the solutions [sols] have been
    appended, and every query added to the log is [query_ok]. *)
Definition all_post (st : AllState) (log : list Query)
    (sols : list (list (Z * Z))) (out : outcome (AllState * list Query)) : Prop :=
  exists st' new,
    out = Ok (st', log ++ new) /\ Forall query_ok new /\
    cols st' = cols st /\ diag1 st' = diag1 st /\ diag2 st' = diag2 st /\
    n (solver st') = n (solver st) /\ board (solver st') = board (solver st) /\
    solutions (solver st') = solutions (solver st) ++ (reverse <$> sols) /\
    solution_count (solver st')
    = solution_count (solver st) + Z.of_nat (length sols) /\
    backtrack_count (solver st) <= backtrack_count (solver st').

(** ** Solutions as the exhaustive search emits them *)

(** The pairs of [sol] are listed by strictly increasing row. *)
Definition rows_ascending (sol : list (Z * Z)) : Prop :=
  StronglySorted (fun p q => p.1 < q.1) sol.

(** The placements enumerated by a top-level [solve_all_backtrack] on a
    board of size [N]; a negative size enumerates nothing. *)
Definition all_placements (N : Z) : list (list (Z * Z)) :=
  if N <? 0 then [] else enumerate N (Z.to_nat N) 0 [].

(** A candidate for the 4 x 4 board whose first queen sits on row 10,
    outside the board. *)
Definition out_of_range_candidate : list (Z * Z) :=
  [(10, 1); (1, 3); (2, 0); (3, 2)].

(** ** Frames of the iterative search *)

(** The first column of [columns] on which a queen can be placed. *)
Fixpoint first_safe (qs : list (Z * Z)) (row : Z) (columns : list Z) : option Z :=
  match columns with
  | [] => None
  | c :: columns' =>
      if bool_decide (Safe qs row c) then Some c else first_safe qs row columns'
  end.

(** Outcome of the iterative loop on one frame, as a function of the fuel
    left after the frame: success with the queens found by [first_column]
    on the board, or return to the rest of the stack with the frame's own
    placement [qs] restored. *)
Definition iter_post (N : Z) (self : Solver) (stack qs : list (Z * Z))
    (found : option (list (Z * Z))) (run : nat -> outcome (bool * Solver)) : Prop :=
  match found with
  | Some qs' =>
      exists self', (forall fuel, run fuel = Ok (true, self')) /\
                    frame self self' /\ board self' = board_of N qs'
  | None =>
      exists self', (forall fuel, run fuel = iterative_loop fuel self' stack qs) /\
                    frame self self' /\ board self' = board_of N qs
  end.

(** ** Symmetries of the board *)

(** Reflection in the main diagonal. *)
Definition transpose_square (p : Z * Z) : Z * Z := (p.2, p.1).

(** Reflection in the vertical axis of a board of size [N]. *)
Definition mirror_square (N : Z) (p : Z * Z) : Z * Z := (p.1, N - 1 - p.2).

(** ** Counting placements *)

(** The safety test of the query succeeded, so a queen was placed. *)
Definition query_safe (q : Query) : bool :=
  is_safe_optimized (q_row q) (q_col q)
    (cols (q_state q)) (diag1 (q_state q)) (diag2 (q_state q)).

(** The number of queens placed during the logged part of a run. *)
Definition placements (log : list Query) : Z :=
  Z.of_nat (length (filter (fun q => query_safe q = true) log)).

(** ** Indices and answers *)

(** An index Python accepts for a list of length [N]. *)
Definition index_ok (N i : Z) : Prop := - N <= i < N.

(** An answer [get_board_size] does not accept. *)
Definition rejected (answer : option Z) : Prop :=
  match answer with
  | Some size => ~ (4 <= size <= 20)
  | None => True
  end.

(** The line [display_compact_board] prints for row [i] of a board given by
    its cell function. *)
Definition glyph_row (N : Z) (f : Z -> Z -> Z) (i : Z) : list Glyph :=
  (fun j => if f i j =? 1 then GlyphQ else GlyphDot) <$> range N.

(** The lines [display_compact_board] prints for a board of size [N]
    holding the queens [sol]. *)
Definition render (N : Z) (sol : list (Z * Z)) : list (list Glyph) :=
  glyph_row N (has_queen sol) <$> range N.

(** ** Counting the placements a first-solution search undoes *)

(** The placements undone by the column loop of [solve_backtrack]:
    [found] and [count] describe the recursive call. *)
Fixpoint undone_column (found : list (Z * Z) -> option (list (Z * Z)))
    (count : list (Z * Z) -> Z) (qs : list (Z * Z)) (row : Z)
    (columns : list Z) : Z :=
  match columns with
  | [] => 0
  | c :: columns' =>
      if bool_decide (Safe qs row c) then
        match found ((row, c) :: qs) with
        | Some _ => count ((row, c) :: qs)
        | None => count ((row, c) :: qs) + 1
                  + undone_column found count qs row columns'
        end
      else undone_column found count qs row columns'
  end.

Fixpoint undone (N : Z) (k : nat) (row : Z) (qs : list (Z * Z)) : Z :=
  match k with
  | O => 0
  | S k' => undone_column (search N k' (row + 1)) (undone N k' (row + 1))
              qs row (range N)
  end.

(** A first-solution search returned the result of [search], with the
    board it implies, after [count] backtrack operations. *)
Definition counted_post (N : Z) (self : Solver) (qs : list (Z * Z))
    (found : option (list (Z * Z))) (count : Z)
    (out : outcome (bool * Solver)) : Prop :=
  exists s',
    out = Ok (bool_decide (is_Some found), s') /\
    n s' = n self /\ board s' = board_of N (default qs found) /\
    backtrack_count s' = backtrack_count self + count.

(** The iterative loop has worked off one frame after [count] backtrack
    operations. *)
Definition iter_counted (N : Z) (self : Solver) (stack qs : list (Z * Z))
    (found : option (list (Z * Z))) (count : Z)
    (run : nat -> outcome (bool * Solver)) : Prop :=
  exists s',
    n s' = n self /\ board s' = board_of N (default qs found) /\
    backtrack_count s' = backtrack_count self + count /\
    forall fuel,
      run fuel = match found with
                 | Some _ => Ok (true, s')
                 | None => iterative_loop fuel s' stack qs
                 end.

(** * Verification *)

(** ** The outcome monad *)

Lemma bind_Ok {A B} (a : A) (f : A -> outcome B) : (Ok a ≫= f) = f a.
Proof. reflexivity. Qed.

Lemma bind_Ok_inv {A B} (m : outcome A) (f : A -> outcome B) (b : B) :
  (m ≫= f) = Ok b -> exists a, m = Ok a /\ f a = Ok b.
Proof. destruct m; simpl; intros H; try discriminate. eauto. Qed.

(** ** Boards given by a cell function *)

Lemma py_index_in_range (len i : Z) :
  0 <= i < len -> py_index len i = Ok (Z.to_nat i).
Proof.
  intros H. unfold py_index.
  replace (0 <=? i) with true by (symmetry; apply Z.leb_le; lia).
  replace (i <? len) with true by (symmetry; apply Z.ltb_lt; lia).
  reflexivity.
Qed.

Lemma length_fmap_range {A} (f : Z -> A) (N : Z) :
  Z.of_nat (length (f <$> range N)) = Z.max 0 N.
Proof. rewrite length_fmap. unfold range. rewrite length_seqZ. lia. Qed.

Lemma lookup_fmap_range {A} (f : Z -> A) (N i : Z) :
  0 <= i < N -> (f <$> range N) !! Z.to_nat i = Some (f i).
Proof.
  intros H. rewrite list_lookup_fmap. unfold range.
  rewrite lookup_seqZ_lt by lia. simpl. f_equal. f_equal. lia.
Qed.

Lemma getitem_fmap_range {A} (f : Z -> A) (N i : Z) :
  0 <= i < N -> getitem (f <$> range N) i = Ok (f i).
Proof.
  intros H. unfold getitem.
  rewrite length_fmap_range, py_index_in_range by lia.
  rewrite bind_Ok, lookup_fmap_range by lia. reflexivity.
Qed.

Lemma setitem_fmap_range {A} (f : Z -> A) (N i : Z) (x : A) :
  0 <= i < N ->
  setitem (f <$> range N) i x
  = Ok ((fun k => if k =? i then x else f k) <$> range N).
Proof.
  intros H. unfold setitem.
  rewrite length_fmap_range, py_index_in_range by lia.
  rewrite bind_Ok. f_equal. apply list_eq. intros k.
  destruct (decide (k = Z.to_nat i)) as [->|Hne].
  - rewrite list_lookup_insert_eq
      by (rewrite length_fmap; unfold range; rewrite length_seqZ; lia).
    rewrite lookup_fmap_range by lia. rewrite Z.eqb_refl. reflexivity.
  - rewrite list_lookup_insert_ne by congruence.
    rewrite !list_lookup_fmap. unfold range.
    destruct (seqZ 0 N !! k) as [z|] eqn:Hz; [|reflexivity].
    apply lookup_seqZ in Hz as [-> Hk]. simpl. f_equal.
    destruct (Z.eqb_spec (0 + Z.of_nat k) i); [lia | reflexivity].
Qed.

Lemma fmap_range_ext {A} (f g : Z -> A) (N : Z) :
  (forall i, 0 <= i < N -> f i = g i) -> f <$> range N = g <$> range N.
Proof.
  intros H. apply list_fmap_ext. intros k x Hx.
  apply lookup_seqZ in Hx as [-> Hk]. apply H. lia.
Qed.

Lemma board_fn_ext (N : Z) (f g : Z -> Z -> Z) :
  (forall i j, 0 <= i < N -> 0 <= j < N -> f i j = g i j) ->
  board_fn N f = board_fn N g.
Proof.
  intros H. unfold board_fn. apply fmap_range_ext. intros i Hi.
  apply fmap_range_ext. intros j Hj. auto.
Qed.

Lemma cell_board_fn (N : Z) (f : Z -> Z -> Z) (i j : Z) :
  0 <= i < N -> 0 <= j < N -> cell (board_fn N f) i j = Ok (f i j).
Proof.
  intros Hi Hj. unfold cell, board_fn.
  rewrite getitem_fmap_range by lia. rewrite bind_Ok.
  rewrite getitem_fmap_range by lia. reflexivity.
Qed.

Lemma board_set_board_fn (N : Z) (f : Z -> Z -> Z) (i j v : Z) :
  0 <= i < N -> 0 <= j < N ->
  board_set (board_fn N f) i j v
  = Ok (board_fn N (fun a b => if (a =? i) && (b =? j) then v else f a b)).
Proof.
  intros Hi Hj. unfold board_set, board_fn.
  rewrite getitem_fmap_range by lia. rewrite bind_Ok.
  rewrite setitem_fmap_range by lia. rewrite bind_Ok.
  rewrite setitem_fmap_range by lia. f_equal.
  apply fmap_range_ext. intros a Ha. simpl.
  destruct (Z.eqb_spec a i) as [->|Hne]; simpl.
  - apply fmap_range_ext. intros b Hb. reflexivity.
  - reflexivity.
Qed.

Lemma empty_board_fn (N : Z) : empty_board N = board_fn N (fun _ _ => 0).
Proof. reflexivity. Qed.

(** ** Boards holding a list of queens *)

Lemma has_queen_ext qs qs' i j :
  ((i, j) ∈ qs <-> (i, j) ∈ qs') -> has_queen qs i j = has_queen qs' i j.
Proof. intros H. unfold has_queen. rewrite (bool_decide_ext _ _ H). reflexivity. Qed.

Lemma has_queen_in qs i j : (i, j) ∈ qs -> has_queen qs i j = 1.
Proof. intros H. unfold has_queen. rewrite bool_decide_eq_true_2; auto. Qed.

Lemma has_queen_notin qs i j : (i, j) ∉ qs -> has_queen qs i j = 0.
Proof. intros H. unfold has_queen. rewrite bool_decide_eq_false_2; auto. Qed.

Lemma empty_board_of (N : Z) : empty_board N = board_of N [].
Proof.
  rewrite empty_board_fn. apply board_fn_ext. intros i j _ _.
  symmetry. apply has_queen_notin. apply not_elem_of_nil.
Qed.

Lemma cell_board_of (N : Z) qs (i j : Z) :
  0 <= i < N -> 0 <= j < N -> cell (board_of N qs) i j = Ok (has_queen qs i j).
Proof. apply cell_board_fn. Qed.

Lemma elem_of_cons_other (qs : list (Z * Z)) (a b i j : Z) :
  a <> i \/ b <> j -> ((a, b) ∈ (i, j) :: qs <-> (a, b) ∈ qs).
Proof.
  intros Hne. rewrite elem_of_cons. split; [|auto].
  intros [Heq|Hin]; [|assumption]. inversion Heq; subst. destruct Hne; congruence.
Qed.

Lemma board_set_place (N : Z) qs (i j : Z) :
  0 <= i < N -> 0 <= j < N ->
  board_set (board_of N qs) i j 1 = Ok (board_of N ((i, j) :: qs)).
Proof.
  intros Hi Hj. unfold board_of. rewrite board_set_board_fn by lia.
  f_equal. apply board_fn_ext. intros a b _ _.
  destruct (Z.eqb_spec a i) as [Ha|Ha]; destruct (Z.eqb_spec b j) as [Hb|Hb];
    simpl; subst;
    try (apply has_queen_ext; symmetry; apply elem_of_cons_other; auto).
  symmetry. apply has_queen_in. apply elem_of_cons. auto.
Qed.

Lemma board_set_unplace (N : Z) qs (i j : Z) :
  0 <= i < N -> 0 <= j < N -> (i, j) ∉ qs ->
  board_set (board_of N ((i, j) :: qs)) i j 0 = Ok (board_of N qs).
Proof.
  intros Hi Hj Hnin. unfold board_of. rewrite board_set_board_fn by lia.
  f_equal. apply board_fn_ext. intros a b _ _.
  destruct (Z.eqb_spec a i) as [Ha|Ha]; destruct (Z.eqb_spec b j) as [Hb|Hb];
    simpl; subst;
    try (apply has_queen_ext; apply elem_of_cons_other; auto).
  symmetry. apply has_queen_notin. assumption.
Qed.

Lemma placed_nonneg N row qs : placed N row qs -> 0 <= row.
Proof. induction 1; lia. Qed.

Lemma placed_elem N row qs i j :
  placed N row qs -> (i, j) ∈ qs -> 0 <= i < row /\ 0 <= j < N.
Proof.
  induction 1 as [|row c qs Hp IH Hc]; intros Hin.
  - apply elem_of_nil in Hin. contradiction.
  - apply placed_nonneg in Hp as Hrow.
    apply elem_of_cons in Hin as [Heq|Hin].
    + inversion Heq; subst. lia.
    + specialize (IH Hin). lia.
Qed.

Lemma placed_length N row qs : placed N row qs -> Z.of_nat (length qs) = row.
Proof. induction 1; simpl; lia. Qed.

Lemma placed_fresh N row qs c : placed N row qs -> (row, c) ∉ qs.
Proof. intros Hp Hin. apply (placed_elem _ _ _ _ _ Hp) in Hin. lia. Qed.

(** ** [is_safe] on a board of placed queens *)

Section is_safe_correct.
Variables (N : Z) (qs : list (Z * Z)).

Lemma column_clear_spec col rows :
  0 <= col < N -> Forall (fun i => 0 <= i < N) rows ->
  column_clear (board_of N qs) col rows
  = Ok (bool_decide (Forall (fun i => (i, col) ∉ qs) rows)).
Proof.
  intros Hcol. induction 1 as [|i rows Hi Hrows IH]; cbn [column_clear].
  - rewrite bool_decide_eq_true_2; [reflexivity | constructor].
  - rewrite cell_board_of by lia. rewrite bind_Ok.
    destruct (decide ((i, col) ∈ qs)) as [Hin|Hnin].
    + rewrite has_queen_in by assumption. cbn [Z.eqb Pos.eqb].
      rewrite bool_decide_eq_false_2; [reflexivity|].
      intros HF. inversion HF; subst. contradiction.
    + rewrite has_queen_notin by assumption. cbn [Z.eqb]. rewrite IH.
      f_equal. apply bool_decide_ext. rewrite Forall_cons. tauto.
Qed.

Lemma diag_left_clear_spec fuel i j :
  -1 <= i < N -> -1 <= j < N -> (Z.to_nat (i + 1) <= fuel)%nat ->
  exists r, diag_left_clear fuel (board_of N qs) i j = Ok r /\
    (r = true <->
     forall k, 0 <= k -> k <= i -> k <= j -> (i - k, j - k) ∉ qs).
Proof.
  revert i j. induction fuel as [|fuel IH]; intros i j Hi Hj Hfuel.
  - assert (i = -1) as -> by lia. simpl. exists true. split; [reflexivity|].
    split; [|reflexivity]. intros _ k ? ? ?. lia.
  - simpl. destruct (Z.leb_spec 0 i) as [Hi0|Hi0];
      destruct (Z.leb_spec 0 j) as [Hj0|Hj0]; simpl;
      try (exists true; split; [reflexivity|];
           split; [|reflexivity]; intros _ k ? ? ?; lia).
    rewrite cell_board_of by lia. rewrite bind_Ok.
    destruct (decide ((i, j) ∈ qs)) as [Hin|Hnin].
    + rewrite has_queen_in by assumption. simpl. exists false.
      split; [reflexivity|]. split; [discriminate|].
      intros H. exfalso. apply (H 0); try lia.
      replace (i - 0) with i by lia. replace (j - 0) with j by lia. assumption.
    + rewrite has_queen_notin by assumption. simpl.
      destruct (IH (i - 1) (j - 1)) as (r & Hr & Hspec); try lia.
      exists r. split; [assumption|]. rewrite Hspec. split.
      * intros H k Hk0 Hki Hkj. destruct (decide (k = 0)) as [->|Hk].
        -- replace (i - 0) with i by lia. replace (j - 0) with j by lia.
           assumption.
        -- specialize (H (k - 1)).
           replace (i - 1 - (k - 1)) with (i - k) in H by lia.
           replace (j - 1 - (k - 1)) with (j - k) in H by lia.
           apply H; lia.
      * intros H k Hk0 Hki Hkj. specialize (H (k + 1)).
        replace (i - (k + 1)) with (i - 1 - k) in H by lia.
        replace (j - (k + 1)) with (j - 1 - k) in H by lia.
        apply H; lia.
Qed.

Lemma diag_right_clear_spec fuel i j :
  -1 <= i < N -> 0 <= j <= N -> (Z.to_nat (i + 1) <= fuel)%nat ->
  exists r, diag_right_clear fuel N (board_of N qs) i j = Ok r /\
    (r = true <->
     forall k, 0 <= k -> k <= i -> j + k < N -> (i - k, j + k) ∉ qs).
Proof.
  revert i j. induction fuel as [|fuel IH]; intros i j Hi Hj Hfuel.
  - assert (i = -1) as -> by lia. simpl. exists true. split; [reflexivity|].
    split; [|reflexivity]. intros _ k ? ? ?. lia.
  - simpl. destruct (Z.leb_spec 0 i) as [Hi0|Hi0];
      destruct (Z.ltb_spec j N) as [Hj0|Hj0]; simpl;
      try (exists true; split; [reflexivity|];
           split; [|reflexivity]; intros _ k ? ? ?; lia).
    rewrite cell_board_of by lia. rewrite bind_Ok.
    destruct (decide ((i, j) ∈ qs)) as [Hin|Hnin].
    + rewrite has_queen_in by assumption. simpl. exists false.
      split; [reflexivity|]. split; [discriminate|].
      intros H. exfalso. apply (H 0); try lia.
      replace (i - 0) with i by lia. replace (j + 0) with j by lia. assumption.
    + rewrite has_queen_notin by assumption. simpl.
      destruct (IH (i - 1) (j + 1)) as (r & Hr & Hspec); try lia.
      exists r. split; [assumption|]. rewrite Hspec. split.
      * intros H k Hk0 Hki Hkj. destruct (decide (k = 0)) as [->|Hk].
        -- replace (i - 0) with i by lia. replace (j + 0) with j by lia.
           assumption.
        -- specialize (H (k - 1)).
           replace (i - 1 - (k - 1)) with (i - k) in H by lia.
           replace (j + 1 + (k - 1)) with (j + k) in H by lia.
           apply H; lia.
      * intros H k Hk0 Hki Hkj. specialize (H (k + 1)).
        replace (i - (k + 1)) with (i - 1 - k) in H by lia.
        replace (j + (k + 1)) with (j + 1 + k) in H by lia.
        apply H; lia.
Qed.

(** On a board whose queens occupy rows [0 .. row-1], the three scans of
    [is_safe] decide exactly whether some placed queen attacks
    [(row, col)]. *)
Lemma is_safe_spec self row col :
  n self = N -> board self = board_of N qs ->
  placed N row qs -> row <= N -> 0 <= col < N ->
  is_safe self row col = Ok (bool_decide (Safe qs row col)).
Proof.
  intros Hn Hb Hp HrowN Hcol. pose proof (placed_nonneg _ _ _ Hp) as Hrow0.
  unfold is_safe. rewrite Hb, Hn.
  rewrite column_clear_spec; [|lia|].
  2:{ apply Forall_forall. intros i Hi. unfold range in Hi.
      apply elem_of_seqZ in Hi. lia. }
  rewrite bind_Ok.
  destruct (diag_left_clear_spec (Z.to_nat row) (row - 1) (col - 1))
    as (l & Hl & Hlspec); try lia.
  destruct (diag_right_clear_spec (Z.to_nat row) (row - 1) (col + 1))
    as (r & Hr & Hrspec); try lia.
  assert (Hsafe : Safe qs row col <->
    Forall (fun i => (i, col) ∉ qs) (range row) /\ l = true /\ r = true).
  { rewrite Hlspec, Hrspec. unfold Safe. rewrite !Forall_forall. split.
    - intros HS. split; [|split].
      + intros i _ Hin. apply (HS _ Hin). left. reflexivity.
      + intros k ? ? ? Hin. apply (HS _ Hin). right. left. simpl. lia.
      + intros k ? ? ? Hin. apply (HS _ Hin). right. right. simpl. lia.
    - intros (Hc & Hdl & Hdr) [i j] Hin [Ha|[Ha|Ha]]; simpl in Ha.
      + subst j. apply (Hc i); [|assumption]. unfold range.
        apply elem_of_seqZ. apply (placed_elem _ _ _ _ _ Hp) in Hin. lia.
      + pose proof (placed_elem _ _ _ _ _ Hp Hin) as Hij.
        apply (Hdl (row - 1 - i)); try lia.
        replace (row - 1 - (row - 1 - i)) with i by lia.
        replace (col - 1 - (row - 1 - i)) with j by lia. assumption.
      + pose proof (placed_elem _ _ _ _ _ Hp Hin) as Hij.
        apply (Hdr (row - 1 - i)); try lia.
        replace (row - 1 - (row - 1 - i)) with i by lia.
        replace (col + 1 + (row - 1 - i)) with j by lia. assumption. }
  case_bool_decide as Hc; simpl.
  - rewrite Hl, bind_Ok. destruct l; simpl.
    + rewrite Hr, bind_Ok. destruct r; simpl.
      * rewrite bool_decide_eq_true_2; [reflexivity | tauto].
      * rewrite bool_decide_eq_false_2; [reflexivity|].
        intros HS. apply Hsafe in HS. destruct HS as (_ & _ & ?). discriminate.
    + rewrite bool_decide_eq_false_2; [reflexivity|].
      intros HS. apply Hsafe in HS. destruct HS as (_ & ? & _). discriminate.
  - rewrite bool_decide_eq_false_2; [reflexivity | tauto].
Qed.
End is_safe_correct.

(** ** The search on lists of queens *)

Lemma frame_refl s : frame s s.
Proof. unfold frame. repeat split; lia. Qed.

Lemma frame_trans s1 s2 s3 : frame s1 s2 -> frame s2 s3 -> frame s1 s3.
Proof. unfold frame. intros (?&?&?&?) (?&?&?&?). repeat split; try congruence; lia. Qed.

Lemma frame_set_board s b : frame s (set_board s b).
Proof. unfold frame. simpl. repeat split; lia. Qed.

Lemma frame_incr s : frame s (incr_backtrack_count s).
Proof. unfold frame. simpl. repeat split; lia. Qed.

Create HintDb frame.
#[local] Hint Resolve frame_refl frame_set_board frame_incr : frame.

Lemma solve_backtrack_loop_refines (N row : Z) qs rec arec :
  placed N row qs -> row < N ->
  (forall c s, 0 <= c < N -> n s = N -> board s = board_of N ((row, c) :: qs) ->
     first_post N s ((row, c) :: qs) (arec ((row, c) :: qs)) (rec s)) ->
  forall columns self,
  Forall (fun c => 0 <= c < N) columns ->
  n self = N -> board self = board_of N qs ->
  first_post N self qs (first_column arec qs row columns)
    (solve_backtrack_loop rec row columns self).
Proof.
  intros Hp Hrow Hrec columns.
  pose proof (placed_nonneg _ _ _ Hp) as Hrow0.
  induction columns as [|c columns IH]; intros self Hcols Hn Hb.
  - simpl. exists self. auto with frame.
  - inversion Hcols as [|? ? Hc Hcols']; subst.
    cbn [solve_backtrack_loop first_column].
    rewrite (is_safe_spec (n self) qs) by (auto; lia). rewrite bind_Ok.
    case_bool_decide as Hsafe; [|apply IH; auto].
    rewrite Hb, board_set_place by lia. rewrite bind_Ok.
    specialize (Hrec c (set_board self (board_of (n self) ((row, c) :: qs)))
                  Hc eq_refl eq_refl).
    destruct (arec ((row, c) :: qs)) as [qs'|]; simpl in Hrec.
    + destruct Hrec as (s' & -> & Hf & Hb'). rewrite bind_Ok. simpl.
      exists s'. split; [reflexivity|]. split; [|assumption].
      eapply frame_trans; [apply frame_set_board | exact Hf].
    + destruct Hrec as (s' & -> & Hf & Hb'). rewrite bind_Ok. simpl.
      rewrite Hb', board_set_unplace by (try lia; eapply placed_fresh; eauto).
      rewrite bind_Ok.
      assert (Hf' : frame self (incr_backtrack_count
                                  (set_board s' (board_of (n self) qs)))).
      { eapply frame_trans; [apply frame_set_board|].
        eapply frame_trans; [exact Hf|].
        eapply frame_trans; [apply frame_set_board | apply frame_incr]. }
      specialize (IH (incr_backtrack_count (set_board s' (board_of (n self) qs)))
                    Hcols').
      destruct Hf' as (Hn' & Hrest). simpl in Hn'.
      specialize (IH Hn' eq_refl).
      unfold first_post in *.
      destruct (first_column arec qs row columns) as [qs'|];
        destruct IH as (s3 & -> & Hf3 & Hb3); exists s3; repeat split; auto;
        (eapply frame_trans; [|exact Hf3]); split; auto.
Qed.

Lemma range_bounds (N : Z) : Forall (fun c => 0 <= c < N) (range N).
Proof.
  apply Forall_forall. intros c Hc. unfold range in Hc.
  apply elem_of_seqZ in Hc. lia.
Qed.

(** [solve_backtrack] computes [search]. *)
Lemma solve_backtrack_refines (N : Z) (k : nat) :
  forall fuel row qs self,
  (k < fuel)%nat -> row + Z.of_nat k = N ->
  placed N row qs -> n self = N -> board self = board_of N qs ->
  first_post N self qs (search N k row qs) (solve_backtrack fuel self row).
Proof.
  induction k as [|k IH]; intros fuel row qs self Hfuel Hrow Hp Hn Hb;
    (destruct fuel as [|fuel]; [lia|]); cbn [solve_backtrack search].
  - replace (n self <=? row) with true by (symmetry; apply Z.leb_le; lia).
    exists self. auto with frame.
  - replace (n self <=? row) with false by (symmetry; apply Z.leb_gt; lia).
    rewrite Hn.
    apply solve_backtrack_loop_refines; auto using range_bounds; try lia.
    intros c s Hc Hns Hbs. apply IH; auto; try lia.
    constructor; auto.
Qed.

(** ** N-Queens solutions *)

Lemma first_column_sound rec qs row columns r :
  first_column rec qs row columns = Some r ->
  exists c, c ∈ columns /\ Safe qs row c /\ rec ((row, c) :: qs) = Some r.
Proof.
  induction columns as [|c columns IH]; cbn [first_column]; [discriminate|].
  intros H. case_bool_decide as Hsafe.
  - destruct (rec ((row, c) :: qs)) as [r'|] eqn:Hrec.
    + exists c. split; [left|]. split; [assumption | congruence].
    + destruct (IH H) as (c' & ? & ? & ?). exists c'. split; [right|]; auto.
  - destruct (IH H) as (c' & ? & ? & ?). exists c'. split; [right|]; auto.
Qed.

Lemma first_column_complete rec qs row columns c :
  c ∈ columns -> Safe qs row c -> is_Some (rec ((row, c) :: qs)) ->
  is_Some (first_column rec qs row columns).
Proof.
  intros Hin Hsafe Hrec.
  induction columns as [|c' columns IH]; [apply elem_of_nil in Hin; contradiction|].
  cbn [first_column]. apply elem_of_cons in Hin as [<-|Hin].
  - rewrite bool_decide_eq_true_2 by assumption.
    destruct Hrec as [r ->]. eauto.
  - case_bool_decide; [|auto].
    destruct (rec ((row, c') :: qs)); [eauto | auto].
Qed.

Lemma search_sound (N : Z) (k : nat) :
  forall row qs r, search N k row qs = Some r ->
  placed N row qs -> nonattacking qs ->
  placed N (row + Z.of_nat k) r /\ nonattacking r.
Proof.
  induction k as [|k IH]; intros row qs r Hs Hp Hna; cbn [search] in Hs.
  - inversion Hs; subst. replace (row + Z.of_nat 0) with row by lia. auto.
  - apply first_column_sound in Hs as (c & Hc & Hsafe & Hs).
    unfold range in Hc. apply elem_of_seqZ in Hc.
    apply IH in Hs.
    + replace (row + Z.of_nat (S k)) with (row + 1 + Z.of_nat k) by lia. exact Hs.
    + constructor; [assumption | lia].
    + simpl. auto.
Qed.

Lemma attacks_queens_attack p q : attacks p q -> queens_attack p q.
Proof. unfold attacks, queens_attack. tauto. Qed.

Lemma queens_attack_sym p q : queens_attack p q -> queens_attack q p.
Proof. unfold queens_attack. lia. Qed.

Lemma queens_attack_attacks p q : queens_attack p q -> p.1 <> q.1 -> attacks p q.
Proof. unfold attacks, queens_attack. tauto. Qed.

Lemma placed_pairwise N row qs :
  placed N row qs -> nonattacking qs ->
  forall p q, p ∈ qs -> q ∈ qs -> p <> q -> ~ queens_attack p q.
Proof.
  induction 1 as [|row c qs Hp IH Hc]; intros Hna p q Hpin Hqin Hne Hatt.
  - apply elem_of_nil in Hpin. contradiction.
  - destruct Hna as [Hsafe Hna]. simpl in Hsafe. unfold Safe in Hsafe.
    rewrite Forall_forall in Hsafe.
    apply elem_of_cons in Hpin as [->|Hpin];
      apply elem_of_cons in Hqin as [->|Hqin].
    + congruence.
    + apply (Hsafe q Hqin). apply queens_attack_attacks.
      * apply queens_attack_sym. assumption.
      * destruct q as [i j]. apply (placed_elem _ _ _ _ _ Hp) in Hqin.
        simpl. lia.
    + apply (Hsafe p Hpin). apply queens_attack_attacks; [assumption|].
      destruct p as [i j]. apply (placed_elem _ _ _ _ _ Hp) in Hpin.
      simpl. lia.
    + exact (IH Hna p q Hpin Hqin Hne Hatt).
Qed.

Lemma placed_NoDup N row qs : placed N row qs -> NoDup qs.
Proof.
  induction 1 as [|row c qs Hp IH Hc]; [constructor|].
  apply NoDup_cons. split; [eapply placed_fresh; eauto | assumption].
Qed.

(** A full board of mutually safe queens is a solution. *)
Lemma placed_solution N qs :
  placed N N qs -> nonattacking qs -> is_solution N qs.
Proof.
  intros Hp Hna. split; [eapply placed_length; eauto|].
  split; [eapply placed_NoDup; eauto|]. split.
  - intros [i j] Hin. apply (placed_elem _ _ _ _ _ Hp) in Hin. simpl. lia.
  - eapply placed_pairwise; eauto.
Qed.

(** In a solution every row holds a queen. *)
Lemma solution_row_occupied N sol r :
  is_solution N sol -> 0 <= r < N -> exists c, (r, c) ∈ sol.
Proof.
  intros (Hlen & Hnd & Hrange & Hpair) Hr.
  assert (Hrows : NoDup (sol.*1)).
  { apply NoDup_fmap_2_strong; [|assumption]. intros p q Hp Hq Heq.
    destruct (decide (p = q)) as [|Hne]; [assumption|].
    exfalso. apply (Hpair p q Hp Hq Hne). left. assumption. }
  assert (Hperm : sol.*1 ≡ₚ seqZ 0 N).
  { apply submseteq_length_Permutation.
    - apply NoDup_submseteq; [assumption|]. intros x Hx.
      apply list_elem_of_fmap in Hx as (p & -> & Hp).
      apply elem_of_seqZ. apply Hrange in Hp. lia.
    - rewrite length_seqZ, length_fmap. lia. }
  assert (Hin : r ∈ sol.*1).
  { rewrite Hperm. apply elem_of_seqZ. lia. }
  apply list_elem_of_fmap in Hin as ([r' c] & -> & Hp). exists c. exact Hp.
Qed.

Lemma search_complete (N : Z) sol :
  is_solution N sol ->
  forall (k : nat) row qs, row + Z.of_nat k = N -> placed N row qs ->
  (forall q, q ∈ qs -> q ∈ sol) -> is_Some (search N k row qs).
Proof.
  intros Hsol. induction k as [|k IH]; intros row qs Hrow Hp Hsub;
    cbn [search]; [eauto|].
  pose proof (placed_nonneg _ _ _ Hp) as Hrow0.
  destruct (solution_row_occupied N sol row Hsol) as [c Hc]; [lia|].
  destruct Hsol as (Hlen & Hnd & Hrange & Hpair).
  pose proof (Hrange _ Hc) as Hcr. simpl in Hcr.
  apply (first_column_complete _ _ _ _ c).
  - unfold range. apply elem_of_seqZ. lia.
  - unfold Safe. apply Forall_forall. intros [i j] Hq Hatt.
    pose proof (placed_elem _ _ _ _ _ Hp Hq) as Hij.
    apply (Hpair (i, j) (row, c)); auto.
    + intros Heq. inversion Heq. lia.
    + apply attacks_queens_attack. assumption.
  - apply IH; [lia | constructor; [assumption | lia] |].
    intros q Hq. apply elem_of_cons in Hq as [->|Hq]; auto.
Qed.

(** ** Explicit solutions for every size but 2 and 3 *)

Lemma staircase_ok m :
  2 <= m -> m mod 3 <> 1 ->
  compatible (staircase m) (2 * m) /\
  (forall i, 0 <= i < 2 * m -> staircase m i <> i).
Proof.
  intros Hm Hmod.
  pose proof (Z.div_mod m 3 ltac:(lia)) as Hdm.
  pose proof (Z.mod_pos_bound m 3 ltac:(lia)) as Hb.
  unfold compatible, staircase. split; [split|].
  - intros i Hi. split_ltb; lia.
  - intros i j Hi Hj. split_ltb; lia.
  - intros i Hi. split_ltb; lia.
Qed.

Lemma shifted_ok m :
  2 <= m -> m mod 3 <> 0 ->
  compatible (shifted m) (2 * m) /\
  (forall i, 0 <= i < 2 * m -> shifted m i <> i).
Proof.
  intros Hm Hmod.
  pose proof (Z.div_mod m 3 ltac:(lia)) as Hdm.
  pose proof (Z.mod_pos_bound m 3 ltac:(lia)) as Hb.
  unfold compatible, shifted, wrap. split; [split|].
  - intros i Hi. split_ltb; lia.
  - intros i j Hi Hj. split_ltb; lia.
  - intros i Hi. split_ltb; lia.
Qed.

Lemma with_corner_ok q N' :
  0 <= N' -> compatible q N' -> (forall i, 0 <= i < N' -> q i <> i) ->
  compatible (with_corner q N') (N' + 1).
Proof.
  intros HN [Hrange Hpair] Hdiag. unfold compatible, with_corner. split.
  - intros i Hi. destruct (Z.ltb_spec i N'); [|lia].
    specialize (Hrange i). lia.
  - intros i j Hi Hj.
    destruct (Z.ltb_spec i N'); [|lia].
    destruct (Z.ltb_spec j N').
    + apply Hpair; lia.
    + specialize (Hrange i). specialize (Hdiag i). lia.
Qed.

Lemma even_compatible m : 2 <= m ->
  exists q, compatible q (2 * m) /\ (forall i, 0 <= i < 2 * m -> q i <> i).
Proof.
  intros Hm. destruct (decide (m mod 3 = 1)) as [H1|H1].
  - exists (shifted m). apply shifted_ok; lia.
  - exists (staircase m). apply staircase_ok; lia.
Qed.

Lemma compatible_exists N : N = 1 \/ 4 <= N -> exists q, compatible q N.
Proof.
  intros [->|HN].
  - exists (fun _ => 0). split; intros; lia.
  - pose proof (Z.div_mod N 2 ltac:(lia)) as Hdm.
    pose proof (Z.mod_pos_bound N 2 ltac:(lia)) as Hb.
    destruct (even_compatible (N / 2)) as (q & Hq & Hdiag); [lia|].
    destruct (decide (N mod 2 = 0)) as [Heven|Hodd].
    + exists q. assert (HeqN : 2 * (N / 2) = N) by lia.
      rewrite HeqN in Hq. exact Hq.
    + exists (with_corner q (2 * (N / 2))).
      assert (HeqN : 2 * (N / 2) + 1 = N) by lia.
      pose proof (with_corner_ok q (2 * (N / 2)) ltac:(lia) Hq Hdiag) as Hc.
      rewrite HeqN in Hc. exact Hc.
Qed.

Lemma compatible_solution q N :
  0 <= N -> compatible q N ->
  is_solution N ((fun i => (i, q i)) <$> range N).
Proof.
  intros HN [Hrange Hpair]. unfold range. split; [|split; [|split]].
  - rewrite length_fmap, length_seqZ. lia.
  - apply NoDup_fmap_2_strong; [|apply NoDup_seqZ].
    intros i j _ _ Heq. congruence.
  - intros p Hp. apply list_elem_of_fmap in Hp as (i & -> & Hi).
    apply elem_of_seqZ in Hi. simpl. specialize (Hrange i). lia.
  - intros p p' Hp Hp' Hne.
    apply list_elem_of_fmap in Hp as (i & -> & Hi).
    apply list_elem_of_fmap in Hp' as (j & -> & Hj).
    apply elem_of_seqZ in Hi. apply elem_of_seqZ in Hj.
    unfold queens_attack. simpl.
    assert (i <> j) by congruence.
    destruct (Z.lt_ge_cases i j).
    + specialize (Hpair i j). lia.
    + specialize (Hpair j i). lia.
Qed.

(** The N-Queens problem has a solution for [N = 1] and for every [N >= 4]. *)
Lemma solution_exists N : N = 1 \/ 4 <= N -> exists sol, is_solution N sol.
Proof.
  intros HN. destruct (compatible_exists N HN) as [q Hq].
  eexists. apply (compatible_solution q); [lia | exact Hq].
Qed.

(** ** Reading a solution off the board *)

Lemma collect_row_spec N qs r columns acc :
  0 <= r < N -> Forall (fun c => 0 <= c < N) columns ->
  collect_row (board_of N qs) r columns acc
  = Ok (acc ++ ((fun c => (r, c)) <$> filter (fun c => (r, c) ∈ qs) columns)).
Proof.
  intros Hr Hcols. revert acc.
  induction Hcols as [|c columns Hc Hcols IH]; intros acc; cbn [collect_row].
  - rewrite filter_nil. simpl. rewrite app_nil_r. reflexivity.
  - rewrite cell_board_of by lia. rewrite bind_Ok.
    destruct (decide ((r, c) ∈ qs)) as [Hin|Hnin].
    + rewrite has_queen_in by assumption. cbn [Z.eqb Pos.eqb].
      rewrite IH. rewrite filter_cons_True by assumption.
      rewrite fmap_cons, <- app_assoc. reflexivity.
    + rewrite has_queen_notin by assumption. cbn [Z.eqb].
      rewrite IH. rewrite filter_cons_False by assumption. reflexivity.
Qed.

Lemma collect_rows_spec N qs rows acc :
  Forall (fun r => 0 <= r < N) rows ->
  collect_rows (board_of N qs) N rows acc = Ok (acc ++ row_major N qs rows).
Proof.
  intros Hrows. revert acc.
  induction Hrows as [|r rows Hr Hrows IH]; intros acc; cbn [collect_rows].
  - unfold row_major. simpl. rewrite app_nil_r. reflexivity.
  - rewrite collect_row_spec by auto using range_bounds. rewrite bind_Ok.
    rewrite IH. unfold row_major. rewrite bind_cons, app_assoc. reflexivity.
Qed.

Lemma filter_ext_in {A} (P Q : A -> Prop) `{!forall x, Decision (P x)}
    `{!forall x, Decision (Q x)} (l : list A) :
  (forall x, x ∈ l -> (P x <-> Q x)) -> filter P l = filter Q l.
Proof.
  induction l as [|x l IH]; intros Hext; [reflexivity|].
  rewrite !filter_cons.
  rewrite IH by (intros y Hy; apply Hext; right; assumption).
  assert (Hx : P x <-> Q x) by (apply Hext; left).
  destruct (decide (P x)); destruct (decide (Q x)); tauto.
Qed.

Lemma filter_eq_range (N c : Z) :
  0 <= c < N -> filter (fun x => x = c) (range N) = [c].
Proof.
  intros Hc. unfold range.
  replace N with (c + (1 + (N - c - 1))) by lia.
  rewrite seqZ_app by lia. rewrite (seqZ_app _ 1) by lia.
  rewrite !filter_app.
  rewrite (filter_ext_in _ (fun _ => False) (seqZ 0 c)).
  2:{ intros x Hx. apply elem_of_seqZ in Hx. lia. }
  rewrite (filter_ext_in _ (fun _ => False) (seqZ _ (N - c - 1))).
  2:{ intros x Hx. apply elem_of_seqZ in Hx. lia. }
  assert (Hnone : forall l : list Z, filter (fun _ => False) l = []).
  { induction l as [|x l IH]; [reflexivity|].
    rewrite filter_cons_False by tauto. exact IH. }
  rewrite !Hnone. simpl. change (seqZ (0 + c) 1) with [0 + c].
  rewrite filter_cons_True by lia. rewrite filter_nil. f_equal.
Qed.

(** With one queen on each of the rows [0 .. row-1], the row-major scan
    lists them from row [0] upwards. *)
Lemma row_major_placed N row qs :
  placed N row qs -> row <= N -> row_major N qs (range row) = reverse qs.
Proof.
  induction 1 as [|row c qs Hp IH Hc]; intros HrowN; [reflexivity|].
  pose proof (placed_nonneg _ _ _ Hp) as Hrow0.
  unfold range. rewrite seqZ_app by lia. change (seqZ (0 + row) 1) with [0 + row].
  unfold row_major. rewrite bind_app, bind_singleton, reverse_cons.
  replace (0 + row) with row by lia. f_equal.
  - rewrite <- IH by lia. unfold row_major, range.
    apply Forall_bind_ext. apply Forall_forall. intros r Hr.
    apply elem_of_seqZ in Hr. f_equal.
    apply filter_ext_in. intros x _. apply elem_of_cons_other. lia.
  - rewrite (filter_ext_in _ (fun x => x = c)).
    + rewrite filter_eq_range by lia. reflexivity.
    + intros x _. rewrite elem_of_cons. split.
      * intros [Heq|Hin]; [congruence|].
        exfalso. eapply placed_fresh; eauto.
      * intros ->. left. reflexivity.
Qed.

Lemma collect_board_placed N qs self :
  n self = N -> board self = board_of N qs -> placed N N qs ->
  collect_board self = Ok (reverse qs).
Proof.
  intros Hn Hb Hp. unfold collect_board. rewrite Hb, Hn.
  rewrite collect_rows_spec by apply range_bounds.
  rewrite row_major_placed by (auto; lia). reflexivity.
Qed.

(** ** [validate_solution] *)

Lemma fresh_family_nil f acc : fresh_family f [] acc.
Proof.
  split; [constructor|]. intros p Hp. apply elem_of_nil in Hp. contradiction.
Qed.

Lemma fresh_family_cons f p sol acc :
  fresh_family f (p :: sol) acc <->
  (f p ∉ acc) /\ fresh_family f sol ({[ f p ]} ∪ acc).
Proof.
  unfold fresh_family. rewrite fmap_cons, NoDup_cons. split.
  - intros [[Hnin Hnd] Hacc]. split; [apply Hacc; left|].
    split; [assumption|]. intros q Hq Hin.
    apply elem_of_union in Hin as [Hin|Hin].
    + apply elem_of_singleton in Hin. apply Hnin. rewrite <- Hin.
      apply list_elem_of_fmap_2. assumption.
    + apply (Hacc q); [right|]; assumption.
  - intros [Hp [Hnd Hacc]]. split; [split; [|assumption]|].
    + intros Hin. apply list_elem_of_fmap in Hin as (q & Heq & Hq).
      apply (Hacc q Hq). apply elem_of_union. left.
      apply elem_of_singleton. congruence.
    + intros q Hq. apply elem_of_cons in Hq as [->|Hq]; [assumption|].
      intros Hin. apply (Hacc q Hq). apply elem_of_union. right. assumption.
Qed.

Lemma validate_loop_spec sol :
  forall rows cols diag1 diag2,
  validate_loop sol rows cols diag1 diag2 = true <->
  fresh_family fst sol rows /\ fresh_family snd sol cols /\
  fresh_family diag1_of sol diag1 /\ fresh_family diag2_of sol diag2.
Proof.
  induction sol as [|[row col] sol IH]; intros rows cols diag1 diag2;
    cbn [validate_loop].
  - split; [|reflexivity]. intros _. auto using fresh_family_nil.
  - rewrite !fresh_family_cons. unfold diag1_of, diag2_of. cbn [fst snd].
    repeat case_bool_decide; cbn [orb]; try (split; [discriminate | tauto]).
    rewrite IH. unfold diag1_of, diag2_of. tauto.
Qed.

(** [validate_solution] accepts exactly the candidates of length [n] whose
    rows, columns and two diagonal identifiers are each pairwise distinct. *)
Lemma validate_solution_spec self sol :
  validate_solution self sol = true <->
  Z.of_nat (length sol) = n self /\
  NoDup (fst <$> sol) /\ NoDup (snd <$> sol) /\
  NoDup (diag1_of <$> sol) /\ NoDup (diag2_of <$> sol).
Proof.
  unfold validate_solution.
  destruct (Z.eqb_spec (Z.of_nat (length sol)) (n self)) as [Hlen|Hlen]; cbn [negb].
  - rewrite validate_loop_spec. unfold fresh_family.
    split; [tauto|]. intros (_ & ? & ? & ? & ?).
    repeat split; auto; intros p _; apply not_elem_of_empty.
  - split; [discriminate | tauto].
Qed.

Lemma solution_validates self sol :
  is_solution (n self) sol -> validate_solution self sol = true.
Proof.
  intros (Hlen & Hnd & Hrange & Hpair). apply validate_solution_spec.
  split; [assumption|].
  assert (Hinj : forall f : Z * Z -> Z,
            (forall p q, f p = f q -> queens_attack p q) -> NoDup (f <$> sol)).
  { intros f Hf. apply NoDup_fmap_2_strong; [|assumption].
    intros p q Hp Hq Heq. destruct (decide (p = q)) as [|Hne]; [assumption|].
    exfalso. apply (Hpair p q Hp Hq Hne). apply Hf. assumption. }
  unfold queens_attack, diag1_of, diag2_of in *.
  repeat split; apply Hinj; intros p q; simpl; tauto.
Qed.

Lemma is_solution_reverse N sol : is_solution N sol -> is_solution N (reverse sol).
Proof.
  intros (Hlen & Hnd & Hrange & Hpair). split; [|split; [|split]].
  - rewrite length_reverse. assumption.
  - rewrite reverse_Permutation. assumption.
  - intros p Hp. rewrite reverse_Permutation in Hp. auto.
  - intros p q Hp Hq. rewrite reverse_Permutation in Hp, Hq. auto.
Qed.

Lemma solution_size_one sol : is_solution 1 sol -> sol = [(0, 0)].
Proof.
  intros (Hlen & _ & Hrange & _).
  destruct sol as [|[r c] [|? ?]]; simpl in Hlen; try lia.
  specialize (Hrange (r, c) ltac:(left)). simpl in Hrange.
  f_equal. f_equal; lia.
Qed.

Lemma search_unsolvable_2 : search 2 2 0 [] = None.
Proof. vm_compute. reflexivity. Qed.

Lemma search_unsolvable_3 : search 3 3 0 [] = None.
Proof. vm_compute. reflexivity. Qed.

(** ** Exhaustive search with its safety queries recorded *)

Lemma erase_solve_all_loop rec rec' row columns :
  (forall st log, erase (rec' (st, log)) = rec st) ->
  forall st log,
  erase (solve_all_loop_traced rec' row columns st log)
  = solve_all_loop rec row columns st.
Proof.
  intros Hrec. induction columns as [|col columns IH]; intros st log;
    cbn [solve_all_loop_traced solve_all_loop]; [reflexivity|].
  destruct (is_safe_optimized row col (cols st) (diag1 st) (diag2 st)); [|apply IH].
  destruct (board_set (board (solver st)) row col 1) as [b1| |]; try reflexivity.
  rewrite !bind_Ok. rewrite <- (Hrec _ (log ++ [mkQuery st row col])).
  destruct (rec' _) as [[st2 log2]| |]; try reflexivity.
  unfold erase at 2. rewrite !bind_Ok.
  destruct (board_set (board (solver st2)) row col 0) as [b3| |]; try reflexivity.
  destruct (set_remove col (cols st2)) as [c3| |]; try reflexivity.
  destruct (set_remove (row - col) (diag1 st2)) as [d13| |]; try reflexivity.
  destruct (set_remove (row + col) (diag2 st2)) as [d23| |]; try reflexivity.
  rewrite !bind_Ok. apply IH.
Qed.

(** The traced search is the search: erasing the log gives
    [solve_all_backtrack]. *)
Lemma erase_solve_all_backtrack fuel :
  forall self row cols0 diag10 diag20 log,
  erase (solve_all_backtrack_traced fuel self row cols0 diag10 diag20 log)
  = solve_all_backtrack fuel self row cols0 diag10 diag20.
Proof.
  induction fuel as [|fuel IH]; intros self row cols0 diag10 diag20 log;
    cbn [solve_all_backtrack_traced solve_all_backtrack]; [reflexivity|].
  destruct (row =? n self).
  - destruct (collect_board self); reflexivity.
  - apply erase_solve_all_loop. intros st log'. apply IH.
Qed.

(** ** The conflict sets of a list of queens *)

Lemma Safe_sets qs row col :
  Safe qs row col <->
  (col ∉ snd <$> qs) /\ (row - col ∉ diag1_of <$> qs) /\
  (row + col ∉ diag2_of <$> qs).
Proof.
  unfold Safe, attacks, diag1_of, diag2_of. rewrite Forall_forall.
  rewrite !list_elem_of_fmap. cbn [fst snd]. split.
  - intros H. repeat split; intros (q & Heq & Hq); apply (H q Hq); auto.
  - intros (Hc & Hd1 & Hd2) q Hq [Ha|[Ha|Ha]].
    + apply Hc. exists q. auto.
    + apply Hd1. exists q. auto.
    + apply Hd2. exists q. auto.
Qed.

Lemma is_safe_optimized_spec qs st row col :
  sets_of qs st ->
  is_safe_optimized row col (cols st) (diag1 st) (diag2 st)
  = bool_decide (Safe qs row col).
Proof.
  intros (-> & -> & ->). unfold is_safe_optimized.
  pose proof (Safe_sets qs row col) as HS.
  rewrite <- !(elem_of_list_to_set (C := gset Z)) in HS.
  repeat case_bool_decide; cbn [andb]; tauto.
Qed.

Lemma set_remove_added (x : Z) (s : gset Z) :
  x ∉ s -> set_remove x ({[ x ]} ∪ s) = Ok s.
Proof.
  intros Hx. unfold set_remove. rewrite decide_True.
  - f_equal. apply set_eq. intros y.
    rewrite elem_of_difference, elem_of_union, !elem_of_singleton. split.
    + intros [[Hy|Hy] Hne]; [contradiction | assumption].
    + intros Hy. split; [right; assumption | intros ->; contradiction].
  - apply elem_of_union. left. apply elem_of_singleton. reflexivity.
Qed.

Lemma sets_of_cons qs st row col :
  sets_of qs st ->
  sets_of ((row, col) :: qs)
    (mkAll (solver st) ({[ col ]} ∪ cols st) ({[ row - col ]} ∪ diag1 st)
           ({[ row + col ]} ∪ diag2 st)).
Proof. intros (-> & -> & ->). repeat split. Qed.

Lemma list_to_set_fmap_reverse (f : Z * Z -> Z) (qs : list (Z * Z)) :
  list_to_set (C := gset Z) (f <$> reverse qs) = list_to_set (f <$> qs).
Proof.
  apply set_eq. intros x. rewrite !elem_of_list_to_set, !list_elem_of_fmap.
  split; intros (q & ? & Hq); exists q; split; auto;
    [rewrite reverse_Permutation in Hq | rewrite reverse_Permutation]; assumption.
Qed.

Lemma nonattacking_NoDup qs :
  nonattacking qs ->
  NoDup (snd <$> qs) /\ NoDup (diag1_of <$> qs) /\ NoDup (diag2_of <$> qs).
Proof.
  induction qs as [|[row col] qs IH]; intros Hna.
  - repeat split; constructor.
  - destruct Hna as [Hsafe Hna]. specialize (IH Hna) as (? & ? & ?).
    cbn [fst snd] in Hsafe. apply Safe_sets in Hsafe as (? & ? & ?).
    rewrite !fmap_cons. repeat split; apply NoDup_cons; auto.
Qed.

Lemma bind_all_nil {A B} (f : A -> list B) (l : list A) :
  (forall x, x ∈ l -> f x = []) -> l ≫= f = [].
Proof.
  induction l as [|x l IH]; intros H; [reflexivity|].
  rewrite bind_cons, H by left. rewrite IH; [reflexivity|].
  intros y Hy. apply H. right. assumption.
Qed.

(** Scanning the whole board finds the placed queens and nothing on the
    rows still empty. *)
Lemma row_major_partial N row qs :
  placed N row qs -> row <= N -> row_major N qs (range N) = reverse qs.
Proof.
  intros Hp HrowN. pose proof (placed_nonneg _ _ _ Hp) as Hrow0.
  unfold range. replace N with (row + (N - row)) at 2 by lia.
  rewrite seqZ_app by lia. unfold row_major at 1. rewrite bind_app.
  fold (row_major N qs (seqZ 0 row)). fold (range row).
  rewrite row_major_placed by assumption.
  rewrite bind_all_nil; [apply app_nil_r|].
  intros r Hr. apply elem_of_seqZ in Hr.
  rewrite (filter_ext_in _ (fun _ => False)).
  - induction (range N) as [|x l IH]; [reflexivity|].
    rewrite filter_cons_False by tauto. exact IH.
  - intros c _. split; [|tauto]. intros Hin.
    apply (placed_elem _ _ _ _ _ Hp) in Hin. lia.
Qed.

Lemma collect_board_partial N row qs self :
  n self = N -> board self = board_of N qs -> placed N row qs -> row <= N ->
  collect_board self = Ok (reverse qs).
Proof.
  intros Hn Hb Hp HrowN. unfold collect_board. rewrite Hb, Hn.
  rewrite collect_rows_spec by apply range_bounds.
  rewrite (row_major_partial N row) by assumption. reflexivity.
Qed.

Lemma mirrors_placed N row qs st :
  n (solver st) = N -> board (solver st) = board_of N qs ->
  placed N row qs -> row <= N -> nonattacking qs -> sets_of qs st ->
  mirrors st.
Proof.
  intros Hn Hb Hp HrowN Hna (Hc & Hd1 & Hd2).
  exists (reverse qs). split; [eapply collect_board_partial; eauto|].
  destruct (nonattacking_NoDup qs Hna) as (? & ? & ?).
  rewrite !list_to_set_fmap_reverse, !fmap_reverse.
  repeat split; auto; rewrite reverse_Permutation; assumption.
Qed.

(** ** [solve_all_backtrack] computes [enumerate] *)

Lemma solve_all_loop_refines (N row : Z) qs rec arec :
  placed N row qs -> nonattacking qs -> row < N ->
  (forall c st log, 0 <= c < N -> Safe qs row c ->
     n (solver st) = N -> board (solver st) = board_of N ((row, c) :: qs) ->
     sets_of ((row, c) :: qs) st ->
     all_post st log (arec ((row, c) :: qs)) (rec (st, log))) ->
  forall columns st log,
  Forall (fun c => 0 <= c < N) columns ->
  n (solver st) = N -> board (solver st) = board_of N qs -> sets_of qs st ->
  all_post st log (all_columns arec qs row columns)
    (solve_all_loop_traced rec row columns st log).
Proof.
  intros Hp Hna Hrow Hrec columns.
  pose proof (placed_nonneg _ _ _ Hp) as Hrow0.
  induction columns as [|c columns IH]; intros st log Hcols Hn Hb Hsets.
  - cbn [solve_all_loop_traced all_columns]. exists st, [].
    rewrite app_nil_r. simpl. rewrite app_nil_r.
    repeat split; auto; try lia.
  - inversion Hcols as [|? ? Hc Hcols']; subst.
    cbn [solve_all_loop_traced all_columns].
    assert (Hq : query_ok (mkQuery st row c)).
    { split; cbn [q_state q_row q_col].
      - eapply mirrors_placed; eauto. lia.
      - rewrite (is_safe_spec (n (solver st)) qs) by (auto; lia).
        rewrite (is_safe_optimized_spec qs) by assumption. reflexivity. }
    pose proof (is_safe_optimized_spec qs st row c Hsets) as Hopt.
    rewrite Hopt. case_bool_decide as Hsafe.
    + rewrite Hb, board_set_place by lia. rewrite bind_Ok.
      specialize (Hrec c (mkAll (set_board (solver st)
                                   (board_of (n (solver st)) ((row, c) :: qs)))
                                ({[ c ]} ∪ cols st) ({[ row - c ]} ∪ diag1 st)
                                ({[ row + c ]} ∪ diag2 st))
                    (log ++ [mkQuery st row c]) Hc Hsafe eq_refl eq_refl).
      destruct Hrec as (st2 & new2 & -> & Hnew2 & Hc2 & Hd12 & Hd22 & Hn2 & Hb2
                        & Hsols2 & Hcount2 & Hbc2).
      { destruct Hsets as (-> & -> & ->). repeat split. }
      cbn [cols diag1 diag2 solver set_board n board solutions solution_count
           backtrack_count] in *.
      rewrite bind_Ok. cbn iota beta.
      rewrite Hb2, board_set_unplace by (try lia; eapply placed_fresh; eauto).
      rewrite bind_Ok.
      unfold is_safe_optimized in Hopt.
      rewrite ?bool_decide_eq_true_2 in Hopt by assumption.
      apply andb_prop in Hopt as [Hopt Ho3]. apply andb_prop in Hopt as [Ho1 Ho2].
      apply bool_decide_eq_true in Ho1, Ho2, Ho3.
      rewrite Hc2, Hd12, Hd22.
      rewrite !set_remove_added by assumption. rewrite !bind_Ok.
      specialize (IH (mkAll (incr_backtrack_count
                               (set_board (solver st2) (board_of (n (solver st)) qs)))
                            (cols st) (diag1 st) (diag2 st))
                    ((log ++ [mkQuery st row c]) ++ new2) Hcols').
      destruct IH as (st3 & new3 & -> & Hnew3 & Hc3 & Hd13 & Hd23 & Hn3 & Hb3
                      & Hsols3 & Hcount3 & Hbc3); cbn; auto.
      cbn [cols diag1 diag2 solver set_board incr_backtrack_count n board
           solutions solution_count backtrack_count] in *.
      exists st3, ([mkQuery st row c] ++ new2 ++ new3).
      split; [rewrite !app_assoc; reflexivity|].
      split; [repeat (apply Forall_app; split); auto|].
      repeat split; auto; try congruence.
      * rewrite Hsols3, Hsols2, fmap_app, app_assoc. reflexivity.
      * rewrite Hcount3, Hcount2, length_app. lia.
      * lia.
    + specialize (IH st (log ++ [mkQuery st row c]) Hcols' eq_refl Hb Hsets).
      destruct IH as (st3 & new3 & -> & Hnew3 & Hrest).
      exists st3, ([mkQuery st row c] ++ new3).
      split; [rewrite !app_assoc; reflexivity|].
      split; [apply Forall_app; split; auto|].
      cbn [app]. exact Hrest.
Qed.

Lemma solve_all_refines (N : Z) (k : nat) :
  forall fuel row qs self cs d1s d2s log,
  (k < fuel)%nat -> row + Z.of_nat k = N ->
  placed N row qs -> nonattacking qs ->
  n self = N -> board self = board_of N qs ->
  sets_of qs (mkAll self cs d1s d2s) ->
  all_post (mkAll self cs d1s d2s) log (enumerate N k row qs)
    (solve_all_backtrack_traced fuel self row (Some cs) (Some d1s) (Some d2s) log).
Proof.
  induction k as [|k IH];
    intros fuel row qs self cs d1s d2s log Hfuel Hrow Hp Hna Hn Hb Hsets;
    (destruct fuel as [|fuel]; [lia|]);
    cbn [solve_all_backtrack_traced enumerate default cols diag1 diag2].
  - replace (row =? n self) with true by (symmetry; apply Z.eqb_eq; lia).
    assert (row = N) as -> by lia.
    rewrite (collect_board_placed N qs) by assumption. rewrite bind_Ok.
    eexists _, []. rewrite app_nil_r. split; [reflexivity|].
    split; [constructor|]. cbn. repeat split; lia.
  - replace (row =? n self) with false by (symmetry; apply Z.eqb_neq; lia).
    rewrite Hn.
    apply (solve_all_loop_refines N row qs); auto using range_bounds; try lia.
    intros c [s cs' d1s' d2s'] log' Hc Hsafe Hns Hbs Hss.
    cbn [solver cols diag1 diag2] in *.
    apply IH; auto; try lia.
    + constructor; assumption.
    + split; assumption.
Qed.

(** A top-level call [solve_all_backtrack()] on a fresh board. *)
Lemma solve_all_top (N : Z) self fuel log :
  0 <= N -> (Z.to_nat N < fuel)%nat ->
  n self = N -> board self = board_of N [] ->
  all_post (mkAll self ∅ ∅ ∅) log (enumerate N (Z.to_nat N) 0 [])
    (solve_all_backtrack_traced fuel self 0 None None None log).
Proof.
  intros HN Hfuel Hn Hb.
  replace (solve_all_backtrack_traced fuel self 0 None None None log)
    with (solve_all_backtrack_traced fuel self 0 (Some ∅) (Some ∅) (Some ∅) log)
    by (destruct fuel; reflexivity).
  apply (solve_all_refines N); auto; try lia.
  - constructor.
  - exact I.
  - repeat split.
Qed.

(** ** Properties of the enumeration *)

Lemma elem_of_all_columns rec qs row columns r :
  r ∈ all_columns rec qs row columns <->
  exists c, c ∈ columns /\ Safe qs row c /\ r ∈ rec ((row, c) :: qs).
Proof.
  induction columns as [|c columns IH]; cbn [all_columns].
  - split; [intros H; apply elem_of_nil in H; contradiction|].
    intros (c & Hc & _). apply elem_of_nil in Hc. contradiction.
  - rewrite elem_of_app, IH. split.
    + intros [H|(c' & Hc' & H)].
      * case_bool_decide; [|apply elem_of_nil in H; contradiction].
        exists c. split; [left|]; auto.
      * exists c'. split; [right|]; auto.
    + intros (c' & Hc' & Hsafe & H). apply elem_of_cons in Hc' as [->|Hc'].
      * left. rewrite bool_decide_eq_true_2 by assumption. assumption.
      * right. exists c'. auto.
Qed.

Lemma enumerate_sound (N : Z) (k : nat) :
  forall row qs r, r ∈ enumerate N k row qs ->
  placed N row qs -> nonattacking qs ->
  placed N (row + Z.of_nat k) r /\ nonattacking r /\ (forall q, q ∈ qs -> q ∈ r).
Proof.
  induction k as [|k IH]; intros row qs r Hr Hp Hna; cbn [enumerate] in Hr.
  - apply list_elem_of_singleton in Hr as ->.
    replace (row + Z.of_nat 0) with row by lia. auto.
  - apply elem_of_all_columns in Hr as (c & Hc & Hsafe & Hr).
    unfold range in Hc. apply elem_of_seqZ in Hc.
    apply IH in Hr as (Hp' & Hna' & Hsub).
    + replace (row + Z.of_nat (S k)) with (row + 1 + Z.of_nat k) by lia.
      repeat split; auto. intros q Hq. apply Hsub. right. assumption.
    + constructor; [assumption | lia].
    + simpl. auto.
Qed.

Lemma placed_row_unique N row qs i c c' :
  placed N row qs -> (i, c) ∈ qs -> (i, c') ∈ qs -> c = c'.
Proof.
  induction 1 as [|row d qs Hp IH Hd]; intros H1 H2.
  - apply elem_of_nil in H1. contradiction.
  - apply elem_of_cons in H1 as [H1|H1]; apply elem_of_cons in H2 as [H2|H2].
    + congruence.
    + inversion H1; subst. exfalso. eapply placed_fresh; eauto.
    + inversion H2; subst. exfalso. eapply placed_fresh; eauto.
    + auto.
Qed.

Lemma all_columns_NoDup rec qs row columns :
  NoDup columns ->
  (forall c, c ∈ columns -> Safe qs row c -> NoDup (rec ((row, c) :: qs))) ->
  (forall c c' r, c ∈ columns -> c' ∈ columns -> c <> c' ->
     r ∈ rec ((row, c) :: qs) -> r ∉ rec ((row, c') :: qs)) ->
  NoDup (all_columns rec qs row columns).
Proof.
  induction 1 as [|c columns Hc Hnd IH]; intros Hrec Hdisj; cbn [all_columns].
  - constructor.
  - apply NoDup_app. split; [|split].
    + case_bool_decide; [|constructor]. apply Hrec; [left | assumption].
    + intros r Hr Hr'. case_bool_decide; [|apply elem_of_nil in Hr; contradiction].
      apply elem_of_all_columns in Hr' as (c' & Hc' & _ & Hr').
      apply (Hdisj c c' r); auto.
      * left.
      * right. assumption.
      * intros ->. contradiction.
    + apply IH.
      * intros c' Hc'. apply Hrec. right. assumption.
      * intros c1 c2 r H1 H2. apply Hdisj; right; assumption.
Qed.

Lemma enumerate_placed (N : Z) (k : nat) :
  forall row qs r, r ∈ enumerate N k row qs -> placed N row qs ->
  placed N (row + Z.of_nat k) r /\ (forall q, q ∈ qs -> q ∈ r).
Proof.
  induction k as [|k IH]; intros row qs r Hr Hp; cbn [enumerate] in Hr.
  - apply list_elem_of_singleton in Hr as ->.
    replace (row + Z.of_nat 0) with row by lia. auto.
  - apply elem_of_all_columns in Hr as (c & Hc & _ & Hr).
    unfold range in Hc. apply elem_of_seqZ in Hc.
    apply IH in Hr as (Hp' & Hsub).
    + replace (row + Z.of_nat (S k)) with (row + 1 + Z.of_nat k) by lia.
      split; auto. intros q Hq. apply Hsub. right. assumption.
    + constructor; [assumption | lia].
Qed.

(** The enumeration never lists a placement twice. *)
Lemma enumerate_NoDup (N : Z) (k : nat) :
  forall row qs, placed N row qs -> NoDup (enumerate N k row qs).
Proof.
  induction k as [|k IH]; intros row qs Hp; cbn [enumerate].
  - apply NoDup_singleton.
  - apply all_columns_NoDup.
    + apply NoDup_seqZ.
    + intros c Hc Hsafe. unfold range in Hc. apply elem_of_seqZ in Hc.
      apply IH. constructor; [assumption | lia].
    + intros c c' r Hc Hc' Hne Hr Hr'.
      unfold range in Hc, Hc'. apply elem_of_seqZ in Hc, Hc'.
      apply enumerate_placed in Hr as (Hpr & Hsub);
        [|constructor; [assumption | lia]].
      apply enumerate_placed in Hr' as (_ & Hsub');
        [|constructor; [assumption | lia]].
      apply Hne. apply (placed_row_unique _ _ _ row c c' Hpr).
      * apply Hsub. left.
      * apply Hsub'. left.
Qed.

(** ** [sorted] and the symmetry analysis *)

#[global] Instance pair_le_trans : Transitive pair_le.
Proof. intros p q r. unfold pair_le. lia. Qed.

#[global] Instance pair_le_total : Total pair_le.
Proof. intros p q. unfold pair_le. lia. Qed.

#[global] Instance pair_le_antisymm : AntiSymm (=) pair_le.
Proof.
  intros [a b] [c d]. unfold pair_le. simpl. intros H1 H2. f_equal; lia.
Qed.

Lemma rows_ascending_pair_le sol :
  rows_ascending sol -> StronglySorted pair_le sol.
Proof.
  unfold rows_ascending. induction 1 as [|p sol Hs IH Hp]; constructor; auto.
  eapply Forall_impl; [exact Hp|]. intros q Hq. left. exact Hq.
Qed.

(** Sorting leaves a solution listed by ascending rows as it is. *)
Lemma sorted_rows_ascending sol : rows_ascending sol -> sorted sol = sol.
Proof.
  intros Hasc. unfold sorted. apply (StronglySorted_unique pair_le).
  - apply StronglySorted_merge_sort; apply _.
  - apply rows_ascending_pair_le. assumption.
  - apply merge_sort_Permutation.
Qed.

Lemma unique_solutions_list_to_set sols :
  unique_solutions sols = list_to_set (sorted <$> sols).
Proof.
  unfold unique_solutions.
  assert (H : forall acc : gset (list (Z * Z)),
             foldl (fun acc solution => {[ sorted solution ]} ∪ acc) acc sols
             = list_to_set (sorted <$> sols) ∪ acc).
  { induction sols as [|sol sols IH]; intros acc; simpl.
    - symmetry. apply (left_id_L ∅ (∪)).
    - rewrite IH. rewrite (assoc_L (∪)).
      f_equal. apply (comm_L (∪)). }
  rewrite H. apply (right_id_L ∅ (∪)).
Qed.

(** On pairwise distinct solutions listed by ascending rows the set built
    by [analyze_symmetry] has as many elements as the list. *)
Lemma unique_solutions_size sols :
  NoDup sols -> Forall rows_ascending sols ->
  size (unique_solutions sols) = length sols.
Proof.
  intros Hnd Hasc. rewrite unique_solutions_list_to_set.
  replace (sorted <$> sols) with sols.
  - apply size_list_to_set. assumption.
  - rewrite <- (list_fmap_id sols) at 1. apply Forall_fmap_ext.
    eapply Forall_impl; [exact Hasc|]. intros sol Hsol.
    symmetry. apply sorted_rows_ascending. assumption.
Qed.

Lemma placed_rows_ascending N row qs :
  placed N row qs -> rows_ascending (reverse qs).
Proof.
  induction 1 as [|row c qs Hp IH Hc]; [constructor|].
  rewrite reverse_cons. unfold rows_ascending.
  apply StronglySorted_app_2; [|exact IH|repeat constructor].
  intros [i j] q Hin Hq. apply list_elem_of_singleton in Hq as ->.
  rewrite reverse_Permutation in Hin.
  apply (placed_elem _ _ _ _ _ Hp) in Hin. simpl. lia.
Qed.

(** ** Top-level exhaustive search *)

Lemma all_placements_spec N qs :
  qs ∈ all_placements N -> placed N N qs /\ nonattacking qs.
Proof.
  unfold all_placements. destruct (Z.ltb_spec N 0) as [HN|HN].
  - intros H. apply elem_of_nil in H. contradiction.
  - intros H. apply enumerate_sound in H as (Hp & Hna & _);
      [|constructor|exact I].
    replace (0 + Z.of_nat (Z.to_nat N)) with N in Hp by lia. auto.
Qed.

Lemma all_placements_NoDup N : NoDup (all_placements N).
Proof.
  unfold all_placements. destruct (N <? 0); [constructor|].
  apply enumerate_NoDup. constructor.
Qed.

Lemma solve_all_correct (N : Z) self fuel log :
  (Z.to_nat N < fuel)%nat ->
  n self = N -> board self = empty_board N ->
  all_post (mkAll self ∅ ∅ ∅) log (all_placements N)
    (solve_all_backtrack_traced fuel self 0 None None None log).
Proof.
  intros Hfuel Hn Hb. unfold all_placements.
  destruct (Z.ltb_spec N 0) as [HN|HN].
  - destruct fuel as [|fuel]; [lia|]. cbn [solve_all_backtrack_traced].
    replace (0 =? n self) with false by (symmetry; apply Z.eqb_neq; lia).
    unfold range. rewrite seqZ_nil by lia. cbn [solve_all_loop_traced default].
    exists (mkAll self ∅ ∅ ∅), []. rewrite !app_nil_r. cbn.
    repeat (split; [first [reflexivity | constructor | lia]|]). lia.
  - apply solve_all_top; [assumption | assumption | assumption |].
    rewrite Hb. apply empty_board_of.
Qed.

(** The untraced search returns the state of the traced one. *)
Lemma erase_Ok {A B} (m : outcome (A * B)) a b : m = Ok (a, b) -> erase m = Ok a.
Proof. intros ->. reflexivity. Qed.

Lemma empty_board_zeros N : Forall (Forall (fun v => v = 0)) (empty_board N).
Proof.
  unfold empty_board. apply Forall_fmap, Forall_forall. intros i _. simpl.
  apply Forall_fmap, Forall_forall. intros j _. reflexivity.
Qed.

(** The solutions a top-level exhaustive search leaves in the solver. *)
Lemma solve_all_solutions (N : Z) fuel :
  (Z.to_nat N < fuel)%nat ->
  exists st,
    solve_all_backtrack fuel (mkSolver N (empty_board N) [] 0 0) 0 None None None
    = Ok st /\
    n (solver st) = N /\
    solutions (solver st) = reverse <$> all_placements N /\
    solution_count (solver st) = Z.of_nat (length (all_placements N)).
Proof.
  intros Hfuel.
  destruct (solve_all_correct N (mkSolver N (empty_board N) [] 0 0) fuel []
              Hfuel eq_refl eq_refl)
    as (st & new & Hrun & _ & _ & _ & _ & Hn & _ & Hsols & Hcount & _).
  exists st. rewrite <- erase_solve_all_backtrack with (log := []).
  rewrite (erase_Ok _ _ _ Hrun). cbn in Hn, Hsols, Hcount. auto.
Qed.

Lemma all_placements_count :
  length (all_placements 4) = 2%nat /\ length (all_placements 5) = 10%nat /\
  length (all_placements 6) = 4%nat /\ length (all_placements 7) = 40%nat /\
  length (all_placements 8) = 92%nat.
Proof. repeat split; vm_compute; reflexivity. Qed.

Lemma all_placements_solutions N qs :
  qs ∈ all_placements N ->
  is_solution N (reverse qs) /\ rows_ascending (reverse qs).
Proof.
  intros Hin. apply all_placements_spec in Hin as [Hp Hna]. split.
  - apply is_solution_reverse, placed_solution; assumption.
  - eapply placed_rows_ascending; eauto.
Qed.

Lemma solutions_NoDup N : NoDup (reverse <$> all_placements N).
Proof. apply (NoDup_fmap_2 reverse), all_placements_NoDup. Qed.

(** The traced run on the 4 x 4 board evaluates the safety test 60 times. *)
Example solve_all_queries_4 :
  (fun out => match out with Ok (_, log) => length log | _ => 0%nat end)
    (solve_all_backtrack_traced 5 (mkSolver 4 (empty_board 4) [] 0 0) 0
       None None None [])
  = 60%nat.
Proof. vm_compute. reflexivity. Qed.

(** ** [solve_iterative] against [solve_backtrack] *)

Lemma range2_nil a b : b <= a -> range2 a b = [].
Proof. intros H. unfold range2. apply seqZ_nil. lia. Qed.

Lemma range2_cons a b : a < b -> range2 a b = a :: range2 (a + 1) b.
Proof.
  intros H. unfold range2. rewrite seqZ_cons by lia.
  f_equal. f_equal; lia.
Qed.

Lemma range2_bounds a b : 0 <= a -> Forall (fun c => 0 <= c < b) (range2 a b).
Proof.
  intros Ha. apply Forall_forall. intros c Hc. unfold range2 in Hc.
  apply elem_of_seqZ in Hc. lia.
Qed.

Lemma range2_0 b : range2 0 b = range b.
Proof. unfold range2, range. f_equal. lia. Qed.

(** [first_column] resumes after the first safe column. *)
Lemma first_column_first_safe rec qs row (N : Z) (m : nat) :
  forall col, col + Z.of_nat m = N ->
  match first_safe qs row (range2 col N) with
  | None => first_column rec qs row (range2 col N) = None
  | Some c =>
      col <= c < N /\
      first_column rec qs row (range2 col N)
      = match rec ((row, c) :: qs) with
        | Some r => Some r
        | None => first_column rec qs row (range2 (c + 1) N)
        end
  end.
Proof.
  induction m as [|m IH]; intros col Hcol.
  - rewrite range2_nil by lia. reflexivity.
  - rewrite range2_cons by lia. cbn [first_safe first_column].
    case_bool_decide as Hsafe.
    + split; [lia | reflexivity].
    + specialize (IH (col + 1) ltac:(lia)).
      destruct (first_safe qs row (range2 (col + 1) N)) as [c|]; [|exact IH].
      destruct IH as [Hc IH]. split; [lia | exact IH].
Qed.

Lemma unwind_positions_spec (N : Z) qs row :
  placed N row qs ->
  forall extra R, placed N R (extra ++ qs) -> R <= N ->
  unwind_positions (extra ++ qs) row (board_of N (extra ++ qs))
  = Ok (qs, board_of N qs).
Proof.
  intros Hp. induction extra as [|[i j] extra IH]; intros R HpR HRN.
  - cbn [app]. pose proof (placed_length _ _ _ Hp) as Hlen.
    pose proof (placed_nonneg _ _ _ Hp) as Hrow.
    destruct qs as [|[i j] qs]; cbn [unwind_positions].
    + destruct (Z.gtb_spec 0 row); [lia | reflexivity].
    + destruct (Z.gtb_spec (Z.of_nat (length ((i, j) :: qs))) row);
        [lia | reflexivity].
  - cbn [app unwind_positions] in *.
    inversion HpR as [|R' c ps HpR' Hc]; subst.
    pose proof (placed_length _ _ _ HpR') as HlenR.
    pose proof (placed_length _ _ _ Hp) as Hlen.
    pose proof (placed_nonneg _ _ _ HpR') as HR0.
    destruct (Z.gtb_spec (Z.of_nat (length ((i, j) :: extra ++ qs))) row)
      as [_|Hle].
    2:{ rewrite length_cons, length_app in Hle.
        rewrite length_app in HlenR. lia. }
    rewrite board_set_unplace by (try lia; eapply placed_fresh; eauto).
    rewrite bind_Ok. apply (IH i); [assumption | lia].
Qed.

Lemma place_loop_spec (N : Z) qs row self stack :
  n self = N -> board self = board_of N qs -> placed N row qs -> row < N ->
  forall columns, Forall (fun c => 0 <= c < N) columns ->
  place_loop self row columns stack qs
  = Ok match first_safe qs row columns with
       | None => Exhausted
       | Some c =>
           if row =? N - 1
           then ReturnTrue (set_board self (board_of N ((row, c) :: qs)))
           else Break (set_board self (board_of N ((row, c) :: qs)))
                      ((row + 1, 0) :: (row, c + 1) :: stack) ((row, c) :: qs)
       end.
Proof.
  intros Hn Hb Hp Hrow. pose proof (placed_nonneg _ _ _ Hp) as Hrow0.
  induction 1 as [|c columns Hc Hcols IH]; cbn [place_loop first_safe];
    [reflexivity|].
  rewrite (is_safe_spec N qs) by (auto; lia). rewrite bind_Ok.
  case_bool_decide as Hsafe; [|exact IH].
  rewrite Hb, board_set_place by lia. rewrite bind_Ok, Hn.
  destruct (row =? N - 1); reflexivity.
Qed.

(** One iteration of the [while stack] loop on the frame [(row, col)]. *)
Lemma iterative_step (N : Z) qs extra R row col self stack fuel :
  n self = N -> board self = board_of N (extra ++ qs) ->
  placed N row qs -> placed N R (extra ++ qs) -> R <= N -> row < N -> 0 <= col ->
  iterative_loop (S fuel) self ((row, col) :: stack) (extra ++ qs)
  = let self1 := set_board self (board_of N qs) in
    match first_safe qs row (range2 col N) with
    | None => iterative_loop fuel (incr_backtrack_count self1) stack qs
    | Some c =>
        let self2 := set_board self1 (board_of N ((row, c) :: qs)) in
        if row =? N - 1 then Ok (true, self2)
        else iterative_loop fuel self2
               ((row + 1, 0) :: (row, c + 1) :: stack) ((row, c) :: qs)
    end.
Proof.
  intros Hn Hb Hp HpR HRN Hrow Hcol. cbn [iterative_loop].
  rewrite Hb, (unwind_positions_spec N qs row Hp extra R HpR HRN).
  rewrite bind_Ok. cbn iota beta zeta.
  cbn [n set_board]. rewrite Hn.
  rewrite (place_loop_spec N qs row (set_board self (board_of N qs)) stack
             Hn eq_refl Hp Hrow _ (range2_bounds col N Hcol)).
  rewrite bind_Ok.
  destruct (first_safe qs row (range2 col N)) as [c|]; [|reflexivity].
  destruct (row =? N - 1); reflexivity.
Qed.

Lemma iterative_frame (N : Z) :
  forall (k : nat) (row : Z), row + 1 + Z.of_nat k = N ->
  forall (m : nat) (col : Z), 0 <= col -> col + Z.of_nat m = N ->
  forall qs extra R self stack,
    placed N row qs -> placed N R (extra ++ qs) -> R <= N ->
    n self = N -> board self = board_of N (extra ++ qs) ->
    exists steps : nat,
      iter_post N self stack qs
        (first_column (search N k (row + 1)) qs row (range2 col N))
        (fun fuel =>
           iterative_loop (steps + fuel) self ((row, col) :: stack) (extra ++ qs)).
Proof.
  induction k as [|k IHk]; intros row Hrow;
    induction m as [m IHm] using lt_wf_ind;
    intros col Hcol0 Hcolm qs extra R self stack Hp HpR HRN Hn Hb;
    pose proof (placed_nonneg _ _ _ Hp) as Hrow0;
    pose proof (fun fuel => iterative_step N qs extra R row col self stack fuel
                  Hn Hb Hp HpR HRN ltac:(lia) Hcol0) as Hstep;
    cbn zeta in Hstep.
  - (* last row *)
    pose proof (first_column_first_safe (search N 0 (row + 1)) qs row N m col
                  Hcolm) as Hfc0.
    destruct (first_safe qs row (range2 col N)) as [c|].
    + destruct Hfc0 as [Hc ->]. cbn [search]. exists 1%nat. cbn [iter_post].
      eexists. split; [|split].
      * intros fuel. cbn [Nat.add]. rewrite Hstep.
        replace (row =? N - 1) with true by (symmetry; apply Z.eqb_eq; lia).
        reflexivity.
      * eapply frame_trans; apply frame_set_board.
      * reflexivity.
    + rewrite Hfc0. exists 1%nat. cbn [iter_post]. eexists. split; [|split].
      * intros fuel. cbn [Nat.add]. rewrite Hstep. reflexivity.
      * eapply frame_trans; [apply frame_set_board | apply frame_incr].
      * reflexivity.
  - (* an inner row *)
    pose proof (first_column_first_safe (search N (S k) (row + 1)) qs row N m
                  col Hcolm) as HfcS.
    destruct (first_safe qs row (range2 col N)) as [c|].
    + destruct HfcS as [Hc ->].
      set (self2 := set_board (set_board self (board_of N qs))
                              (board_of N ((row, c) :: qs))) in *.
      assert (Hp1 : placed N (row + 1) ((row, c) :: qs))
        by (constructor; [assumption | lia]).
      destruct (IHk (row + 1) ltac:(lia) (Z.to_nat N) 0 ltac:(lia) ltac:(lia)
                  ((row, c) :: qs) [] (row + 1) self2 ((row, c + 1) :: stack)
                  Hp1 Hp1 ltac:(lia) Hn eq_refl) as [steps1 Hpost1].
      rewrite range2_0 in Hpost1.
      change (first_column (search N k (row + 1 + 1)) ((row, c) :: qs) (row + 1)
                (range N))
        with (search N (S k) (row + 1) ((row, c) :: qs)) in Hpost1.
      cbn [app] in Hpost1.
      destruct (search N (S k) (row + 1) ((row, c) :: qs)) as [qs'|];
        cbn [iter_post] in Hpost1.
      * destruct Hpost1 as (self' & Hrun1 & Hf1 & Hb1).
        exists (S steps1). cbn [iter_post]. exists self'. split; [|split].
        -- intros fuel. cbn [Nat.add]. rewrite Hstep.
           replace (row =? N - 1) with false by (symmetry; apply Z.eqb_neq; lia).
           apply Hrun1.
        -- eapply frame_trans; [|exact Hf1].
           eapply frame_trans; apply frame_set_board.
        -- exact Hb1.
      * destruct Hpost1 as (self3 & Hrun1 & Hf1 & Hb1).
        assert (Hn3 : n self3 = N) by (destruct Hf1 as [-> _]; exact Hn).
        destruct (IHm (Z.to_nat (N - (c + 1))) ltac:(lia) (c + 1) ltac:(lia)
                    ltac:(lia) qs [(row, c)] (row + 1) self3 stack
                    Hp Hp1 ltac:(lia) Hn3 Hb1) as [steps2 Hpost2].
        exists (S (steps1 + steps2)). cbn [app] in Hpost2.
        assert (Hf3 : frame self self3).
        { eapply frame_trans; [|exact Hf1].
          eapply frame_trans; apply frame_set_board. }
        unfold iter_post in *.
        destruct (first_column (search N (S k) (row + 1)) qs row
                    (range2 (c + 1) N)) as [qs'|];
          destruct Hpost2 as (self' & Hrun2 & Hf2 & Hb2);
          exists self'; (split; [|split; [eapply frame_trans; eauto | exact Hb2]]);
          intros fuel; cbn [Nat.add]; rewrite Hstep;
          replace (row =? N - 1) with false by (symmetry; apply Z.eqb_neq; lia);
          rewrite <- Nat.add_assoc, Hrun1; apply Hrun2.
    + rewrite HfcS. exists 1%nat. cbn [iter_post]. eexists. split; [|split].
      * intros fuel. cbn [Nat.add]. rewrite Hstep. reflexivity.
      * eapply frame_trans; [apply frame_set_board | apply frame_incr].
      * reflexivity.
Qed.

(** An all-zero board with three empty sets: the sets mirror the board. *)
Lemma mirrors_empty (N : Z) st :
  n (solver st) = N -> board (solver st) = empty_board N ->
  cols st = ∅ -> diag1 st = ∅ -> diag2 st = ∅ -> mirrors st.
Proof.
  intros Hn Hb Hc Hd1 Hd2. destruct (Z.ltb_spec N 0) as [HN|HN].
  - exists []. unfold collect_board, range. rewrite Hn, seqZ_nil by lia.
    rewrite Hc, Hd1, Hd2. repeat split; constructor.
  - apply (mirrors_placed N 0 []);
      [assumption | rewrite Hb; apply empty_board_of | constructor
      | assumption | exact I |].
    unfold sets_of. rewrite Hc, Hd1, Hd2. repeat split.
Qed.

(** * The claims *)

(** C1: for every positive board size [N], [solve_backtrack] on a fresh
    solver returns a result [found]; it is the failure signal [False]
    exactly when no N-Queens solution exists, which happens exactly for
    [N = 2] and [N = 3]; on success the board holds a solution accepted by
    [validate_solution], and for [N = 1] that solution is the single cell
    [(0, 0)]. *)
Theorem solve_backtrack_first_solution (N : Z) :
  0 < N ->
  exists self found,
    init N = Ok self /\
    (found = false <-> ~ exists sol, is_solution N sol) /\
    (found = false <-> N = 2 \/ N = 3) /\
    forall fuel, (Z.to_nat N < fuel)%nat ->
      exists self',
        solve_backtrack fuel self 0 = Ok (found, self') /\
        (found = true ->
           exists sol, collect_board self' = Ok sol /\ is_solution N sol /\
                       validate_solution self' sol = true /\
                       (N = 1 -> sol = [(0, 0)])).
Proof.
  intros HN. eexists. exists (bool_decide (is_Some (search N (Z.to_nat N) 0 []))).
  split; [reflexivity|].
  assert (Hcomplete : (exists sol, is_solution N sol) ->
                      is_Some (search N (Z.to_nat N) 0 [])).
  { intros [sol Hsol]. apply (search_complete N sol Hsol); [lia | constructor|].
    intros q Hq. apply elem_of_nil in Hq. contradiction. }
  assert (Hsound : forall qs, search N (Z.to_nat N) 0 [] = Some qs ->
                     placed N N qs /\ is_solution N qs).
  { intros qs Hs. apply search_sound in Hs as [Hp Hna]; [|constructor|exact I].
    replace (0 + Z.of_nat (Z.to_nat N)) with N in Hp by lia.
    split; [assumption | apply placed_solution; assumption]. }
  split; [|split].
  - rewrite bool_decide_eq_false. split.
    + intros Hnone Hex. auto.
    + intros Hno [qs Hs]. apply Hno. exists qs. apply Hsound. assumption.
  - rewrite bool_decide_eq_false. split.
    + intros Hnone. destruct (decide (N = 2 \/ N = 3)) as [|Hother]; [assumption|].
      exfalso. apply Hnone, Hcomplete, solution_exists. lia.
    + intros [->| ->] [qs Hs].
      * change (Z.to_nat 2) with 2%nat in Hs.
        rewrite search_unsolvable_2 in Hs. discriminate.
      * change (Z.to_nat 3) with 3%nat in Hs.
        rewrite search_unsolvable_3 in Hs. discriminate.
  - intros fuel Hfuel.
    pose proof (solve_backtrack_refines N (Z.to_nat N) fuel 0 []
                  (mkSolver N (empty_board N) [] 0 0) Hfuel ltac:(lia)
                  (placed_nil N) eq_refl (empty_board_of N)) as Hpost.
    unfold first_post in Hpost.
    destruct (search N (Z.to_nat N) 0 []) as [qs|] eqn:Hs.
    + destruct Hpost as (s' & Hrun & Hf & Hb).
      rewrite bool_decide_eq_true_2 by eauto.
      exists s'. split; [assumption|]. intros _.
      destruct (Hsound qs eq_refl) as [Hp Hsol].
      destruct Hf as (Hn & _). simpl in Hn.
      exists (reverse qs). split; [|split; [|split]].
      * apply (collect_board_placed N); assumption.
      * apply is_solution_reverse. assumption.
      * apply solution_validates. rewrite Hn.
        apply is_solution_reverse. assumption.
      * intros ->. apply solution_size_one. apply is_solution_reverse. assumption.
    + destruct Hpost as (s' & Hrun & Hf & Hb).
      rewrite bool_decide_eq_false_2 by (intros [? ?]; discriminate).
      exists s'. split; [assumption|]. discriminate.
Qed.

(** Witness for C1 at [N = 4]. *)
Lemma solve_backtrack_first_solution_witness :
  0 < 4 /\
  exists self found,
    init 4 = Ok self /\
    (found = false <-> ~ exists sol, is_solution 4 sol) /\
    (found = false <-> 4 = 2 \/ 4 = 3) /\
    forall fuel, (Z.to_nat 4 < fuel)%nat ->
      exists self',
        solve_backtrack fuel self 0 = Ok (found, self') /\
        (found = true ->
           exists sol, collect_board self' = Ok sol /\ is_solution 4 sol /\
                       validate_solution self' sol = true /\
                       (4 = 1 -> sol = [(0, 0)])).
Proof.
  split; [lia | apply (solve_backtrack_first_solution 4); lia].
Defined.

(** C2: for each [N] in 4..8 a top-level exhaustive search on a fresh
    solver returns (with any fuel above [N]) and leaves a solutions list of
    length 2, 10, 4, 40, 92 respectively; [solution_count] equals that
    length, which is also the entry of [get_known_solution_counts]. *)
Theorem solve_all_known_counts (N c : Z) (fuel : nat) :
  (N, c) ∈ [(4, 2); (5, 10); (6, 4); (7, 40); (8, 92)] ->
  (Z.to_nat N < fuel)%nat ->
  exists self st,
    init N = Ok self /\
    solve_all_backtrack fuel self 0 None None None = Ok st /\
    Z.of_nat (length (solutions (solver st))) = c /\
    solution_count (solver st) = c /\
    get_known_solution_counts !! N = Some c.
Proof.
  intros Hin Hfuel.
  destruct (solve_all_solutions N fuel Hfuel) as (st & Hrun & _ & Hsols & Hcount).
  eexists. exists st. split; [reflexivity|]. split; [exact Hrun|].
  rewrite Hsols, Hcount, length_fmap.
  destruct all_placements_count as (H4 & H5 & H6 & H7 & H8).
  repeat (apply elem_of_cons in Hin as [Hin|Hin];
          [inversion Hin; subst;
           rewrite ?H4, ?H5, ?H6, ?H7, ?H8; repeat split; reflexivity|]).
  apply elem_of_nil in Hin. contradiction.
Qed.

(** Witness for C2: the 92 solutions of the 8 x 8 board. *)
Lemma solve_all_known_counts_witness :
  exists self st,
    init 8 = Ok self /\
    solve_all_backtrack 9 self 0 None None None = Ok st /\
    Z.of_nat (length (solutions (solver st))) = 92 /\
    solution_count (solver st) = 92 /\
    get_known_solution_counts !! 8 = Some 92.
Proof.
  apply (solve_all_known_counts 8 92 9).
  - repeat (first [left | right]).
  - vm_compute. lia.
Defined.

(** C3: for every positive [N], [solve_iterative] and [solve_backtrack],
    each run on a fresh solver of size [N], return the same success flag
    and leave the same board (on success the same first solution, queens on
    identical cells); the recursion needs fuel above [N], the loop some
    number of iterations [steps]. *)
Theorem solve_iterative_agrees_with_backtrack (N : Z) :
  0 < N ->
  exists self found final_board steps,
    init N = Ok self /\
    (forall fuel, (Z.to_nat N < fuel)%nat ->
       exists s_rec, solve_backtrack fuel self 0 = Ok (found, s_rec) /\
                     board s_rec = final_board) /\
    (exists s_it, (forall fuel, solve_iterative (steps + fuel) self
                                = Ok (found, s_it)) /\
                  board s_it = final_board).
Proof.
  intros HN. set (self := mkSolver N (empty_board N) [] 0 0).
  assert (Hrec : forall fuel, (Z.to_nat N < fuel)%nat ->
            first_post N self [] (search N (Z.to_nat N) 0 [])
              (solve_backtrack fuel self 0)).
  { intros fuel Hfuel.
    apply solve_backtrack_refines;
      [lia | lia | constructor | reflexivity | apply empty_board_of]. }
  destruct (iterative_frame N (Z.to_nat (N - 1)) 0 ltac:(lia) (Z.to_nat N) 0
              ltac:(lia) ltac:(lia) [] [] 0 self [] (placed_nil N) (placed_nil N)
              ltac:(lia) eq_refl (empty_board_of N)) as [steps Hit].
  rewrite range2_0 in Hit. cbn [app] in Hit.
  change (first_column (search N (Z.to_nat (N - 1)) (0 + 1)) [] 0 (range N))
    with (search N (S (Z.to_nat (N - 1))) 0 []) in Hit.
  replace (S (Z.to_nat (N - 1))) with (Z.to_nat N) in Hit by lia.
  assert (Hsolve : forall fuel, solve_iterative fuel self
                                = iterative_loop fuel self [(0, 0)] []).
  { intros fuel. unfold solve_iterative. cbn [n self].
    replace (N =? 0) with false by (symmetry; apply Z.eqb_neq; lia).
    reflexivity. }
  exists self. unfold first_post, iter_post in *.
  destruct (search N (Z.to_nat N) 0 []) as [qs'|].
  - destruct Hit as (s_it & Hrun & _ & Hb).
    exists true, (board_of N qs'), steps. split; [reflexivity|]. split.
    + intros fuel Hfuel. destruct (Hrec fuel Hfuel) as (s' & ? & _ & ?). eauto.
    + exists s_it. split; [|exact Hb]. intros fuel. rewrite Hsolve. apply Hrun.
  - destruct Hit as (s_it & Hrun & _ & Hb).
    exists false, (board_of N []), steps. split; [reflexivity|]. split.
    + intros fuel Hfuel. destruct (Hrec fuel Hfuel) as (s' & ? & _ & ?). eauto.
    + exists s_it. split; [|exact Hb]. intros fuel. rewrite Hsolve, Hrun.
      destruct fuel; reflexivity.
Qed.

(** Witness for C3 on the 4 x 4 board. *)
Lemma solve_iterative_agrees_with_backtrack_witness :
  exists self found final_board steps,
    init 4 = Ok self /\
    (forall fuel, (Z.to_nat 4 < fuel)%nat ->
       exists s_rec, solve_backtrack fuel self 0 = Ok (found, s_rec) /\
                     board s_rec = final_board) /\
    (exists s_it, (forall fuel, solve_iterative (steps + fuel) self
                                = Ok (found, s_it)) /\
                  board s_it = final_board).
Proof. apply (solve_iterative_agrees_with_backtrack 4). lia. Defined.

(** C4: for every positive [N], every solution in the list produced by a
    top-level [solve_all_backtrack] is accepted by [validate_solution] (and
    is a solution of the N-Queens problem), and the list holds no solution
    twice. *)
Theorem solve_all_valid_and_distinct (N : Z) (fuel : nat) :
  0 < N -> (Z.to_nat N < fuel)%nat ->
  exists self st,
    init N = Ok self /\
    solve_all_backtrack fuel self 0 None None None = Ok st /\
    Forall (fun sol => validate_solution (solver st) sol = true /\
                       is_solution N sol)
           (solutions (solver st)) /\
    NoDup (solutions (solver st)).
Proof.
  intros HN Hfuel.
  destruct (solve_all_solutions N fuel Hfuel) as (st & Hrun & Hn & Hsols & _).
  eexists. exists st. split; [reflexivity|]. split; [exact Hrun|].
  rewrite Hsols. split; [|apply solutions_NoDup].
  apply Forall_fmap, Forall_forall. intros qs Hqs. simpl.
  apply all_placements_solutions in Hqs as [Hsol _].
  split; [|assumption]. apply solution_validates. rewrite Hn. assumption.
Qed.

(** Witness for C4 on the 6 x 6 board. *)
Lemma solve_all_valid_and_distinct_witness :
  exists self st,
    init 6 = Ok self /\
    solve_all_backtrack 7 self 0 None None None = Ok st /\
    Forall (fun sol => validate_solution (solver st) sol = true /\
                       is_solution 6 sol)
           (solutions (solver st)) /\
    NoDup (solutions (solver st)).
Proof.
  apply (solve_all_valid_and_distinct 6 7); [lia | vm_compute; lia].
Defined.

(** C5, as claimed, fails: [validate_solution] has no range test, and a
    candidate of the right length with an out-of-range coordinate and no
    duplicate row, column or diagonal identifier is accepted. *)
Lemma validate_solution_accepts_out_of_range :
  (exists p, p ∈ out_of_range_candidate /\ ~ (0 <= p.1 < 4)) /\
  validate_solution (mkSolver 4 (empty_board 4) [] 0 0) out_of_range_candidate
  = true.
Proof.
  split; [|vm_compute; reflexivity].
  exists (10, 1). split; [left | simpl; lia].
Qed.

(** C5, amended: [validate_solution] is a function into the booleans; it
    returns false exactly when the candidate's length differs from [n] or
    two of its pairs share a row, a column, a [row - col] or a [row + col]
    value.  Coordinates outside the board are not tested. *)
Theorem validate_solution_rejects_exactly (self : Solver) (sol : list (Z * Z)) :
  validate_solution self sol = false <->
  Z.of_nat (length sol) <> n self \/
  ~ NoDup (fst <$> sol) \/ ~ NoDup (snd <$> sol) \/
  ~ NoDup (diag1_of <$> sol) \/ ~ NoDup (diag2_of <$> sol).
Proof.
  rewrite <- not_true_iff_false, validate_solution_spec.
  destruct (decide (Z.of_nat (length sol) = n self));
    destruct (decide (NoDup (fst <$> sol)));
    destruct (decide (NoDup (snd <$> sol)));
    destruct (decide (NoDup (diag1_of <$> sol)));
    destruct (decide (NoDup (diag2_of <$> sol))); tauto.
Qed.

(** C6, as claimed, fails: constructing a solver of size 0 (or of a
    negative size) succeeds. *)
Lemma init_nonpositive_succeeds :
  init 0 = Ok (mkSolver 0 [] [] 0 0) /\
  init (-3) = Ok (mkSolver (-3) [] [] 0 0).
Proof. split; reflexivity. Qed.

(** C6, amended: [__init__] validates nothing and never fails; for every
    integer it returns a solver of that size with an all-zero board, no
    solutions and zero counters, and for [n <= 0] the board is the empty
    list. *)
Theorem init_never_fails (size : Z) :
  exists self,
    init size = Ok self /\
    n self = size /\ board self = empty_board size /\
    solutions self = [] /\ solution_count self = 0 /\ backtrack_count self = 0 /\
    (size <= 0 -> board self = []).
Proof.
  eexists. split; [reflexivity|]. cbn. repeat split.
  intros Hsize. unfold empty_board, range. rewrite seqZ_nil by lia. reflexivity.
Qed.

(** C7: in a top-level run of [solve_all_backtrack] (any board size), at
    every evaluation of the safety test the sets [cols], [diag1], [diag2]
    hold exactly the columns, [row - col] and [row + col] values of the
    queens on the board, no value occurring for two queens, and
    [is_safe_optimized] returns what the board-scanning [is_safe] returns;
    the sets mirror the board again when the run returns.  The log of the
    traced run lists the evaluations of the safety test; the run itself is
    the run of [solve_all_backtrack]. *)
Theorem solve_all_sets_mirror_board (N : Z) (fuel : nat) :
  (Z.to_nat N < fuel)%nat ->
  exists self st log,
    init N = Ok self /\
    solve_all_backtrack_traced fuel self 0 None None None [] = Ok (st, log) /\
    solve_all_backtrack fuel self 0 None None None = Ok st /\
    Forall query_ok log /\
    mirrors st.
Proof.
  intros Hfuel.
  destruct (solve_all_correct N (mkSolver N (empty_board N) [] 0 0) fuel []
              Hfuel eq_refl eq_refl)
    as (st & new & Hrun & Hok & Hc & Hd1 & Hd2 & Hn & Hb & _).
  eexists. exists st, new. split; [reflexivity|].
  split; [exact Hrun|]. split; [|split; [exact Hok|]].
  - rewrite <- erase_solve_all_backtrack with (log := []).
    apply (erase_Ok _ _ _ Hrun).
  - apply (mirrors_empty N); assumption.
Qed.

(** Witness for C7 on the 4 x 4 board. *)
Lemma solve_all_sets_mirror_board_witness :
  exists self st log,
    init 4 = Ok self /\
    solve_all_backtrack_traced 5 self 0 None None None [] = Ok (st, log) /\
    solve_all_backtrack 5 self 0 None None None = Ok st /\
    Forall query_ok log /\
    mirrors st.
Proof.
  apply (solve_all_sets_mirror_board 4 5). vm_compute. lia.
Defined.

(** C8, as claimed, fails: after [solve_backtrack] on a fresh 1 x 1 solver
    the statistics report [solutions_found = 0], not 1. *)
Lemma first_solution_statistics_size_one :
  exists self',
    solve_backtrack 2 (mkSolver 1 (empty_board 1) [] 0 0) 0 = Ok (true, self') /\
    collect_board self' = Ok [(0, 0)] /\
    solutions_found (get_statistics self') = 0 /\
    solutions_found (get_statistics self') <> 1.
Proof. eexists. repeat split; vm_compute; congruence. Qed.

(** C8, amended: after creating a solver with [N = 1] and running
    [solve_backtrack], the search has succeeded, the solution read off the
    board is the single pair [(0, 0)], and the statistics report
    [solutions_found = 0] (first-solution search records nothing in
    [solutions] or [solution_count]) and no backtrack operation. *)
Theorem first_solution_size_one (fuel : nat) :
  (1 < fuel)%nat ->
  exists self self',
    init 1 = Ok self /\
    solve_backtrack fuel self 0 = Ok (true, self') /\
    collect_board self' = Ok [(0, 0)] /\
    get_statistics self' = mkStatistics 1 0 0.
Proof.
  intros Hfuel. destruct fuel as [|[|fuel]]; try lia.
  eexists. eexists. split; [reflexivity|]. split; [reflexivity|].
  split; reflexivity.
Qed.

(** Witness for C8 with fuel 2. *)
Lemma first_solution_size_one_witness :
  exists self self',
    init 1 = Ok self /\
    solve_backtrack 2 self 0 = Ok (true, self') /\
    collect_board self' = Ok [(0, 0)] /\
    get_statistics self' = mkStatistics 1 0 0.
Proof. apply (first_solution_size_one 2). lia. Defined.

(** C9: on the solutions produced by a top-level exhaustive search (any
    board size) the set built by [analyze_symmetry] has exactly as many
    elements as the list: the solutions are pairwise distinct and each is
    already in ascending order, so sorting changes nothing and no two of
    them fall together.  The two counts [analyze_symmetry] reports are
    equal. *)
Theorem analyze_symmetry_counts_equal (N : Z) (fuel : nat) :
  (Z.to_nat N < fuel)%nat ->
  exists self st,
    init N = Ok self /\
    solve_all_backtrack fuel self 0 None None None = Ok st /\
    NoDup (solutions (solver st)) /\
    Forall (fun sol => sorted sol = sol) (solutions (solver st)) /\
    size (unique_solutions (solutions (solver st)))
    = length (solutions (solver st)) /\
    (solutions (solver st) <> [] ->
     analyze_symmetry (solutions (solver st)) N
     = Some (length (solutions (solver st)), length (solutions (solver st)))).
Proof.
  intros Hfuel.
  destruct (solve_all_solutions N fuel Hfuel) as (st & Hrun & Hn & Hsols & _).
  eexists. exists st. split; [reflexivity|]. split; [exact Hrun|].
  rewrite Hsols.
  assert (Hasc : Forall rows_ascending (reverse <$> all_placements N)).
  { apply Forall_fmap, Forall_forall. intros qs Hqs. simpl.
    apply all_placements_solutions in Hqs as [_ Hasc]. exact Hasc. }
  pose proof (unique_solutions_size _ (solutions_NoDup N) Hasc) as Hsize.
  split; [apply solutions_NoDup|]. split; [|split; [exact Hsize|]].
  - eapply Forall_impl; [exact Hasc|]. apply sorted_rows_ascending.
  - intros Hne. unfold analyze_symmetry.
    destruct (reverse <$> all_placements N) eqn:Heq; [congruence|].
    rewrite Hsize. reflexivity.
Qed.

(** Witness for C9 on the 5 x 5 board. *)
Lemma analyze_symmetry_counts_equal_witness :
  exists self st,
    init 5 = Ok self /\
    solve_all_backtrack 6 self 0 None None None = Ok st /\
    NoDup (solutions (solver st)) /\
    Forall (fun sol => sorted sol = sol) (solutions (solver st)) /\
    size (unique_solutions (solutions (solver st)))
    = length (solutions (solver st)) /\
    (solutions (solver st) <> [] ->
     analyze_symmetry (solutions (solver st)) 5
     = Some (length (solutions (solver st)), length (solutions (solver st)))).
Proof.
  apply (analyze_symmetry_counts_equal 5 6). vm_compute. lia.
Defined.

(** C10: a top-level [solve_all_backtrack] started on an all-zero board
    returns with the board again all zeros and the three sets empty; of the
    solver only [solutions], [solution_count] and [backtrack_count] may
    differ from before the call. *)
Theorem solve_all_restores_board_and_sets (self : Solver) (fuel : nat) :
  board self = empty_board (n self) ->
  (Z.to_nat (n self) < fuel)%nat ->
  exists st,
    solve_all_backtrack fuel self 0 None None None = Ok st /\
    board (solver st) = board self /\
    Forall (Forall (fun v => v = 0)) (board (solver st)) /\
    cols st = ∅ /\ diag1 st = ∅ /\ diag2 st = ∅ /\
    n (solver st) = n self.
Proof.
  intros Hb Hfuel.
  destruct (solve_all_correct (n self) self fuel [] Hfuel eq_refl Hb)
    as (st & new & Hrun & _ & Hc & Hd1 & Hd2 & Hn & Hb' & _).
  exists st. cbn in Hc, Hd1, Hd2, Hn, Hb'.
  split; [|repeat split; auto].
  - rewrite <- erase_solve_all_backtrack with (log := []).
    apply (erase_Ok _ _ _ Hrun).
  - rewrite Hb', Hb. apply empty_board_zeros.
Qed.

(** Witness for C10: a 5 x 5 solver that already went through one run. *)
Lemma solve_all_restores_board_and_sets_witness :
  exists st,
    solve_all_backtrack 6 (mkSolver 5 (empty_board 5) [[(0, 0)]] 1 7) 0
      None None None = Ok st /\
    board (solver st) = empty_board 5 /\
    Forall (Forall (fun v => v = 0)) (board (solver st)) /\
    cols st = ∅ /\ diag1 st = ∅ /\ diag2 st = ∅ /\
    n (solver st) = 5.
Proof.
  apply (solve_all_restores_board_and_sets
           (mkSolver 5 (empty_board 5) [[(0, 0)]] 1 7) 6);
    [reflexivity | vm_compute; lia].
Defined.

(** * Further properties *)

(** ** The first solution is the first enumerated one *)

Lemma first_column_head arec aenum qs row columns :
  (forall qs', arec qs' = head (aenum qs')) ->
  first_column arec qs row columns = head (all_columns aenum qs row columns).
Proof.
  intros Hrec. induction columns as [|c columns IH];
    cbn [first_column all_columns]; [reflexivity|].
  case_bool_decide; [|exact IH].
  rewrite Hrec. destruct (aenum ((row, c) :: qs)); [exact IH | reflexivity].
Qed.

Lemma search_head (N : Z) (k : nat) :
  forall row qs, search N k row qs = head (enumerate N k row qs).
Proof.
  induction k as [|k IH]; intros row qs; cbn [search enumerate]; [reflexivity|].
  apply first_column_head. intros qs'. apply IH.
Qed.

Lemma search_extends (N : Z) (k : nat) row qs r :
  search N k row qs = Some r -> placed N row qs -> nonattacking qs ->
  placed N (row + Z.of_nat k) r /\ nonattacking r /\ (forall q, q ∈ qs -> q ∈ r).
Proof.
  rewrite search_head. intros Hhead. apply enumerate_sound.
  destruct (enumerate N k row qs); [discriminate|].
  inversion Hhead; subst. left.
Qed.

(** ** [enumerate] lists every full placement *)

Lemma nonattacking_app l qs : nonattacking (l ++ qs) -> nonattacking qs.
Proof.
  induction l as [|q l IH]; [auto|]. cbn [app nonattacking]. intros [_ H]. auto.
Qed.

Lemma placed_app_inv N R l qs row :
  placed N R (l ++ qs) -> placed N row qs ->
  l = [] /\ R = row \/
  exists l' c, l = l' ++ [(row, c)] /\ 0 <= c < N /\ row < R.
Proof.
  revert R. induction l as [|q l IH]; intros R HpR Hp.
  - left. split; [reflexivity|]. cbn [app] in HpR.
    apply placed_length in HpR. apply placed_length in Hp. lia.
  - right. cbn [app] in HpR. inversion HpR as [|R' c ps HpR' Hc]; subst.
    destruct (IH R' HpR' Hp) as [[-> ->]|(l' & c' & -> & Hc' & Hlt)].
    + exists [], c. split; [reflexivity|]. split; [assumption | lia].
    + exists ((R', c) :: l'), c'. split; [reflexivity|]. split; [assumption | lia].
Qed.

Lemma enumerate_complete (N : Z) (k : nat) :
  forall row qs l,
  placed N row qs -> placed N (row + Z.of_nat k) (l ++ qs) ->
  nonattacking (l ++ qs) -> l ++ qs ∈ enumerate N k row qs.
Proof.
  induction k as [|k IH]; intros row qs l Hp HpR Hna; cbn [enumerate].
  - destruct (placed_app_inv _ _ _ _ _ HpR Hp) as [[-> _]|(l' & c & _ & _ & ?)];
      [left | lia].
  - destruct (placed_app_inv _ _ _ _ _ HpR Hp) as [[_ ?]|(l' & c & -> & Hc & _)];
      [lia|].
    rewrite <- app_assoc in *. cbn [app] in *.
    apply elem_of_all_columns. exists c.
    pose proof (nonattacking_app _ _ Hna) as [Hsafe _].
    split; [unfold range; apply elem_of_seqZ; lia|].
    split; [exact Hsafe|].
    apply IH; [constructor; assumption | | assumption].
    replace (row + 1 + Z.of_nat k) with (row + Z.of_nat (S k)) by lia. assumption.
Qed.

(** A strictly increasing list of integers of [[a, b)] has at most [b - a]
    elements, and with that many it is the whole interval. *)
Lemma ascending_interval (l : list Z) :
  forall a b, StronglySorted Z.lt l -> Forall (fun x => a <= x < b) l ->
  Z.of_nat (length l) <= Z.max 0 (b - a) /\
  (Z.of_nat (length l) = b - a -> l = seqZ a (b - a)).
Proof.
  induction l as [|x l IH]; intros a b Hs Hr.
  - split; [simpl; lia|]. intros Hlen. simpl in Hlen.
    rewrite seqZ_nil by lia. reflexivity.
  - inversion Hs as [|? ? Hs' Hx]; subst. inversion Hr as [|? ? Hxr Hr']; subst.
    assert (Hr2 : Forall (fun y => x + 1 <= y < b) l).
    { rewrite Forall_forall in *. intros y Hy.
      specialize (Hx y Hy). specialize (Hr' y Hy). lia. }
    destruct (IH (x + 1) b Hs' Hr2) as [Hlen Heq].
    rewrite length_cons. split; [lia|]. intros Hfull.
    assert (x = a) as -> by lia.
    rewrite seqZ_cons by lia. f_equal.
    rewrite Heq by lia. f_equal; lia.
Qed.

Lemma placed_of_rows (N : Z) (sol : list (Z * Z)) :
  fst <$> sol = seqZ 0 (Z.of_nat (length sol)) ->
  Forall (fun p => 0 <= p.2 < N) sol ->
  placed N (Z.of_nat (length sol)) (reverse sol).
Proof.
  induction sol as [|[r c] sol IH] using rev_ind; intros Hrows Hcols.
  - constructor.
  - rewrite length_app, Nat.add_1_r in *. rewrite fmap_app, seqZ_S in Hrows.
    apply app_inj_2 in Hrows as [Hrows Hlast]; [|reflexivity].
    apply Forall_app in Hcols as [Hcols Hc]. inversion Hc; subst.
    inversion Hlast; subst. cbn [fst snd] in *.
    rewrite reverse_snoc, Nat2Z.inj_succ, <- Z.add_1_r.
    replace (0 + Z.of_nat (length sol)) with (Z.of_nat (length sol)) by lia.
    constructor; auto.
Qed.

Lemma pairwise_nonattacking (qs : list (Z * Z)) :
  NoDup qs ->
  (forall p q, p ∈ qs -> q ∈ qs -> p <> q -> ~ queens_attack p q) ->
  nonattacking qs.
Proof.
  induction qs as [|q qs IH]; intros Hnd Hpair; [exact I|].
  apply NoDup_cons in Hnd as [Hq Hnd]. split.
  - unfold Safe. apply Forall_forall. intros p Hp Hatt.
    apply (Hpair p q); [right; assumption | left | congruence |].
    apply attacks_queens_attack. destruct q. exact Hatt.
  - apply IH; [assumption|]. intros p p' Hp Hp'. apply Hpair; right; assumption.
Qed.

(** A solution listed by ascending rows is the reverse of an enumerated
    placement. *)
Lemma solution_enumerated (N : Z) (sol : list (Z * Z)) :
  is_solution N sol -> rows_ascending sol -> reverse sol ∈ all_placements N.
Proof.
  intros (Hlen & Hnd & Hrange & Hpair) Hasc.
  assert (HN : 0 <= N) by lia.
  unfold all_placements. destruct (Z.ltb_spec N 0); [lia|].
  assert (Hrows : fst <$> sol = seqZ 0 (Z.of_nat (length sol))).
  { destruct (ascending_interval (fst <$> sol) 0 N) as [_ Heq].
    - unfold rows_ascending in Hasc. clear -Hasc.
      induction Hasc as [|p sol Hs IH Hp]; [constructor|].
      rewrite fmap_cons. constructor; [assumption|].
      apply Forall_fmap. exact Hp.
    - apply Forall_fmap, Forall_forall. intros p Hp. apply Hrange in Hp. simpl. lia.
    - rewrite Heq by (rewrite length_fmap; lia). f_equal. lia. }
  assert (Hp : placed N N (reverse sol)).
  { rewrite <- Hlen at 2. apply placed_of_rows; [assumption|].
    apply Forall_forall. intros p Hp. apply Hrange in Hp. lia. }
  rewrite <- (app_nil_r (reverse sol)).
  apply enumerate_complete.
  - constructor.
  - rewrite app_nil_r. replace (0 + Z.of_nat (Z.to_nat N)) with N by lia. exact Hp.
  - rewrite app_nil_r. apply pairwise_nonattacking.
    + rewrite reverse_Permutation. assumption.
    + intros p q Hp' Hq'. rewrite reverse_Permutation in Hp', Hq'. auto.
Qed.

(** X1: the list left by a top-level exhaustive search is exactly the set
    of N-Queens solutions, each listed by ascending rows: nothing is
    missed and nothing else is recorded. *)
Theorem solve_all_finds_exactly_the_solutions (N : Z) (fuel : nat) :
  (Z.to_nat N < fuel)%nat ->
  exists self st,
    init N = Ok self /\
    solve_all_backtrack fuel self 0 None None None = Ok st /\
    forall sol, sol ∈ solutions (solver st) <->
                is_solution N sol /\ rows_ascending sol.
Proof.
  intros Hfuel.
  destruct (solve_all_solutions N fuel Hfuel) as (st & Hrun & _ & Hsols & _).
  eexists. exists st. split; [reflexivity|]. split; [exact Hrun|].
  intros sol. rewrite Hsols, list_elem_of_fmap. split.
  - intros (qs & -> & Hqs). apply all_placements_solutions. assumption.
  - intros [Hsol Hasc]. exists (reverse sol). split.
    + symmetry. apply reverse_involutive.
    + apply solution_enumerated; assumption.
Qed.

(** Witness for X1 on the 6 x 6 board. *)
Lemma solve_all_finds_exactly_the_solutions_witness :
  exists self st,
    init 6 = Ok self /\
    solve_all_backtrack 7 self 0 None None None = Ok st /\
    forall sol, sol ∈ solutions (solver st) <->
                is_solution 6 sol /\ rows_ascending sol.
Proof.
  apply (solve_all_finds_exactly_the_solutions 6 7). vm_compute. lia.
Defined.

(** X2: on a board of size [N >= 0], [solve_backtrack] fails exactly when
    the exhaustive search records no solution, and otherwise the solution
    it leaves on the board is the first entry of the exhaustive list. *)
Theorem first_solution_is_first_of_all (N : Z) (fuel : nat) :
  0 <= N -> (Z.to_nat N < fuel)%nat ->
  exists self found s1 st,
    init N = Ok self /\
    solve_backtrack fuel self 0 = Ok (found, s1) /\
    solve_all_backtrack fuel self 0 None None None = Ok st /\
    (found = false <-> solutions (solver st) = []) /\
    (found = true ->
     exists sol, collect_board s1 = Ok sol /\
                 head (solutions (solver st)) = Some sol).
Proof.
  intros HN Hfuel.
  destruct (solve_all_solutions N fuel Hfuel) as (st & Hrun & _ & Hsols & _).
  pose proof (solve_backtrack_refines N (Z.to_nat N) fuel 0 []
                (mkSolver N (empty_board N) [] 0 0) Hfuel ltac:(lia)
                (placed_nil N) eq_refl (empty_board_of N)) as Hpost.
  unfold first_post in Hpost. unfold all_placements in Hsols.
  replace (N <? 0) with false in Hsols by (symmetry; apply Z.ltb_ge; lia).
  pose proof (search_head N (Z.to_nat N) 0 []) as Hhead.
  pose proof (search_extends N (Z.to_nat N) 0 []) as Hext.
  destruct (search N (Z.to_nat N) 0 []) as [qs|].
  - destruct Hpost as (s1 & Hrun1 & Hf & Hb).
    exists (mkSolver N (empty_board N) [] 0 0), true, s1, st.
    split; [reflexivity|]. split; [exact Hrun1|]. split; [exact Hrun|].
    destruct (enumerate N (Z.to_nat N) 0 []) as [|qs0 rest]; [discriminate|].
    inversion Hhead; subst qs0. rewrite Hsols. cbn [fmap list_fmap head].
    split; [split; discriminate|]. intros _. exists (reverse qs).
    split; [|reflexivity].
    destruct (Hext qs eq_refl (placed_nil N) I) as (Hp & _).
    replace (0 + Z.of_nat (Z.to_nat N)) with N in Hp by lia.
    destruct Hf as (Hn & _). apply (collect_board_placed N); assumption.
  - destruct Hpost as (s1 & Hrun1 & Hf & Hb).
    exists (mkSolver N (empty_board N) [] 0 0), false, s1, st.
    split; [reflexivity|]. split; [exact Hrun1|]. split; [exact Hrun|].
    destruct (enumerate N (Z.to_nat N) 0 []); [|discriminate].
    rewrite Hsols. split; [split; reflexivity | discriminate].
Qed.

(** Witness for X2 on the 5 x 5 board. *)
Lemma first_solution_is_first_of_all_witness :
  exists self found s1 st,
    init 5 = Ok self /\
    solve_backtrack 6 self 0 = Ok (found, s1) /\
    solve_all_backtrack 6 self 0 None None None = Ok st /\
    (found = false <-> solutions (solver st) = []) /\
    (found = true ->
     exists sol, collect_board s1 = Ok sol /\
                 head (solutions (solver st)) = Some sol).
Proof.
  apply (first_solution_is_first_of_all 5 6); [lia | vm_compute; lia].
Defined.

(** X3: the contract of a recursive call.  On a board whose rows
    [0 .. row-1] hold mutually non-attacking queens [qs] and whose other
    rows are empty, [solve_backtrack(row)] returns [True] exactly when [qs]
    can be completed to an N-Queens solution; it then leaves such a
    completion on the board, and on [False] it leaves the board as it was.
    [solutions] and [solution_count] are never touched and
    [backtrack_count] never decreases. *)
Theorem solve_backtrack_extends_placement (N row : Z) (qs : list (Z * Z))
    (self : Solver) (fuel : nat) :
  placed N row qs -> nonattacking qs -> row <= N ->
  n self = N -> board self = board_of N qs ->
  (Z.to_nat (N - row) < fuel)%nat ->
  exists found s',
    solve_backtrack fuel self row = Ok (found, s') /\
    (found = true <->
     exists sol, is_solution N sol /\ forall q, q ∈ qs -> q ∈ sol) /\
    (found = true ->
     exists sol, collect_board s' = Ok sol /\ is_solution N sol /\
                 forall q, q ∈ qs -> q ∈ sol) /\
    (found = false -> board s' = board self) /\
    solutions s' = solutions self /\ solution_count s' = solution_count self /\
    backtrack_count self <= backtrack_count s'.
Proof.
  intros Hp Hna HrowN Hn Hb Hfuel.
  pose proof (placed_nonneg _ _ _ Hp) as Hrow0.
  pose proof (solve_backtrack_refines N (Z.to_nat (N - row)) fuel row qs self
                Hfuel ltac:(lia) Hp Hn Hb) as Hpost.
  pose proof (search_extends N (Z.to_nat (N - row)) row qs) as Hext.
  unfold first_post in Hpost.
  destruct (search N (Z.to_nat (N - row)) row qs) as [qs'|] eqn:Hs.
  - destruct Hpost as (s' & Hrun & (Hn' & Hsols & Hcount & Hbc) & Hb').
    destruct (Hext qs' eq_refl Hp Hna) as (Hp' & Hna' & Hsub).
    replace (row + Z.of_nat (Z.to_nat (N - row))) with N in Hp' by lia.
    pose proof (placed_solution N qs' Hp' Hna') as Hsol.
    exists true, s'. split; [exact Hrun|].
    split; [split; [intros _; exists qs'; auto | reflexivity]|].
    split; [|split; [discriminate | auto]].
    intros _. exists (reverse qs'). split; [|split].
    + apply (collect_board_placed N); [congruence | assumption | assumption].
    + apply is_solution_reverse. assumption.
    + intros q Hq. rewrite reverse_Permutation. auto.
  - destruct Hpost as (s' & Hrun & (Hn' & Hsols & Hcount & Hbc) & Hb').
    exists false, s'. split; [exact Hrun|].
    split; [|split; [discriminate | split; [intros _; congruence | auto]]].
    split; [discriminate|]. intros (sol & Hsol & Hsub). exfalso.
    destruct (search_complete N sol Hsol (Z.to_nat (N - row)) row qs
                ltac:(lia) Hp Hsub) as [r Hr].
    congruence.
Qed.

(** Witness for X3: the 4 x 4 board with one queen on [(0, 1)]. *)
Lemma solve_backtrack_extends_placement_witness :
  exists found s',
    solve_backtrack 4 (mkSolver 4 (board_of 4 [(0, 1)]) [] 0 0) 1
    = Ok (found, s') /\
    (found = true <->
     exists sol, is_solution 4 sol /\ forall q, q ∈ [(0, 1)] -> q ∈ sol) /\
    (found = true ->
     exists sol, collect_board s' = Ok sol /\ is_solution 4 sol /\
                 forall q, q ∈ [(0, 1)] -> q ∈ sol) /\
    (found = false -> board s' = board_of 4 [(0, 1)]) /\
    solutions s' = [] /\ solution_count s' = 0 /\
    0 <= backtrack_count s'.
Proof.
  apply (solve_backtrack_extends_placement 4 1 [(0, 1)]
           (mkSolver 4 (board_of 4 [(0, 1)]) [] 0 0) 4).
  - apply (placed_cons 4 0 1 []); [constructor | lia].
  - split; [constructor | exact I].
  - lia.
  - reflexivity.
  - reflexivity.
  - vm_compute. lia.
Defined.

(** ** More on [validate_solution] *)

Lemma NoDup_fmap_eq {A B} (f : A -> B) (l : list A) (x y : A) :
  NoDup (f <$> l) -> x ∈ l -> y ∈ l -> f x = f y -> x = y.
Proof.
  induction l as [|a l IH]; intros Hnd Hx Hy Heq.
  - apply elem_of_nil in Hx. contradiction.
  - rewrite fmap_cons in Hnd. apply NoDup_cons in Hnd as [Ha Hnd].
    apply elem_of_cons in Hx as [->|Hx]; apply elem_of_cons in Hy as [->|Hy].
    + reflexivity.
    + exfalso. apply Ha. rewrite Heq. apply list_elem_of_fmap_2. assumption.
    + exfalso. apply Ha. rewrite <- Heq. apply list_elem_of_fmap_2. assumption.
    + auto.
Qed.

(** X4: on candidates whose coordinates all lie on the board,
    [validate_solution] decides the N-Queens problem: it returns [True]
    exactly for the solutions. *)
Theorem validate_solution_decides_in_range (self : Solver) (sol : list (Z * Z)) :
  Forall (fun p => 0 <= p.1 < n self /\ 0 <= p.2 < n self) sol ->
  (validate_solution self sol = true <-> is_solution (n self) sol).
Proof.
  intros Hrange. split; [|apply solution_validates].
  rewrite validate_solution_spec. intros (Hlen & Hr & Hc & Hd1 & Hd2).
  split; [assumption|]. split; [eapply NoDup_fmap_1; exact Hr|].
  split; [rewrite Forall_forall in Hrange; exact Hrange|].
  intros p q Hp Hq Hne [Ha|[Ha|[Ha|Ha]]]; apply Hne.
  - exact (NoDup_fmap_eq fst sol p q Hr Hp Hq Ha).
  - exact (NoDup_fmap_eq snd sol p q Hc Hp Hq Ha).
  - exact (NoDup_fmap_eq diag1_of sol p q Hd1 Hp Hq Ha).
  - exact (NoDup_fmap_eq diag2_of sol p q Hd2 Hp Hq Ha).
Qed.

(** Witness for X4: a solution of the 4 x 4 board. *)
Lemma validate_solution_decides_in_range_witness :
  validate_solution (mkSolver 4 (empty_board 4) [] 0 0)
    [(0, 1); (1, 3); (2, 0); (3, 2)] = true <->
  is_solution 4 [(0, 1); (1, 3); (2, 0); (3, 2)].
Proof.
  apply (validate_solution_decides_in_range (mkSolver 4 (empty_board 4) [] 0 0)).
  repeat constructor; simpl; lia.
Defined.

(** X5: the verdict of [validate_solution] does not depend on the order in
    which the candidate lists its pairs. *)
Theorem validate_solution_permutation (self : Solver) (sol sol' : list (Z * Z)) :
  sol ≡ₚ sol' -> validate_solution self sol = validate_solution self sol'.
Proof.
  intros Hperm. apply eq_true_iff_eq. rewrite !validate_solution_spec.
  rewrite Hperm. reflexivity.
Qed.

(** Witness for X5. *)
Lemma validate_solution_permutation_witness :
  validate_solution (mkSolver 4 (empty_board 4) [] 0 0)
    [(0, 1); (1, 3); (2, 0); (3, 2)]
  = validate_solution (mkSolver 4 (empty_board 4) [] 0 0)
    [(1, 3); (0, 1); (2, 0); (3, 2)].
Proof.
  apply validate_solution_permutation. apply perm_swap.
Defined.

Lemma NoDup_fmap_rename {A} (f g : A -> Z) (h : Z -> Z) (l : list A) :
  Inj (=) (=) h -> (forall x, g x = h (f x)) ->
  NoDup (g <$> l) <-> NoDup (f <$> l).
Proof.
  intros Hinj Hgf.
  rewrite (list_fmap_ext g (h ∘ f) l) by (intros; apply Hgf).
  rewrite list_fmap_compose. apply (NoDup_fmap h).
Qed.

(** X6: [validate_solution] is invariant under the symmetries of the
    square: reflecting every pair of the candidate in the main diagonal,
    or in the vertical axis of the board, does not change the verdict
    (these two reflections generate all eight symmetries). *)
Theorem validate_solution_symmetric (self : Solver) (sol : list (Z * Z)) :
  validate_solution self (transpose_square <$> sol) = validate_solution self sol /\
  validate_solution self (mirror_square (n self) <$> sol)
  = validate_solution self sol.
Proof.
  split; apply eq_true_iff_eq; rewrite !validate_solution_spec;
    rewrite length_fmap, <- !list_fmap_compose.
  - rewrite (NoDup_fmap_rename snd (fst ∘ transpose_square) (fun x => x)).
    2:{ intros x y; lia. }
    2:{ intros [r c]. reflexivity. }
    rewrite (NoDup_fmap_rename fst (snd ∘ transpose_square) (fun x => x)).
    2:{ intros x y; lia. }
    2:{ intros [r c]. reflexivity. }
    rewrite (NoDup_fmap_rename diag1_of (diag1_of ∘ transpose_square)
               (fun x => - x)).
    2:{ intros x y; lia. }
    2:{ intros [r c]. unfold diag1_of, transpose_square. simpl. lia. }
    rewrite (NoDup_fmap_rename diag2_of (diag2_of ∘ transpose_square)
               (fun x => x)).
    2:{ intros x y; lia. }
    2:{ intros [r c]. unfold diag2_of, transpose_square. simpl. lia. }
    tauto.
  - rewrite (NoDup_fmap_rename fst (fst ∘ mirror_square (n self)) (fun x => x)).
    2:{ intros x y; lia. }
    2:{ intros [r c]. reflexivity. }
    rewrite (NoDup_fmap_rename snd (snd ∘ mirror_square (n self))
               (fun x => n self - 1 - x)).
    2:{ intros x y; lia. }
    2:{ intros [r c]. reflexivity. }
    rewrite (NoDup_fmap_rename diag2_of (diag1_of ∘ mirror_square (n self))
               (fun x => x - (n self - 1))).
    2:{ intros x y; lia. }
    2:{ intros [r c]. unfold diag1_of, diag2_of, mirror_square. simpl. lia. }
    rewrite (NoDup_fmap_rename diag1_of (diag2_of ∘ mirror_square (n self))
               (fun x => x + (n self - 1))).
    2:{ intros x y; lia. }
    2:{ intros [r c]. unfold diag1_of, diag2_of, mirror_square. simpl. lia. }
    tauto.
Qed.

(** ** Backtrack operations of the exhaustive search *)

Lemma placements_app l1 l2 : placements (l1 ++ l2) = placements l1 + placements l2.
Proof. unfold placements. rewrite filter_app, length_app. lia. Qed.

Lemma solve_all_loop_counts rec row columns :
  (forall st log st' log', rec (st, log) = Ok (st', log') ->
     exists new, log' = log ++ new /\
       backtrack_count (solver st')
       = backtrack_count (solver st) + placements new) ->
  forall st log st' log',
  solve_all_loop_traced rec row columns st log = Ok (st', log') ->
  exists new, log' = log ++ new /\
    backtrack_count (solver st') = backtrack_count (solver st) + placements new.
Proof.
  intros Hrec. induction columns as [|col columns IH]; intros st log st' log' Hrun;
    cbn [solve_all_loop_traced] in Hrun.
  - inversion Hrun; subst. exists []. rewrite app_nil_r.
    unfold placements. simpl. split; [reflexivity | lia].
  - destruct (is_safe_optimized row col (cols st) (diag1 st) (diag2 st)) eqn:Hsafe.
    + apply bind_Ok_inv in Hrun as (b1 & _ & Hrun).
      apply bind_Ok_inv in Hrun as ([st2 log2] & Hrec2 & Hrun).
      apply bind_Ok_inv in Hrun as (b3 & _ & Hrun).
      apply bind_Ok_inv in Hrun as (c3 & _ & Hrun).
      apply bind_Ok_inv in Hrun as (d13 & _ & Hrun).
      apply bind_Ok_inv in Hrun as (d23 & _ & Hrun).
      apply Hrec in Hrec2 as (new2 & -> & Hbc2).
      apply IH in Hrun as (new3 & -> & Hbc3).
      cbn [solver incr_backtrack_count set_board backtrack_count] in Hbc2, Hbc3.
      exists ([mkQuery st row col] ++ new2 ++ new3).
      split; [rewrite !app_assoc; reflexivity|].
      rewrite !placements_app, Hbc3, Hbc2.
      unfold placements at 3. rewrite filter_cons_True by exact Hsafe.
      simpl. lia.
    + apply IH in Hrun as (new3 & -> & Hbc3).
      exists ([mkQuery st row col] ++ new3).
      split; [rewrite !app_assoc; reflexivity|].
      rewrite placements_app, Hbc3.
      unfold placements at 2. rewrite filter_cons_False by (unfold query_safe; simpl; congruence).
      simpl. lia.
Qed.

Lemma solve_all_counts (fuel : nat) :
  forall self row cols0 diag10 diag20 log st' log',
  solve_all_backtrack_traced fuel self row cols0 diag10 diag20 log = Ok (st', log') ->
  exists new, log' = log ++ new /\
    backtrack_count (solver st') = backtrack_count self + placements new.
Proof.
  induction fuel as [|fuel IH]; intros self row cols0 diag10 diag20 log st' log' Hrun;
    cbn [solve_all_backtrack_traced] in Hrun; [discriminate|].
  destruct (row =? n self).
  - apply bind_Ok_inv in Hrun as (sol & _ & Hrun). inversion Hrun; subst.
    exists []. rewrite app_nil_r. unfold placements. simpl. split; [reflexivity | lia].
  - apply solve_all_loop_counts in Hrun; [exact Hrun|].
    intros st log0 st2 log2 Hrec. apply IH in Hrec. exact Hrec.
Qed.

(** X7: during an exhaustive search every queen that is placed is taken
    off again exactly once: on return [backtrack_count] has grown by the
    number of safety tests that succeeded. *)
Theorem solve_all_backtracks_every_placement (self : Solver) (fuel : nat) :
  board self = empty_board (n self) ->
  (Z.to_nat (n self) < fuel)%nat ->
  exists st log,
    solve_all_backtrack_traced fuel self 0 None None None [] = Ok (st, log) /\
    solve_all_backtrack fuel self 0 None None None = Ok st /\
    backtrack_count (solver st) = backtrack_count self + placements log.
Proof.
  intros Hb Hfuel.
  destruct (solve_all_correct (n self) self fuel [] Hfuel eq_refl Hb)
    as (st & new & Hrun & _).
  exists st, new. split; [exact Hrun|]. split.
  - rewrite <- erase_solve_all_backtrack with (log := []).
    apply (erase_Ok _ _ _ Hrun).
  - apply solve_all_counts in Hrun as (new' & Heq & Hbc).
    cbn [app] in Heq. subst new'. exact Hbc.
Qed.

(** Witness for X7 on a fresh 5 x 5 solver. *)
Lemma solve_all_backtracks_every_placement_witness :
  exists st log,
    solve_all_backtrack_traced 6 (mkSolver 5 (empty_board 5) [] 0 0) 0
      None None None [] = Ok (st, log) /\
    solve_all_backtrack 6 (mkSolver 5 (empty_board 5) [] 0 0) 0 None None None
    = Ok st /\
    backtrack_count (solver st) = 0 + placements log.
Proof.
  apply (solve_all_backtracks_every_placement (mkSolver 5 (empty_board 5) [] 0 0) 6);
    [reflexivity | vm_compute; lia].
Defined.

(** ** Repeated runs and [reset] *)

(** X8: solutions accumulate.  A second top-level exhaustive search on the
    same solver appends the same solutions once more and counts them
    again; after [reset] the search yields them once, as on a fresh
    solver. *)
Theorem solve_all_twice_and_reset (self : Solver) (fuel : nat) :
  board self = empty_board (n self) ->
  (Z.to_nat (n self) < fuel)%nat ->
  exists new st1 st2 st3,
    solve_all_backtrack fuel self 0 None None None = Ok st1 /\
    solve_all_backtrack fuel (solver st1) 0 None None None = Ok st2 /\
    solve_all_backtrack fuel (reset (solver st1)) 0 None None None = Ok st3 /\
    solutions (solver st1) = solutions self ++ new /\
    solution_count (solver st1) = solution_count self + Z.of_nat (length new) /\
    solutions (solver st2) = solutions self ++ new ++ new /\
    solution_count (solver st2)
    = solution_count self + 2 * Z.of_nat (length new) /\
    solutions (solver st3) = new /\
    solution_count (solver st3) = Z.of_nat (length new).
Proof.
  intros Hb Hfuel.
  destruct (solve_all_correct (n self) self fuel [] Hfuel eq_refl Hb)
    as (st1 & new1 & Hrun1 & _ & _ & _ & _ & Hn1 & Hb1 & Hsols1 & Hcount1 & _).
  cbn [solver] in Hn1, Hb1, Hsols1, Hcount1.
  destruct (solve_all_correct (n self) (solver st1) fuel [] Hfuel Hn1
              ltac:(congruence))
    as (st2 & new2 & Hrun2 & _ & _ & _ & _ & _ & _ & Hsols2 & Hcount2 & _).
  cbn [solver] in Hsols2, Hcount2.
  destruct (solve_all_correct (n self) (reset (solver st1)) fuel [] Hfuel
              ltac:(exact Hn1) ltac:(cbn; rewrite Hn1; reflexivity))
    as (st3 & new3 & Hrun3 & _ & _ & _ & _ & _ & _ & Hsols3 & Hcount3 & _).
  cbn [solver reset solutions solution_count] in Hsols3, Hcount3.
  exists (reverse <$> all_placements (n self)), st1, st2, st3.
  rewrite length_fmap.
  repeat split;
    try (rewrite <- erase_solve_all_backtrack with (log := []);
         eapply erase_Ok; eassumption).
  - exact Hsols1.
  - exact Hcount1.
  - rewrite Hsols2, Hsols1, <- app_assoc. reflexivity.
  - rewrite Hcount2, Hcount1. lia.
  - exact Hsols3.
  - rewrite Hcount3. lia.
Qed.

(** Witness for X8 on a fresh 4 x 4 solver. *)
Lemma solve_all_twice_and_reset_witness :
  exists new st1 st2 st3,
    solve_all_backtrack 5 (mkSolver 4 (empty_board 4) [] 0 0) 0 None None None
    = Ok st1 /\
    solve_all_backtrack 5 (solver st1) 0 None None None = Ok st2 /\
    solve_all_backtrack 5 (reset (solver st1)) 0 None None None = Ok st3 /\
    solutions (solver st1) = [] ++ new /\
    solution_count (solver st1) = 0 + Z.of_nat (length new) /\
    solutions (solver st2) = [] ++ new ++ new /\
    solution_count (solver st2) = 0 + 2 * Z.of_nat (length new) /\
    solutions (solver st3) = new /\
    solution_count (solver st3) = Z.of_nat (length new).
Proof.
  apply (solve_all_twice_and_reset (mkSolver 4 (empty_board 4) [] 0 0) 5);
    [reflexivity | vm_compute; lia].
Defined.

(** ** Boards of size zero or less *)

(** X9: on a solver of size [n <= 0] (which [__init__] accepts),
    [solve_backtrack] returns [True] at once and changes nothing;
    [solve_iterative] does the same for [n = 0] but for [n < 0] returns
    [False] after counting one backtrack, so the two first-solution
    searches disagree on negative sizes; the exhaustive search records the
    empty solution once for [n = 0] and nothing for [n < 0]. *)
Theorem searches_on_nonpositive_size (self : Solver) (fuel : nat) :
  n self <= 0 -> (0 < fuel)%nat ->
  solve_backtrack fuel self 0 = Ok (true, self) /\
  (n self = 0 -> solve_iterative fuel self = Ok (true, self)) /\
  (n self < 0 ->
   exists s', solve_iterative fuel self = Ok (false, s') /\
              backtrack_count s' = backtrack_count self + 1 /\
              board s' = board self /\ solutions s' = solutions self) /\
  exists st,
    solve_all_backtrack fuel self 0 None None None = Ok st /\
    solutions (solver st)
    = solutions self ++ (if n self =? 0 then [[]] else []) /\
    backtrack_count (solver st) = backtrack_count self.
Proof.
  intros Hn Hfuel. destruct fuel as [|fuel]; [lia|].
  split; [|split; [|split]].
  - cbn [solve_backtrack].
    replace (n self <=? 0) with true by (symmetry; apply Z.leb_le; lia).
    reflexivity.
  - intros H0. unfold solve_iterative. rewrite H0. reflexivity.
  - intros Hneg. unfold solve_iterative.
    replace (n self =? 0) with false by (symmetry; apply Z.eqb_neq; lia).
    cbn [iterative_loop unwind_positions]. change (0 >? 0) with false.
    cbn iota. rewrite bind_Ok. cbn [n set_board].
    rewrite range2_nil by lia. cbn [place_loop]. rewrite bind_Ok.
    eexists. split; [destruct fuel; reflexivity|]. cbn. auto.
  - cbn [solve_all_backtrack default].
    destruct (Z.eqb_spec 0 (n self)) as [H0|H0].
    + unfold collect_board. rewrite <- H0. change (range 0) with (@nil Z).
      cbn [collect_rows]. rewrite bind_Ok.
      eexists. split; [reflexivity|]. cbn. auto.
    + unfold range. rewrite seqZ_nil by lia. cbn [solve_all_loop].
      eexists. split; [reflexivity|]. cbn.
      replace (n self =? 0) with false by (symmetry; apply Z.eqb_neq; lia).
      rewrite app_nil_r. auto.
Qed.

(** Witness for X9 on a solver of size [-2]. *)
Lemma searches_on_nonpositive_size_witness :
  solve_backtrack 1 (mkSolver (-2) [] [] 0 0) 0
  = Ok (true, mkSolver (-2) [] [] 0 0) /\
  (-2 = 0 -> solve_iterative 1 (mkSolver (-2) [] [] 0 0)
             = Ok (true, mkSolver (-2) [] [] 0 0)) /\
  (-2 < 0 ->
   exists s', solve_iterative 1 (mkSolver (-2) [] [] 0 0) = Ok (false, s') /\
              backtrack_count s' = 0 + 1 /\
              board s' = [] /\ solutions s' = []) /\
  exists st,
    solve_all_backtrack 1 (mkSolver (-2) [] [] 0 0) 0 None None None = Ok st /\
    solutions (solver st) = [] ++ (if -2 =? 0 then [[]] else []) /\
    backtrack_count (solver st) = 0.
Proof.
  apply (searches_on_nonpositive_size (mkSolver (-2) [] [] 0 0) 1); simpl; lia.
Defined.

(** ** [is_safe] on arbitrary boards *)

(** X10: [is_safe] looks only at the rows above.  On an [N] x [N] board
    holding queens on any squares [qs], for a square of the board (the row
    may also be [N]), it returns without raising, and it returns [True]
    exactly when no queen standing on a row above [row] shares the column
    or a diagonal with [(row, col)]; queens on [row] itself or below are
    ignored. *)
Theorem is_safe_looks_above (N : Z) (qs : list (Z * Z)) (self : Solver)
    (row col : Z) :
  n self = N -> board self = board_of N qs ->
  0 <= row <= N -> 0 <= col < N ->
  exists b,
    is_safe self row col = Ok b /\
    (b = true <->
     forall i j, (i, j) ∈ qs -> 0 <= i < row -> 0 <= j < N ->
                 ~ attacks (i, j) (row, col)).
Proof.
  intros Hn Hb Hrow Hcol. unfold is_safe. rewrite Hb, Hn.
  rewrite (column_clear_spec N qs) by (auto using range_bounds; try lia;
    apply Forall_forall; intros i Hi; unfold range in Hi;
    apply elem_of_seqZ in Hi; lia).
  rewrite bind_Ok.
  destruct (diag_left_clear_spec N qs (Z.to_nat row) (row - 1) (col - 1))
    as (l & Hl & Hlspec); try lia.
  destruct (diag_right_clear_spec N qs (Z.to_nat row) (row - 1) (col + 1))
    as (r & Hr & Hrspec); try lia.
  assert (Hspec : (Forall (fun i => (i, col) ∉ qs) (range row) /\
                   l = true /\ r = true) <->
                  forall i j, (i, j) ∈ qs -> 0 <= i < row -> 0 <= j < N ->
                              ~ attacks (i, j) (row, col)).
  { rewrite Hlspec, Hrspec, Forall_forall. unfold attacks. cbn [fst snd]. split.
    - intros (Hc & Hdl & Hdr) i j Hin Hi Hj [Ha|[Ha|Ha]].
      + subst j. apply (Hc i); [|assumption]. unfold range.
        apply elem_of_seqZ. lia.
      + apply (Hdl (row - 1 - i)); try lia.
        replace (row - 1 - (row - 1 - i)) with i by lia.
        replace (col - 1 - (row - 1 - i)) with j by lia. assumption.
      + apply (Hdr (row - 1 - i)); try lia.
        replace (row - 1 - (row - 1 - i)) with i by lia.
        replace (col + 1 + (row - 1 - i)) with j by lia. assumption.
    - intros H. split; [|split].
      + intros i Hi Hin. unfold range in Hi. apply elem_of_seqZ in Hi.
        apply (H i col Hin); [lia | lia | left; reflexivity].
      + intros k ? ? ? Hin. apply (H _ _ Hin); [lia | lia | right; left; lia].
      + intros k ? ? ? Hin. apply (H _ _ Hin); [lia | lia | right; right; lia]. }
  case_bool_decide as Hc; cbn [negb].
  - rewrite Hl, bind_Ok. destruct l; cbn [negb].
    + rewrite Hr, bind_Ok. destruct r; cbn [negb]; eexists;
        (split; [reflexivity|]); rewrite <- Hspec.
      * tauto.
      * split; [discriminate | intros (_ & _ & ?); discriminate].
    + eexists. split; [reflexivity|]. rewrite <- Hspec.
      split; [discriminate | intros (_ & ? & _); discriminate].
  - eexists. split; [reflexivity|]. rewrite <- Hspec.
    split; [discriminate | tauto].
Qed.

(** Witness for X10: a queen below the tested row is ignored. *)
Lemma is_safe_looks_above_witness :
  exists b,
    is_safe (mkSolver 4 (board_of 4 [(2, 1); (0, 3)]) [] 0 0) 1 1 = Ok b /\
    (b = true <->
     forall i j, (i, j) ∈ [(2, 1); (0, 3)] -> 0 <= i < 1 -> 0 <= j < 4 ->
                 ~ attacks (i, j) (1, 1)).
Proof.
  apply (is_safe_looks_above 4 [(2, 1); (0, 3)]
           (mkSolver 4 (board_of 4 [(2, 1); (0, 3)]) [] 0 0) 1 1);
    [reflexivity | reflexivity | lia | lia].
Defined.

(** X11: bounds of [is_safe].  On row 0 it returns [True] for every solver
    and every column without reading the board; on a lower row of an
    [N] x [N] board a column [col >= N] makes the first board access raise
    [IndexError]. *)
Theorem is_safe_bounds (self : Solver) (N : Z) (f : Z -> Z -> Z) (row col : Z) :
  is_safe self 0 col = Ok true /\
  (board self = board_fn N f -> 1 <= row -> 0 < N -> N <= col ->
   is_safe self row col = Raise IndexError).
Proof.
  split; [reflexivity|]. intros Hb Hrow HN Hcol.
  unfold is_safe, range. rewrite seqZ_cons by lia. cbn [column_clear].
  rewrite Hb. unfold cell, board_fn.
  rewrite getitem_fmap_range by lia. rewrite bind_Ok.
  unfold getitem. rewrite length_fmap_range. unfold py_index.
  replace (col <? Z.max 0 N) with false by (symmetry; apply Z.ltb_ge; lia).
  replace (col <? 0) with false by (symmetry; apply Z.ltb_ge; lia).
  rewrite !andb_false_r. reflexivity.
Qed.

(** Witness for X11 on the empty 4 x 4 board. *)
Lemma is_safe_bounds_witness :
  is_safe (mkSolver 4 (empty_board 4) [] 0 0) 0 9 = Ok true /\
  is_safe (mkSolver 4 (empty_board 4) [] 0 0) 2 4 = Raise IndexError.
Proof.
  destruct (is_safe_bounds (mkSolver 4 (empty_board 4) [] 0 0) 4 (fun _ _ => 0) 2 4)
    as [H0 H1].
  split.
  - apply (is_safe_bounds (mkSolver 4 (empty_board 4) [] 0 0) 4 (fun _ _ => 0) 2 9).
  - apply H1; [reflexivity | lia | lia | lia].
Defined.

(** ** Displaying a solution *)

Lemma board_of_ext (N : Z) (qs qs' : list (Z * Z)) :
  (forall i j, 0 <= i < N -> 0 <= j < N -> ((i, j) ∈ qs <-> (i, j) ∈ qs')) ->
  board_of N qs = board_of N qs'.
Proof.
  intros H. apply board_fn_ext. intros i j Hi Hj. apply has_queen_ext. auto.
Qed.

Lemma mark_queens_spec (N : Z) (sol : list (Z * Z)) :
  Forall (fun p => 0 <= p.1 < N /\ 0 <= p.2 < N) sol ->
  forall acc, mark_queens (board_of N acc) sol
              = Ok (board_of N (reverse sol ++ acc)).
Proof.
  induction 1 as [|[r c] sol Hp Hsol IH]; intros acc; cbn [mark_queens].
  - reflexivity.
  - cbn [fst snd] in Hp. rewrite board_set_place by lia. rewrite bind_Ok, IH.
    rewrite reverse_cons, <- app_assoc. reflexivity.
Qed.

Lemma elem_of_row_major (N : Z) (qs : list (Z * Z)) (i j : Z) :
  (i, j) ∈ row_major N qs (range N) <->
  0 <= i < N /\ 0 <= j < N /\ (i, j) ∈ qs.
Proof.
  unfold row_major, range. rewrite list_elem_of_bind. split.
  - intros (r & Hin & Hr). apply elem_of_seqZ in Hr.
    apply list_elem_of_fmap in Hin as (c & Heq & Hc). inversion Heq; subst.
    apply list_elem_of_filter in Hc as [Hq Hc]. apply elem_of_seqZ in Hc.
    repeat split; auto; lia.
  - intros (Hi & Hj & Hq). exists i. split; [|apply elem_of_seqZ; lia].
    apply list_elem_of_fmap. exists j. split; [reflexivity|].
    apply list_elem_of_filter. split; [assumption | apply elem_of_seqZ; lia].
Qed.

(** X12: showing the queens read off the board shows the board.  For a
    solver whose board holds queens on any set of squares, the list [sol]
    collected from the board (row by row, as [main] and the exhaustive
    search do) rebuilds that very board in [display_board] and
    [display_compact_board], so displaying [sol] prints what displaying the
    solver's own board prints. *)
Theorem display_collected_solution (N : Z) (qs : list (Z * Z)) (self : Solver) :
  n self = N -> board self = board_of N qs ->
  exists sol,
    collect_board self = Ok sol /\
    board_to_show self (Some sol) = Ok (board self) /\
    display_compact_board self (Some sol) = display_compact_board self None.
Proof.
  intros Hn Hb. exists (row_major N qs (range N)).
  assert (Hcollect : collect_board self = Ok (row_major N qs (range N))).
  { unfold collect_board. rewrite Hb, Hn.
    rewrite collect_rows_spec by apply range_bounds. reflexivity. }
  assert (Hshow : board_to_show self (Some (row_major N qs (range N)))
                  = Ok (board self)).
  { unfold board_to_show.
    destruct (row_major N qs (range N)) as [|p sol] eqn:Hsol; [reflexivity|].
    rewrite <- Hsol, Hn, empty_board_of, mark_queens_spec.
    - rewrite Hb. f_equal. apply board_of_ext. intros i j Hi Hj.
      rewrite app_nil_r, reverse_Permutation, elem_of_row_major. tauto.
    - apply Forall_forall. intros [i j] Hin.
      apply elem_of_row_major in Hin. simpl. lia. }
  split; [exact Hcollect|]. split; [exact Hshow|].
  unfold display_compact_board. rewrite Hshow. reflexivity.
Qed.

(** Witness for X12: a 3 x 3 board with two queens. *)
Lemma display_collected_solution_witness :
  exists sol,
    collect_board (mkSolver 3 (board_of 3 [(2, 0); (0, 1)]) [] 0 0) = Ok sol /\
    board_to_show (mkSolver 3 (board_of 3 [(2, 0); (0, 1)]) [] 0 0) (Some sol)
    = Ok (board_of 3 [(2, 0); (0, 1)]) /\
    display_compact_board (mkSolver 3 (board_of 3 [(2, 0); (0, 1)]) [] 0 0)
      (Some sol)
    = display_compact_board (mkSolver 3 (board_of 3 [(2, 0); (0, 1)]) [] 0 0) None.
Proof.
  apply (display_collected_solution 3 [(2, 0); (0, 1)]); reflexivity.
Defined.

(** ** Coordinates the display accepts *)

Lemma py_index_wrap (len i : Z) :
  - len <= i < 0 -> py_index len i = py_index len (i + len).
Proof.
  intros H. unfold py_index.
  replace (0 <=? i) with false by (symmetry; apply Z.leb_gt; lia).
  replace (- len <=? i) with true by (symmetry; apply Z.leb_le; lia).
  replace (i <? 0) with true by (symmetry; apply Z.ltb_lt; lia).
  replace (0 <=? i + len) with true by (symmetry; apply Z.leb_le; lia).
  replace (i + len <? len) with true by (symmetry; apply Z.ltb_lt; lia).
  reflexivity.
Qed.

Lemma py_index_raise (len i : Z) :
  0 <= len -> ~ index_ok len i -> py_index len i = Raise IndexError.
Proof.
  unfold index_ok, py_index. intros Hlen H.
  destruct (Z.leb_spec 0 i); destruct (Z.ltb_spec i len);
    destruct (Z.leb_spec (- len) i); destruct (Z.ltb_spec i 0);
    cbn [andb]; try reflexivity; lia.
Qed.

(** The index Python reads for [i]. *)
Lemma board_set_index (N : Z) (f : Z -> Z -> Z) (i j v : Z) :
  0 <= N -> index_ok N i -> index_ok N j ->
  exists f', board_set (board_fn N f) i j v = Ok (board_fn N f').
Proof.
  intros HN Hi Hj.
  assert (Hnorm : forall k, index_ok N k ->
            exists k', 0 <= k' < N /\
              forall A (l : list A), Z.of_nat (length l) = N ->
                getitem l k = getitem l k' /\
                forall x, setitem l k x = setitem l k' x).
  { intros k Hk. unfold index_ok in Hk. destruct (Z.lt_ge_cases k 0).
    - exists (k + N). split; [lia|]. intros A l Hlen. unfold getitem, setitem.
      rewrite Hlen, py_index_wrap by lia. auto.
    - exists k. split; [lia|]. auto. }
  destruct (Hnorm i Hi) as (i' & Hi' & Hgi).
  destruct (Hnorm j Hj) as (j' & Hj' & Hgj).
  exists (fun a b => if (a =? i') && (b =? j') then v else f a b).
  rewrite <- (board_set_board_fn N f i' j' v) by lia.
  unfold board_set, board_fn.
  destruct (Hgi _ ((fun i0 => (fun j0 => f i0 j0) <$> range N) <$> range N))
    as [-> Hset]; [rewrite length_fmap_range; lia|].
  rewrite getitem_fmap_range by lia. rewrite !bind_Ok.
  destruct (Hgj _ ((fun j0 => f i' j0) <$> range N)) as [_ ->];
    [rewrite length_fmap_range; lia|].
  destruct (setitem _ j' v); cbn; auto.
Qed.

Lemma board_set_raise (N : Z) (f : Z -> Z -> Z) (i j v : Z) :
  0 <= N -> ~ (index_ok N i /\ index_ok N j) ->
  board_set (board_fn N f) i j v = Raise IndexError.
Proof.
  intros HN Hbad. unfold board_set.
  destruct (decide (index_ok N i)) as [Hi|Hi].
  - assert (Hj : ~ index_ok N j) by tauto.
    assert (Hrow : exists r, getitem (board_fn N f) i = Ok r /\
                             Z.of_nat (length r) = N).
    { unfold index_ok in Hi. unfold board_fn, getitem.
      rewrite length_fmap_range, Z.max_r by lia.
      destruct (Z.lt_ge_cases i 0).
      - rewrite py_index_wrap, py_index_in_range by lia. rewrite bind_Ok.
        rewrite lookup_fmap_range by lia. eexists. split; [reflexivity|].
        rewrite length_fmap_range. lia.
      - rewrite py_index_in_range by lia. rewrite bind_Ok.
        rewrite lookup_fmap_range by lia. eexists. split; [reflexivity|].
        rewrite length_fmap_range. lia. }
    destruct Hrow as (r & -> & Hlen). rewrite bind_Ok.
    unfold setitem. rewrite Hlen. rewrite (py_index_raise N j HN Hj). reflexivity.
  - unfold getitem, board_fn. rewrite length_fmap_range, Z.max_r by lia.
    rewrite py_index_raise by assumption. reflexivity.
Qed.

Lemma mark_queens_index (N : Z) (sol : list (Z * Z)) :
  0 <= N ->
  forall f,
  (Forall (fun p => index_ok N p.1 /\ index_ok N p.2) sol ->
   exists f', mark_queens (board_fn N f) sol = Ok (board_fn N f')) /\
  (~ Forall (fun p => index_ok N p.1 /\ index_ok N p.2) sol ->
   mark_queens (board_fn N f) sol = Raise IndexError).
Proof.
  intros HN. induction sol as [|[r c] sol IH]; intros f; cbn [mark_queens].
  - split; [eauto|]. intros H. exfalso. apply H. constructor.
  - rewrite Forall_cons. cbn [fst snd].
    destruct (decide (index_ok N r /\ index_ok N c)) as [[Hr Hc]|Hbad].
    + destruct (board_set_index N f r c 1 HN Hr Hc) as [f' ->].
      rewrite bind_Ok. destruct (IH f') as [IH1 IH2]. split.
      * intros [_ H]. auto.
      * intros H. apply IH2. tauto.
    + rewrite board_set_raise by assumption. split; [tauto | reflexivity].
Qed.

(** X13: which candidates the display accepts.  Given a non-empty
    candidate, [display_board] and [display_compact_board] build their
    board without raising exactly when every coordinate is an index Python
    accepts for a list of length [n], that is lies in [-n .. n-1]
    (negative ones wrap around); otherwise marking the queens raises
    [IndexError]. *)
Theorem board_to_show_index_error (self : Solver) (p : Z * Z) (sol : list (Z * Z)) :
  0 <= n self ->
  (Forall (fun q => index_ok (n self) q.1 /\ index_ok (n self) q.2) (p :: sol) ->
   exists b, board_to_show self (Some (p :: sol)) = Ok b) /\
  (~ Forall (fun q => index_ok (n self) q.1 /\ index_ok (n self) q.2) (p :: sol) ->
   board_to_show self (Some (p :: sol)) = Raise IndexError).
Proof.
  intros Hn. unfold board_to_show. rewrite empty_board_fn.
  destruct (mark_queens_index (n self) (p :: sol) Hn (fun _ _ => 0)) as [H1 H2].
  split; [|exact H2]. intros H. destruct (H1 H) as [f' ->]. eauto.
Qed.

(** Witness for X13: the candidate accepted by [validate_solution] for
    size 4 although its first row is 10 cannot be displayed. *)
Lemma board_to_show_index_error_witness :
  (Forall (fun q => index_ok 4 q.1 /\ index_ok 4 q.2)
     [(10, 1); (1, 3); (2, 0); (3, 2)] ->
   exists b, board_to_show (mkSolver 4 (empty_board 4) [] 0 0)
               (Some [(10, 1); (1, 3); (2, 0); (3, 2)]) = Ok b) /\
  (~ Forall (fun q => index_ok 4 q.1 /\ index_ok 4 q.2)
       [(10, 1); (1, 3); (2, 0); (3, 2)] ->
   board_to_show (mkSolver 4 (empty_board 4) [] 0 0)
     (Some [(10, 1); (1, 3); (2, 0); (3, 2)]) = Raise IndexError).
Proof.
  apply (board_to_show_index_error (mkSolver 4 (empty_board 4) [] 0 0)). simpl. lia.
Defined.

(** ** The prompt for the board size *)

(** X14: [get_board_size] returns only sizes between 4 and 20: the value it
    returns is the first acceptable answer, every answer before it was
    rejected with one message each, and the loop keeps asking (here: the
    answers run out) exactly when no answer is acceptable. *)
Theorem get_board_size_first_acceptable (inputs : list (option Z)) :
  (get_board_size inputs = None <-> Forall rejected inputs) /\
  forall size messages rest,
    get_board_size inputs = Some (size, messages, rest) ->
    4 <= size <= 20 /\
    exists skipped,
      inputs = skipped ++ Some size :: rest /\
      Forall rejected skipped /\ length messages = length skipped.
Proof.
  induction inputs as [|answer inputs [IHnone IHsome]]; cbn [get_board_size].
  - split; [split; [constructor | reflexivity] | discriminate].
  - rewrite Forall_cons. destruct answer as [v|]; cbn [rejected].
    + destruct (Z.leb_spec 4 v) as [H4|H4]; destruct (Z.leb_spec v 20) as [H20|H20];
        cbn [andb].
      * split; [split; [discriminate | intros [? _]; lia]|].
        intros size messages rest Heq. inversion Heq; subst.
        split; [lia|]. exists []. repeat split. constructor.
      * destruct (get_board_size inputs) as [[[r ms] rs]|]; cbn.
        -- split; [split; [discriminate | intros [_ H]; apply IHnone in H; discriminate]|].
           intros size messages rest Heq. inversion Heq; subst.
           destruct (IHsome size ms rest eq_refl) as (Hr & skipped & -> & Hrej & Hlen).
           split; [assumption|]. exists (Some v :: skipped).
           repeat split; [constructor; [cbn; lia | assumption] | cbn; lia].
        -- split; [|discriminate]. split; [|reflexivity].
           intros _. split; [lia | apply IHnone; reflexivity].
      * destruct (get_board_size inputs) as [[[r ms] rs]|]; cbn.
        -- split; [split; [discriminate | intros [_ H]; apply IHnone in H; discriminate]|].
           intros size messages rest Heq. inversion Heq; subst.
           destruct (IHsome size ms rest eq_refl) as (Hr & skipped & -> & Hrej & Hlen).
           split; [assumption|]. exists (Some v :: skipped).
           repeat split; [constructor; [cbn; lia | assumption] | cbn; lia].
        -- split; [|discriminate]. split; [|reflexivity].
           intros _. split; [lia | apply IHnone; reflexivity].
      * lia.
    + destruct (get_board_size inputs) as [[[r ms] rs]|]; cbn.
      * split; [split; [discriminate | intros [_ H]; apply IHnone in H; discriminate]|].
        intros size messages rest Heq. inversion Heq; subst.
        destruct (IHsome size ms rest eq_refl) as (Hr & skipped & -> & Hrej & Hlen).
        split; [assumption|]. exists (None :: skipped).
        repeat split; [constructor; [exact I | assumption] | cbn; lia].
      * split; [|discriminate]. split; [|reflexivity].
        intros _. split; [exact I | apply IHnone; reflexivity].
Qed.

(** ** The iterative search on its own *)

Lemma solve_iterative_search (N : Z) (self : Solver) :
  0 < N -> n self = N -> board self = empty_board N ->
  exists steps,
    iter_post N self [] [] (search N (Z.to_nat N) 0 [])
      (fun fuel => solve_iterative (steps + fuel) self).
Proof.
  intros HN Hn Hb.
  destruct (iterative_frame N (Z.to_nat (N - 1)) 0 ltac:(lia) (Z.to_nat N) 0
              ltac:(lia) ltac:(lia) [] [] 0 self [] (placed_nil N) (placed_nil N)
              ltac:(lia) Hn ltac:(rewrite Hb; apply empty_board_of))
    as [steps Hit].
  rewrite range2_0 in Hit. cbn [app] in Hit.
  change (first_column (search N (Z.to_nat (N - 1)) (0 + 1)) [] 0 (range N))
    with (search N (S (Z.to_nat (N - 1))) 0 []) in Hit.
  replace (S (Z.to_nat (N - 1))) with (Z.to_nat N) in Hit by lia.
  exists steps. unfold iter_post in *.
  assert (Hsolve : forall fuel, solve_iterative fuel self
                                = iterative_loop fuel self [(0, 0)] []).
  { intros fuel. unfold solve_iterative. rewrite Hn.
    replace (N =? 0) with false by (symmetry; apply Z.eqb_neq; lia).
    reflexivity. }
  destruct (search N (Z.to_nat N) 0 []) as [qs|];
    destruct Hit as (s' & Hrun & Hf & Hb'); exists s';
    (split; [|split; assumption]); intros fuel; rewrite Hsolve; apply Hrun.
Qed.

Lemma search_top_solution (N : Z) (qs : list (Z * Z)) :
  0 <= N -> search N (Z.to_nat N) 0 [] = Some qs ->
  placed N N qs /\ is_solution N (reverse qs).
Proof.
  intros HN Hs. apply search_sound in Hs as [Hp Hna]; [|constructor|exact I].
  replace (0 + Z.of_nat (Z.to_nat N)) with N in Hp by lia.
  split; [assumption|]. apply is_solution_reverse, placed_solution; assumption.
Qed.

Lemma search_top_complete (N : Z) :
  0 <= N -> (exists sol, is_solution N sol) ->
  is_Some (search N (Z.to_nat N) 0 []).
Proof.
  intros HN [sol Hsol]. apply (search_complete N sol Hsol); [lia | constructor|].
  intros q Hq. apply elem_of_nil in Hq. contradiction.
Qed.

(** X15: the contract of [solve_iterative].  Started on an all-zero board
    of size [N > 0] it terminates; it returns [True] exactly when the
    N-Queens problem has a solution, leaving a solution accepted by
    [validate_solution] on the board; on [False] the board is all zeros
    again; [solutions] and [solution_count] are never touched and
    [backtrack_count] never decreases. *)
Theorem solve_iterative_contract (self : Solver) :
  0 < n self -> board self = empty_board (n self) ->
  exists steps found s',
    (forall fuel, solve_iterative (steps + fuel) self = Ok (found, s')) /\
    (found = true <-> exists sol, is_solution (n self) sol) /\
    (found = true ->
     exists sol, collect_board s' = Ok sol /\ is_solution (n self) sol /\
                 validate_solution s' sol = true) /\
    (found = false -> board s' = board self) /\
    solutions s' = solutions self /\ solution_count s' = solution_count self /\
    backtrack_count self <= backtrack_count s'.
Proof.
  intros HN Hb.
  destruct (solve_iterative_search (n self) self HN eq_refl Hb) as [steps Hit].
  pose proof (search_top_solution (n self)) as Hsound.
  pose proof (search_top_complete (n self) ltac:(lia)) as Hcomplete.
  unfold iter_post in Hit. exists steps.
  destruct (search (n self) (Z.to_nat (n self)) 0 []) as [qs|].
  - destruct Hit as (s' & Hrun & (Hn' & Hsols & Hcount & Hbc) & Hb').
    destruct (Hsound qs ltac:(lia) eq_refl) as [Hp Hsol].
    exists true, s'. split; [exact Hrun|].
    split; [split; [eauto | reflexivity]|].
    split; [|split; [discriminate | auto]].
    intros _. exists (reverse qs). split; [|split; [assumption|]].
    + apply (collect_board_placed (n self)); assumption.
    + apply solution_validates. rewrite Hn'. assumption.
  - destruct Hit as (s' & Hrun & (Hn' & Hsols & Hcount & Hbc) & Hb').
    exists false, s'. split.
    { intros fuel. rewrite Hrun. destruct fuel; reflexivity. }
    split; [split; [discriminate|]|].
    { intros Hex. apply Hcomplete in Hex as [? ?]. discriminate. }
    split; [discriminate|]. split; [|auto].
    intros _. rewrite Hb', Hb. symmetry. apply empty_board_of.
Qed.

(** Witness for X15: a 4 x 4 solver that has been used before. *)
Lemma solve_iterative_contract_witness :
  exists steps found s',
    (forall fuel, solve_iterative (steps + fuel)
                    (mkSolver 4 (empty_board 4) [[(0, 0)]] 1 3) = Ok (found, s')) /\
    (found = true <-> exists sol, is_solution 4 sol) /\
    (found = true ->
     exists sol, collect_board s' = Ok sol /\ is_solution 4 sol /\
                 validate_solution s' sol = true) /\
    (found = false -> board s' = empty_board 4) /\
    solutions s' = [[(0, 0)]] /\ solution_count s' = 1 /\
    3 <= backtrack_count s'.
Proof.
  apply (solve_iterative_contract (mkSolver 4 (empty_board 4) [[(0, 0)]] 1 3));
    [simpl; lia | reflexivity].
Defined.

(** ** [main] *)

Lemma outcome_map_ok {A B} (f : A -> outcome B) (g : A -> B) (l : list A) :
  (forall x, x ∈ l -> f x = Ok (g x)) -> outcome_map f l = Ok (g <$> l).
Proof.
  induction l as [|x l IH]; intros H; cbn [outcome_map]; [reflexivity|].
  rewrite H by left. rewrite bind_Ok, IH by (intros y Hy; apply H; right; exact Hy).
  reflexivity.
Qed.

Lemma getitem_lookup {A} (l : list A) (i : nat) (x : A) :
  l !! i = Some x -> getitem l (Z.of_nat i) = Ok x.
Proof.
  intros Hx. unfold getitem. apply lookup_lt_Some in Hx as Hlt.
  rewrite py_index_in_range by lia. rewrite bind_Ok, Nat2Z.id, Hx. reflexivity.
Qed.

Lemma display_compact_board_solution (self : Solver) (sol : list (Z * Z)) :
  sol <> [] ->
  Forall (fun p => 0 <= p.1 < n self /\ 0 <= p.2 < n self) sol ->
  display_compact_board self (Some sol) = Ok (render (n self) sol).
Proof.
  intros Hne Hrange. unfold display_compact_board, board_to_show.
  destruct sol as [|p sol]; [congruence|].
  rewrite empty_board_of, mark_queens_spec by assumption. rewrite bind_Ok.
  unfold render. apply outcome_map_ok. intros i Hi.
  unfold range in Hi. apply elem_of_seqZ in Hi.
  unfold glyph_row. rewrite (outcome_map_ok _
    (fun j => if has_queen (p :: sol) i j =? 1 then GlyphQ else GlyphDot));
    [reflexivity|].
  intros j Hj. unfold range in Hj. apply elem_of_seqZ in Hj.
  rewrite cell_board_of by lia. rewrite bind_Ok. f_equal.
  rewrite (has_queen_ext (reverse (p :: sol) ++ []) (p :: sol) i j);
    [reflexivity|].
  rewrite app_nil_r, reverse_Permutation. reflexivity.
Qed.

Lemma outcome_map_app {A B} (f : A -> outcome B) (l1 l2 : list A) :
  outcome_map f (l1 ++ l2)
  = (xs ← outcome_map f l1; ys ← outcome_map f l2; Ok (xs ++ ys)).
Proof.
  induction l1 as [|x l1 IH]; cbn [app outcome_map].
  - rewrite bind_Ok. destruct (outcome_map f l2); reflexivity.
  - destruct (f x) as [y| |]; try reflexivity. rewrite !bind_Ok, IH.
    destruct (outcome_map f l1) as [xs| |]; try reflexivity. rewrite !bind_Ok.
    destruct (outcome_map f l2) as [ys| |]; reflexivity.
Qed.

Lemma show_first_solutions {A B} (g : A -> outcome B) (h : A -> B) (l : list A)
    (k : nat) :
  (forall x, x ∈ l -> g x = Ok (h x)) -> (k <= length l)%nat ->
  outcome_map (fun i => x ← getitem l i; g x) (range (Z.of_nat k))
  = Ok (h <$> take k l).
Proof.
  intros Hg. induction k as [|k IH]; intros Hk; [reflexivity|].
  unfold range in *. rewrite seqZ_S, outcome_map_app, IH by lia.
  rewrite bind_Ok. cbn [outcome_map].
  destruct (lookup_lt_is_Some_2 l k ltac:(lia)) as [x Hx].
  replace (0 + Z.of_nat k) with (Z.of_nat k) by lia.
  rewrite (getitem_lookup _ _ _ Hx), bind_Ok.
  rewrite (Hg x) by (eapply list_elem_of_lookup_2; eauto).
  rewrite !bind_Ok. rewrite (take_S_r _ _ _ Hx), fmap_app. reflexivity.
Qed.

Lemma search_top_unsolvable (N : Z) :
  N = 2 \/ N = 3 -> search N (Z.to_nat N) 0 [] = None.
Proof.
  intros [-> | ->]; [apply search_unsolvable_2 | apply search_unsolvable_3].
Qed.

Lemma search_top_solvable (N : Z) :
  N = 1 \/ 4 <= N -> is_Some (search N (Z.to_nat N) 0 []).
Proof.
  intros HN. apply search_top_complete; [lia|]. apply solution_exists. exact HN.
Qed.

(** X16: method 1 of [main].  For a board of size 2 or 3 it reports that
    no solution exists; for every other positive size (in particular for
    every size [get_board_size] lets through) it finds a solution, reads
    it off the board, and the validation it then runs succeeds: the
    message that validation failed is never printed. *)
Theorem main_first_solution_report (size : Z) (fuel : nat) :
  0 < size -> (Z.to_nat size < fuel)%nat ->
  (size = 2 \/ size = 3 -> main_first_solution fuel size = Ok NoSolutionExists) /\
  (size = 1 \/ 4 <= size ->
   exists sol, main_first_solution fuel size = Ok (SolutionFound sol true) /\
               is_solution size sol).
Proof.
  intros Hsize Hfuel. unfold main_first_solution, init. rewrite bind_Ok.
  pose proof (solve_backtrack_refines size (Z.to_nat size) fuel 0 []
                (mkSolver size (empty_board size) [] 0 0) Hfuel ltac:(lia)
                (placed_nil size) eq_refl (empty_board_of size)) as Hpost.
  unfold first_post in Hpost. split.
  - intros H23. rewrite (search_top_unsolvable size H23) in Hpost.
    destruct Hpost as (s' & -> & _). reflexivity.
  - intros Hok. destruct (search_top_solvable size Hok) as [qs Hs].
    rewrite Hs in Hpost. destruct Hpost as (s' & -> & (Hn & _) & Hb).
    destruct (search_top_solution size qs ltac:(lia) Hs) as [Hp Hsol].
    rewrite bind_Ok. cbn iota beta. rewrite Hb.
    rewrite collect_rows_spec by apply range_bounds.
    rewrite row_major_placed by (auto; lia). rewrite bind_Ok. cbn [app].
    exists (reverse qs). split; [|assumption].
    rewrite solution_validates; [reflexivity|]. rewrite Hn. assumption.
Qed.

(** Witness for X16 on the 8 x 8 board. *)
Lemma main_first_solution_report_witness :
  (8 = 2 \/ 8 = 3 -> main_first_solution 9 8 = Ok NoSolutionExists) /\
  (8 = 1 \/ 4 <= 8 ->
   exists sol, main_first_solution 9 8 = Ok (SolutionFound sol true) /\
               is_solution 8 sol).
Proof.
  apply (main_first_solution_report 8 9); [lia | vm_compute; lia].
Defined.

(** X17: method 3 of [main].  The iterative search terminates for every
    positive size and reports a solution for every size but 2 and 3. *)
Theorem main_iterative_report (size : Z) :
  0 < size ->
  exists steps, forall fuel,
    main_iterative (steps + fuel) size
    = Ok (if bool_decide (size = 2 \/ size = 3) then NoSolutionExists
          else IterativeSolutionFound).
Proof.
  intros Hsize.
  destruct (solve_iterative_search size (mkSolver size (empty_board size) [] 0 0)
              Hsize eq_refl eq_refl) as [steps Hit].
  exists steps. intros fuel. unfold main_iterative, init. rewrite bind_Ok.
  unfold iter_post in Hit. case_bool_decide as H23.
  - rewrite (search_top_unsolvable size H23) in Hit.
    destruct Hit as (s' & Hrun & _). rewrite Hrun.
    destruct fuel; reflexivity.
  - destruct (search_top_solvable size ltac:(lia)) as [qs Hs].
    rewrite Hs in Hit. destruct Hit as (s' & Hrun & _). rewrite Hrun. reflexivity.
Qed.

(** Witness for X17 on the 6 x 6 board. *)
Lemma main_iterative_report_witness :
  exists steps, forall fuel,
    main_iterative (steps + fuel) 6
    = Ok (if bool_decide (6 = 2 \/ 6 = 3) then NoSolutionExists
          else IterativeSolutionFound).
Proof. apply (main_iterative_report 6). lia. Defined.

Lemma take_min_length {A} (l : list A) (k : nat) :
  take (k `min` length l) l = take k l.
Proof.
  destruct (Nat.le_gt_cases k (length l)) as [Hle|Hgt].
  - rewrite Nat.min_l by assumption. reflexivity.
  - rewrite Nat.min_r by lia. rewrite !take_ge by lia. reflexivity.
Qed.

(** X18: method 2 of [main].  For size 2 or 3 it reports that no solutions
    exist.  For every other positive size the exhaustive search records
    exactly the solutions of the problem; the report gives their number as
    [solutions_found], displays the first three of them, announces the
    remaining ones when there are more than three, and for [n <= 8] adds
    the symmetry analysis, whose two counts both equal that number. *)
Theorem main_all_solutions_report (size : Z) (fuel : nat) :
  0 < size -> (Z.to_nat size < fuel)%nat ->
  (size = 2 \/ size = 3 -> main_all_solutions fuel size = Ok NoSolutionsExist) /\
  (size = 1 \/ 4 <= size ->
   exists sols backtracks,
     sols <> [] /\
     (forall sol, sol ∈ sols <-> is_solution size sol /\ rows_ascending sol) /\
     main_all_solutions fuel size
     = Ok (AllSolutionsFound
             (mkStatistics size (Z.of_nat (length sols)) backtracks)
             (render size <$> take 3 sols)
             (if Z.of_nat (length sols) >? 3
              then Some (Z.of_nat (length sols) - 3) else None)
             (if size <=? 8 then Some (length sols, length sols) else None))).
Proof.
  intros Hsize Hfuel. unfold main_all_solutions, init. rewrite bind_Ok.
  destruct (solve_all_solutions size fuel Hfuel) as (st & -> & Hn & Hsols & Hcount).
  rewrite bind_Ok. cbn zeta.
  pose proof (search_head size (Z.to_nat size) 0 []) as Hhead.
  assert (Hall : all_placements size = enumerate size (Z.to_nat size) 0 []).
  { unfold all_placements.
    replace (size <? 0) with false by (symmetry; apply Z.ltb_ge; lia). reflexivity. }
  split.
  - intros H23. rewrite (search_top_unsolvable size H23) in Hhead.
    rewrite Hsols, Hall. destruct (enumerate size (Z.to_nat size) 0 []);
      [reflexivity | discriminate].
  - intros Hok. destruct (search_top_solvable size Hok) as [qs Hs].
    rewrite Hs in Hhead.
    exists (solutions (solver st)), (backtrack_count (solver st)).
    assert (Hne : solutions (solver st) <> []).
    { rewrite Hsols, Hall. destruct (enumerate size (Z.to_nat size) 0 []);
        [discriminate | cbn; discriminate]. }
    assert (Hspec : forall sol, sol ∈ solutions (solver st)
                                -> is_solution size sol /\ rows_ascending sol).
    { intros sol. rewrite Hsols, list_elem_of_fmap.
      intros (qs' & -> & Hqs). apply all_placements_solutions. assumption. }
    split; [exact Hne|]. split.
    { intros sol. split; [apply Hspec|]. intros [Hsol Hasc].
      rewrite Hsols, list_elem_of_fmap. exists (reverse sol). split.
      - symmetry. apply reverse_involutive.
      - apply solution_enumerated; assumption. }
    destruct (solutions (solver st)) as [|s0 rest] eqn:Hlist; [congruence|].
    rewrite <- Hlist in *.
    replace (Z.min 3 (Z.of_nat (length (solutions (solver st)))))
      with (Z.of_nat (3 `min` length (solutions (solver st)))) by lia.
    rewrite (show_first_solutions _ (render size)).
    + rewrite bind_Ok, take_min_length. f_equal.
      assert (Hcnt : solution_count (solver st)
                     = Z.of_nat (length (solutions (solver st)))).
      { rewrite Hcount, Hsols, length_fmap. reflexivity. }
      unfold get_statistics. rewrite Hn, Hcnt.
      assert (Hsym : analyze_symmetry (solutions (solver st)) size
                     = Some (length (solutions (solver st)),
                            length (solutions (solver st)))).
      { unfold analyze_symmetry. rewrite Hlist at 1. rewrite unique_solutions_size.
        - reflexivity.
        - rewrite Hsols. apply solutions_NoDup.
        - apply Forall_forall. intros sol Hsol. apply Hspec. assumption. }
      rewrite Hsym. f_equal.
      destruct (Z.gtb_spec (Z.of_nat (length (solutions (solver st)))) 3);
        destruct (Z.gtb_spec (Z.of_nat (length (solutions (solver st))))
                    (Z.of_nat (3 `min` length (solutions (solver st)))));
        try lia; [f_equal; lia | reflexivity].
    + intros sol Hsol. rewrite <- Hn.
      apply display_compact_board_solution.
      * intros ->. apply Hspec in Hsol as [(Hlen & _) _]. simpl in Hlen. lia.
      * apply Hspec in Hsol as [(_ & _ & Hrange & _) _].
        apply Forall_forall. rewrite Hn. exact Hrange.
    + lia.
Qed.

(** Witness for X18 on the 5 x 5 board. *)
Lemma main_all_solutions_report_witness :
  (5 = 2 \/ 5 = 3 -> main_all_solutions 6 5 = Ok NoSolutionsExist) /\
  (5 = 1 \/ 4 <= 5 ->
   exists sols backtracks,
     sols <> [] /\
     (forall sol, sol ∈ sols <-> is_solution 5 sol /\ rows_ascending sol) /\
     main_all_solutions 6 5
     = Ok (AllSolutionsFound
             (mkStatistics 5 (Z.of_nat (length sols)) backtracks)
             (render 5 <$> take 3 sols)
             (if Z.of_nat (length sols) >? 3
              then Some (Z.of_nat (length sols) - 3) else None)
             (if 5 <=? 8 then Some (length sols, length sols) else None))).
Proof.
  apply (main_all_solutions_report 5 6); [lia | vm_compute; lia].
Defined.

(** ** The benchmark *)

Lemma all_placements_count_9 : length (all_placements 9) = 352%nat.
Proof. vm_compute. reflexivity. Qed.

Lemma benchmark_row (size : Z) (c : nat) (fuel : nat) :
  length (all_placements size) = c ->
  get_known_solution_counts !! size = Some (Z.of_nat c) ->
  (Z.to_nat size < fuel)%nat ->
  exists backtracks,
    (slv ← init size;
     st ← solve_all_backtrack fuel slv 0 None None None;
     Ok (mkBenchmarkRow size (solution_count (solver st))
           (backtrack_count (solver st))
           (bool_decide (Some (solution_count (solver st))
                         = get_known_solution_counts !! size))))
    = Ok (mkBenchmarkRow size (Z.of_nat c) backtracks true).
Proof.
  intros Hc Hknown Hfuel. unfold init. rewrite bind_Ok.
  destruct (solve_all_solutions size fuel Hfuel) as (st & -> & _ & _ & Hcount).
  rewrite bind_Ok, Hcount, Hc, Hknown.
  rewrite bool_decide_eq_true_2 by reflexivity. eauto.
Qed.

(** X19: the table of [benchmark_different_sizes].  The benchmark runs the
    sizes 4 to 9, one exhaustive search each on a fresh solver, none of
    them raising; the solution counts it prints are 2, 10, 4, 40, 92, 352
    and every one of them equals the entry of
    [get_known_solution_counts]. *)
Theorem benchmark_matches_known_counts (fuel : nat) :
  (9 < fuel)%nat ->
  exists rows,
    benchmark_different_sizes fuel = Ok rows /\
    (fun r => (bench_n r, bench_solutions r, bench_matches r)) <$> rows
    = [(4, 2, true); (5, 10, true); (6, 4, true); (7, 40, true);
       (8, 92, true); (9, 352, true)].
Proof.
  intros Hfuel. unfold benchmark_different_sizes.
  change (range2 4 (Z.min 10 15)) with [4; 5; 6; 7; 8; 9].
  destruct all_placements_count as (H4 & H5 & H6 & H7 & H8).
  destruct (benchmark_row 4 2 fuel H4 eq_refl ltac:(lia)) as [b4 E4].
  destruct (benchmark_row 5 10 fuel H5 eq_refl ltac:(lia)) as [b5 E5].
  destruct (benchmark_row 6 4 fuel H6 eq_refl ltac:(lia)) as [b6 E6].
  destruct (benchmark_row 7 40 fuel H7 eq_refl ltac:(lia)) as [b7 E7].
  destruct (benchmark_row 8 92 fuel H8 eq_refl ltac:(lia)) as [b8 E8].
  destruct (benchmark_row 9 352 fuel all_placements_count_9 eq_refl ltac:(lia))
    as [b9 E9].
  cbn [outcome_map]. rewrite E4, E5, E6, E7, E8, E9. rewrite !bind_Ok.
  eexists. split; reflexivity.
Qed.

(** Witness for X19 with fuel 10. *)
Lemma benchmark_matches_known_counts_witness :
  exists rows,
    benchmark_different_sizes 10 = Ok rows /\
    (fun r => (bench_n r, bench_solutions r, bench_matches r)) <$> rows
    = [(4, 2, true); (5, 10, true); (6, 4, true); (7, 40, true);
       (8, 92, true); (9, 352, true)].
Proof. apply (benchmark_matches_known_counts 10). lia. Defined.

(** ** Backtrack operations of the two first-solution searches *)

Lemma solve_backtrack_loop_counted (N row : Z) qs rec afound acount :
  placed N row qs -> row < N ->
  (forall c s, 0 <= c < N -> n s = N -> board s = board_of N ((row, c) :: qs) ->
     counted_post N s ((row, c) :: qs) (afound ((row, c) :: qs))
       (acount ((row, c) :: qs)) (rec s)) ->
  forall columns self,
  Forall (fun c => 0 <= c < N) columns ->
  n self = N -> board self = board_of N qs ->
  counted_post N self qs (first_column afound qs row columns)
    (undone_column afound acount qs row columns)
    (solve_backtrack_loop rec row columns self).
Proof.
  intros Hp Hrow Hrec columns.
  pose proof (placed_nonneg _ _ _ Hp) as Hrow0.
  induction columns as [|c columns IH]; intros self Hcols Hn Hb.
  - cbn. exists self. rewrite bool_decide_eq_false_2 by (intros [? ?]; discriminate).
    repeat split; auto; lia.
  - inversion Hcols as [|? ? Hc Hcols']; subst.
    cbn [solve_backtrack_loop first_column undone_column].
    rewrite (is_safe_spec (n self) qs) by (auto; lia). rewrite bind_Ok.
    case_bool_decide as Hsafe; [|apply IH; auto].
    rewrite Hb, board_set_place by lia. rewrite bind_Ok.
    specialize (Hrec c (set_board self (board_of (n self) ((row, c) :: qs)))
                  Hc eq_refl eq_refl).
    destruct Hrec as (s' & -> & Hn' & Hb' & Hbc'). rewrite bind_Ok.
    cbn [n set_board backtrack_count] in Hn', Hbc'.
    destruct (afound ((row, c) :: qs)) as [qs'|] eqn:Hfound.
    + rewrite bool_decide_eq_true_2 by eauto. cbn iota beta.
      exists s'. rewrite bool_decide_eq_true_2 by eauto. auto.
    + rewrite bool_decide_eq_false_2 by (intros [? ?]; discriminate).
      cbn iota beta. cbn [default] in Hb'.
      rewrite Hb', board_set_unplace by (try lia; eapply placed_fresh; eauto).
      rewrite bind_Ok.
      specialize (IH (incr_backtrack_count (set_board s' (board_of (n self) qs)))
                    Hcols' Hn' eq_refl).
      destruct IH as (s3 & -> & Hn3 & Hb3 & Hbc3).
      cbn [n set_board incr_backtrack_count backtrack_count] in Hn3, Hbc3.
      exists s3. repeat split; auto; [congruence | lia].
Qed.

Lemma solve_backtrack_counted (N : Z) (k : nat) :
  forall fuel row qs self,
  (k < fuel)%nat -> row + Z.of_nat k = N ->
  placed N row qs -> n self = N -> board self = board_of N qs ->
  counted_post N self qs (search N k row qs) (undone N k row qs)
    (solve_backtrack fuel self row).
Proof.
  induction k as [|k IH]; intros fuel row qs self Hfuel Hrow Hp Hn Hb;
    (destruct fuel as [|fuel]; [lia|]); cbn [solve_backtrack search undone].
  - replace (n self <=? row) with true by (symmetry; apply Z.leb_le; lia).
    exists self. rewrite bool_decide_eq_true_2 by eauto.
    repeat split; auto; lia.
  - replace (n self <=? row) with false by (symmetry; apply Z.leb_gt; lia).
    rewrite Hn.
    apply solve_backtrack_loop_counted; auto using range_bounds; try lia.
    intros c s Hc Hns Hbs. apply IH; auto; try lia.
    constructor; auto.
Qed.

(** [undone_column] resumes after the first safe column. *)
Lemma undone_column_first_safe afound acount qs row (N : Z) (m : nat) :
  forall col, col + Z.of_nat m = N ->
  match first_safe qs row (range2 col N) with
  | None => undone_column afound acount qs row (range2 col N) = 0
  | Some c =>
      undone_column afound acount qs row (range2 col N)
      = match afound ((row, c) :: qs) with
        | Some _ => acount ((row, c) :: qs)
        | None => acount ((row, c) :: qs) + 1
                  + undone_column afound acount qs row (range2 (c + 1) N)
        end
  end.
Proof.
  induction m as [|m IH]; intros col Hcol.
  - rewrite range2_nil by lia. reflexivity.
  - rewrite range2_cons by lia. cbn [first_safe undone_column].
    case_bool_decide as Hsafe; [reflexivity|].
    apply IH. lia.
Qed.

Lemma iterative_frame_counted (N : Z) :
  forall (k : nat) (row : Z), row + 1 + Z.of_nat k = N ->
  forall (m : nat) (col : Z), 0 <= col -> col + Z.of_nat m = N ->
  forall qs extra R self stack,
    placed N row qs -> placed N R (extra ++ qs) -> R <= N ->
    n self = N -> board self = board_of N (extra ++ qs) ->
    exists steps : nat,
      iter_counted N self stack qs
        (first_column (search N k (row + 1)) qs row (range2 col N))
        (undone_column (search N k (row + 1)) (undone N k (row + 1)) qs row
           (range2 col N)
         + match first_column (search N k (row + 1)) qs row (range2 col N) with
           | Some _ => 0
           | None => 1
           end)
        (fun fuel =>
           iterative_loop (steps + fuel) self ((row, col) :: stack) (extra ++ qs)).
Proof.
  induction k as [|k IHk]; intros row Hrow;
    induction m as [m IHm] using lt_wf_ind;
    intros col Hcol0 Hcolm qs extra R self stack Hp HpR HRN Hn Hb;
    pose proof (placed_nonneg _ _ _ Hp) as Hrow0;
    pose proof (fun fuel => iterative_step N qs extra R row col self stack fuel
                  Hn Hb Hp HpR HRN ltac:(lia) Hcol0) as Hstep;
    cbn zeta in Hstep.
  - pose proof (first_column_first_safe (search N 0 (row + 1)) qs row N m col
                  Hcolm) as Hfc.
    pose proof (undone_column_first_safe (search N 0 (row + 1))
                  (undone N 0 (row + 1)) qs row N m col Hcolm) as Hun.
    destruct (first_safe qs row (range2 col N)) as [c|].
    + destruct Hfc as [Hc ->]. rewrite Hun. cbn [search undone].
      exists 1%nat. eexists. split; [|split; [|split]].
      4:{ intros fuel. cbn [Nat.add]. rewrite Hstep.
          replace (row =? N - 1) with true by (symmetry; apply Z.eqb_eq; lia).
          reflexivity. }
      * reflexivity.
      * reflexivity.
      * cbn. lia.
    + rewrite Hfc, Hun. exists 1%nat. eexists. split; [|split; [|split]].
      4:{ intros fuel. cbn [Nat.add]. rewrite Hstep. reflexivity. }
      * reflexivity.
      * reflexivity.
      * cbn. lia.
  - pose proof (first_column_first_safe (search N (S k) (row + 1)) qs row N m
                  col Hcolm) as Hfc.
    pose proof (undone_column_first_safe (search N (S k) (row + 1))
                  (undone N (S k) (row + 1)) qs row N m col Hcolm) as Hun.
    destruct (first_safe qs row (range2 col N)) as [c|].
    + destruct Hfc as [Hc ->]. rewrite Hun.
      set (self2 := set_board (set_board self (board_of N qs))
                              (board_of N ((row, c) :: qs))) in *.
      assert (Hp1 : placed N (row + 1) ((row, c) :: qs))
        by (constructor; [assumption | lia]).
      destruct (IHk (row + 1) ltac:(lia) (Z.to_nat N) 0 ltac:(lia) ltac:(lia)
                  ((row, c) :: qs) [] (row + 1) self2 ((row, c + 1) :: stack)
                  Hp1 Hp1 ltac:(lia) Hn eq_refl) as [steps1 Hpost1].
      rewrite range2_0 in Hpost1.
      change (first_column (search N k (row + 1 + 1)) ((row, c) :: qs) (row + 1)
                (range N))
        with (search N (S k) (row + 1) ((row, c) :: qs)) in Hpost1.
      change (undone_column (search N k (row + 1 + 1)) (undone N k (row + 1 + 1))
                ((row, c) :: qs) (row + 1) (range N))
        with (undone N (S k) (row + 1) ((row, c) :: qs)) in Hpost1.
      cbn [app] in Hpost1.
      destruct Hpost1 as (s1 & Hn1 & Hb1 & Hbc1 & Hrun1).
      cbn [n backtrack_count set_board self2] in Hn1, Hbc1.
      destruct (search N (S k) (row + 1) ((row, c) :: qs)) as [qs'|].
      * exists (S steps1), s1. split; [exact Hn1|]. split; [exact Hb1|].
        split; [lia|]. intros fuel. cbn [Nat.add]. rewrite Hstep.
        replace (row =? N - 1) with false by (symmetry; apply Z.eqb_neq; lia).
        apply Hrun1.
      * cbn [default] in Hb1.
        destruct (IHm (Z.to_nat (N - (c + 1))) ltac:(lia) (c + 1) ltac:(lia)
                    ltac:(lia) qs [(row, c)] (row + 1) s1 stack
                    Hp Hp1 ltac:(lia) ltac:(congruence) Hb1) as [steps2 Hpost2].
        cbn [app] in Hpost2.
        destruct Hpost2 as (s2 & Hn2 & Hb2 & Hbc2 & Hrun2).
        exists (S (steps1 + steps2)), s2.
        split; [congruence|]. split; [exact Hb2|]. split; [lia|].
        intros fuel. cbn [Nat.add]. rewrite Hstep.
        replace (row =? N - 1) with false by (symmetry; apply Z.eqb_neq; lia).
        rewrite <- Nat.add_assoc, Hrun1. apply Hrun2.
    + rewrite Hfc, Hun. exists 1%nat. eexists. split; [|split; [|split]].
      4:{ intros fuel. cbn [Nat.add]. rewrite Hstep. reflexivity. }
      * reflexivity.
      * reflexivity.
      * cbn. lia.
Qed.

(** X20: the two first-solution searches count alike.  Run on fresh
    solvers of the same positive size, [solve_iterative] reports the same
    number of backtrack operations as [solve_backtrack] when a solution is
    found, and exactly one more when none exists (the recursion does not
    count the failure of the top-level call, the loop counts the exhausted
    first row). *)
Theorem backtrack_counts_agree (N : Z) (fuel : nat) :
  0 < N -> (Z.to_nat N < fuel)%nat ->
  exists self found s_rec steps s_it,
    init N = Ok self /\
    solve_backtrack fuel self 0 = Ok (found, s_rec) /\
    (forall fuel', solve_iterative (steps + fuel') self = Ok (found, s_it)) /\
    backtrack_count s_it
    = backtrack_count s_rec + (if found then 0 else 1).
Proof.
  intros HN Hfuel. set (self := mkSolver N (empty_board N) [] 0 0).
  destruct (solve_backtrack_counted N (Z.to_nat N) fuel 0 [] self Hfuel
              ltac:(lia) (placed_nil N) eq_refl (empty_board_of N))
    as (s_rec & Hrec & _ & _ & Hbc_rec).
  destruct (iterative_frame_counted N (Z.to_nat (N - 1)) 0 ltac:(lia)
              (Z.to_nat N) 0 ltac:(lia) ltac:(lia) [] [] 0 self []
              (placed_nil N) (placed_nil N) ltac:(lia) eq_refl
              (empty_board_of N))
    as (steps & s_it & _ & _ & Hbc_it & Hrun).
  rewrite range2_0 in Hbc_it, Hrun. cbn [app] in Hrun.
  change (first_column (search N (Z.to_nat (N - 1)) (0 + 1)) [] 0 (range N))
    with (search N (S (Z.to_nat (N - 1))) 0 []) in Hbc_it, Hrun.
  change (undone_column (search N (Z.to_nat (N - 1)) (0 + 1))
            (undone N (Z.to_nat (N - 1)) (0 + 1)) [] 0 (range N))
    with (undone N (S (Z.to_nat (N - 1))) 0 []) in Hbc_it.
  replace (S (Z.to_nat (N - 1))) with (Z.to_nat N) in Hbc_it, Hrun by lia.
  exists self, (bool_decide (is_Some (search N (Z.to_nat N) 0 []))), s_rec,
    steps, s_it.
  split; [reflexivity|]. split; [exact Hrec|]. split.
  - intros fuel'. unfold solve_iterative. cbn [n self].
    replace (N =? 0) with false by (symmetry; apply Z.eqb_neq; lia).
    rewrite Hrun. destruct (search N (Z.to_nat N) 0 []).
    + rewrite bool_decide_eq_true_2 by eauto. reflexivity.
    + rewrite bool_decide_eq_false_2 by (intros [? ?]; discriminate).
      destruct fuel'; reflexivity.
  - rewrite Hbc_it, Hbc_rec. destruct (search N (Z.to_nat N) 0 []).
    + rewrite bool_decide_eq_true_2 by eauto. lia.
    + rewrite bool_decide_eq_false_2 by (intros [? ?]; discriminate). lia.
Qed.

(** Witness for X20 on the 3 x 3 board, where both searches fail. *)
Lemma backtrack_counts_agree_witness :
  exists self found s_rec steps s_it,
    init 3 = Ok self /\
    solve_backtrack 4 self 0 = Ok (found, s_rec) /\
    (forall fuel', solve_iterative (steps + fuel') self = Ok (found, s_it)) /\
    backtrack_count s_it
    = backtrack_count s_rec + (if found then 0 else 1).
Proof.
  apply (backtrack_counts_agree 3 4); [lia | vm_compute; lia].
Defined.

(** ** The contract of a recursive call of the exhaustive search *)

Lemma solution_placed (N : Z) (sol : list (Z * Z)) :
  is_solution N sol -> rows_ascending sol ->
  placed N N (reverse sol) /\ nonattacking (reverse sol).
Proof.
  intros (Hlen & Hnd & Hrange & Hpair) Hasc.
  assert (Hrows : fst <$> sol = seqZ 0 (Z.of_nat (length sol))).
  { destruct (ascending_interval (fst <$> sol) 0 N) as [_ Heq].
    - unfold rows_ascending in Hasc. clear -Hasc.
      induction Hasc as [|p sol Hs IH Hp]; [constructor|].
      rewrite fmap_cons. constructor; [assumption|].
      apply Forall_fmap. exact Hp.
    - apply Forall_fmap, Forall_forall. intros p Hp. apply Hrange in Hp. simpl. lia.
    - rewrite Heq by (rewrite length_fmap; lia). f_equal. lia. }
  split.
  - rewrite <- Hlen at 2. apply placed_of_rows; [assumption|].
    apply Forall_forall. intros p Hp. apply Hrange in Hp. lia.
  - apply pairwise_nonattacking.
    + rewrite reverse_Permutation. assumption.
    + intros p q Hp' Hq'. rewrite reverse_Permutation in Hp', Hq'. auto.
Qed.

Lemma placed_suffix (N : Z) (R : Z) (r : list (Z * Z)) :
  placed N R r ->
  forall row qs, placed N row qs -> (forall q, q ∈ qs -> q ∈ r) ->
  exists l, r = l ++ qs.
Proof.
  induction 1 as [|R c r Hp IH Hc]; intros row qs Hq Hsub.
  - destruct qs as [|q qs]; [exists []; reflexivity|].
    specialize (Hsub q ltac:(left)). apply elem_of_nil in Hsub. contradiction.
  - pose proof (placed_nonneg _ _ _ Hp) as HR0.
    destruct (decide (row <= R)) as [Hle|Hgt].
    + destruct (IH row qs Hq) as [l ->].
      * intros [i j] Hin. pose proof (placed_elem _ _ _ _ _ Hq Hin) as Hij.
        specialize (Hsub _ Hin). apply elem_of_cons in Hsub as [Heq|Hin']; [|exact Hin'].
        inversion Heq; subst. lia.
      * exists ((R, c) :: l). reflexivity.
    + inversion Hq as [|row' d qs' Hq' Hd]; subst; [lia|].
      pose proof (Hsub (row', d) ltac:(left)) as Hhead.
      assert (row' = R).
      { apply elem_of_cons in Hhead as [Heq|Hin]; [inversion Heq; reflexivity|].
        apply (placed_elem _ _ _ _ _ Hp) in Hin. lia. }
      subst row'.
      assert (d = c).
      { apply (placed_row_unique N (R + 1) ((R, c) :: r) R d c);
          [constructor; assumption | exact Hhead | left]. }
      subst d.
      destruct (IH R qs' Hq') as [l Hl].
      * intros [i j] Hin. pose proof (placed_elem _ _ _ _ _ Hq' Hin) as Hij.
        specialize (Hsub (i, j) ltac:(right; exact Hin)).
        apply elem_of_cons in Hsub as [Heq|Hin']; [|exact Hin'].
        inversion Heq; subst. lia.
      * assert (l = []) as ->.
        { apply placed_length in Hp. apply placed_length in Hq'.
          rewrite Hl, length_app in Hp. destruct l; [reflexivity | simpl in Hp; lia]. }
        exists []. cbn [app] in *. congruence.
Qed.

(** X21: the contract of a recursive call of the exhaustive search.
    Called on a board whose rows [0 .. row-1] hold mutually non-attacking
    queens [qs], with the three sets holding their columns and diagonal
    identifiers, [solve_all_backtrack(row, cols, diag1, diag2)] appends to
    [solutions], without repetition, exactly the N-Queens solutions that
    contain [qs], counts them, and returns with the board and the three
    sets as they were at the call. *)
Theorem solve_all_backtrack_extends_placement (N row : Z) (qs : list (Z * Z))
    (self : Solver) (fuel : nat) :
  placed N row qs -> nonattacking qs -> row <= N ->
  n self = N -> board self = board_of N qs ->
  (Z.to_nat (N - row) < fuel)%nat ->
  exists st new,
    solve_all_backtrack fuel self row
      (Some (list_to_set (snd <$> qs))) (Some (list_to_set (diag1_of <$> qs)))
      (Some (list_to_set (diag2_of <$> qs))) = Ok st /\
    solutions (solver st) = solutions self ++ new /\
    solution_count (solver st) = solution_count self + Z.of_nat (length new) /\
    NoDup new /\
    (forall sol, sol ∈ new <->
       is_solution N sol /\ rows_ascending sol /\ forall q, q ∈ qs -> q ∈ sol) /\
    board (solver st) = board self /\
    cols st = list_to_set (snd <$> qs) /\
    diag1 st = list_to_set (diag1_of <$> qs) /\
    diag2 st = list_to_set (diag2_of <$> qs).
Proof.
  intros Hp Hna HrowN Hn Hb Hfuel.
  pose proof (placed_nonneg _ _ _ Hp) as Hrow0.
  destruct (solve_all_refines N (Z.to_nat (N - row)) fuel row qs self
              (list_to_set (snd <$> qs)) (list_to_set (diag1_of <$> qs))
              (list_to_set (diag2_of <$> qs)) [] Hfuel ltac:(lia) Hp Hna Hn Hb
              ltac:(repeat split))
    as (st & log & Hrun & _ & Hc & Hd1 & Hd2 & _ & Hb' & Hsols & Hcount & _).
  cbn [solver cols diag1 diag2] in Hc, Hd1, Hd2, Hb', Hsols, Hcount.
  exists st, (reverse <$> enumerate N (Z.to_nat (N - row)) row qs).
  split.
  { rewrite <- erase_solve_all_backtrack with (log := []).
    apply (erase_Ok _ _ _ Hrun). }
  split; [exact Hsols|]. split; [rewrite length_fmap; exact Hcount|].
  split; [apply (NoDup_fmap_2 reverse), enumerate_NoDup; assumption|].
  split; [|auto]. intros sol. rewrite list_elem_of_fmap. split.
  - intros (r & -> & Hr). apply enumerate_sound in Hr as (Hpr & Hnar & Hsub);
      [|assumption..].
    replace (row + Z.of_nat (Z.to_nat (N - row))) with N in Hpr by lia.
    split; [apply is_solution_reverse, placed_solution; assumption|].
    split; [eapply placed_rows_ascending; eauto|].
    intros q Hq. rewrite reverse_Permutation. auto.
  - intros (Hsol & Hasc & Hsub).
    destruct (solution_placed N sol Hsol Hasc) as [Hpr Hnar].
    destruct (placed_suffix N N (reverse sol) Hpr row qs Hp) as [l Hl].
    { intros q Hq. rewrite reverse_Permutation. auto. }
    exists (reverse sol). split; [symmetry; apply reverse_involutive|].
    rewrite Hl in *. apply enumerate_complete; [assumption | | assumption].
    replace (row + Z.of_nat (Z.to_nat (N - row))) with N by lia. assumption.
Qed.

(** Witness for X21: the 4 x 4 board with one queen on [(0, 1)]. *)
Lemma solve_all_backtrack_extends_placement_witness :
  exists st new,
    solve_all_backtrack 4 (mkSolver 4 (board_of 4 [(0, 1)]) [] 0 0) 1
      (Some (list_to_set (snd <$> [(0, 1)])))
      (Some (list_to_set (diag1_of <$> [(0, 1)])))
      (Some (list_to_set (diag2_of <$> [(0, 1)]))) = Ok st /\
    solutions (solver st) = [] ++ new /\
    solution_count (solver st) = 0 + Z.of_nat (length new) /\
    NoDup new /\
    (forall sol, sol ∈ new <->
       is_solution 4 sol /\ rows_ascending sol /\
       forall q, q ∈ [(0, 1)] -> q ∈ sol) /\
    board (solver st) = board_of 4 [(0, 1)] /\
    cols st = list_to_set (snd <$> [(0, 1)]) /\
    diag1 st = list_to_set (diag1_of <$> [(0, 1)]) /\
    diag2 st = list_to_set (diag2_of <$> [(0, 1)]).
Proof.
  apply (solve_all_backtrack_extends_placement 4 1 [(0, 1)]
           (mkSolver 4 (board_of 4 [(0, 1)]) [] 0 0) 4).
  - apply (placed_cons 4 0 1 []); [constructor | lia].
  - split; [constructor | exact I].
  - lia.
  - reflexivity.
  - reflexivity.
  - vm_compute. lia.
Defined.

(** ** What the symmetry analysis identifies *)

Lemma sorted_eq_iff (s t : list (Z * Z)) : sorted s = sorted t <-> s ≡ₚ t.
Proof.
  unfold sorted. split.
  - intros Heq. rewrite <- (merge_sort_Permutation pair_le s), Heq.
    apply merge_sort_Permutation.
  - intros Hperm. apply (StronglySorted_unique pair_le).
    + apply StronglySorted_merge_sort; apply _.
    + apply StronglySorted_merge_sort; apply _.
    + rewrite !merge_sort_Permutation. exact Hperm.
Qed.

Lemma length_remove_dups_le {A} `{EqDecision A} (l : list A) :
  (length (remove_dups l) <= length l)%nat /\
  (length (remove_dups l) = length l -> NoDup l).
Proof.
  induction l as [|x l [IHle IHeq]]; cbn [remove_dups length].
  - split; [lia | constructor].
  - destruct (decide_rel elem_of x l) as [Hin|Hnin]; cbn [length].
    + split; lia.
    + split; [lia|]. intros Heq. apply NoDup_cons. split; [assumption|].
      apply IHeq. lia.
Qed.

Lemma size_list_to_set_le {A} `{Countable A} (l : list A) :
  (size (list_to_set (C := gset A) l) <= length l)%nat /\
  (size (list_to_set (C := gset A) l) = length l <-> NoDup l).
Proof.
  assert (Hsize : size (list_to_set (C := gset A) l) = length (remove_dups l)).
  { rewrite <- (size_list_to_set (C := gset A)) by apply NoDup_remove_dups.
    f_equal. apply set_eq. intros x.
    rewrite !elem_of_list_to_set, elem_of_remove_dups. reflexivity. }
  destruct (length_remove_dups_le l) as [Hle Heq]. rewrite Hsize.
  split; [exact Hle|]. split; [exact Heq|].
  intros Hnd. rewrite <- Hsize. apply size_list_to_set. exact Hnd.
Qed.

(** X22: what [analyze_symmetry] counts as unique.  For any list of
    solutions the number of "unique" ones never exceeds the total, and the
    two are equal exactly when no two entries of the list (at different
    positions) consist of the same pairs in some order.  Entries are thus
    identified only up to the order of their pairs; rotated or mirrored
    solutions stay distinct. *)
Theorem unique_solutions_up_to_order (sols : list (list (Z * Z))) :
  (size (unique_solutions sols) <= length sols)%nat /\
  (size (unique_solutions sols) = length sols <->
   forall (i j : nat) s t,
     sols !! i = Some s -> sols !! j = Some t -> s ≡ₚ t -> i = j).
Proof.
  rewrite unique_solutions_list_to_set.
  destruct (size_list_to_set_le (sorted <$> sols)) as [Hle Heq].
  rewrite length_fmap in Hle, Heq. split; [exact Hle|].
  rewrite Heq, NoDup_alt. split.
  - intros H i j s t Hi Hj Hperm. apply (H i j (sorted s)).
    + rewrite list_lookup_fmap, Hi. reflexivity.
    + rewrite list_lookup_fmap, Hj. cbn. f_equal. symmetry.
      apply sorted_eq_iff. exact Hperm.
  - intros H i j x Hi Hj. rewrite list_lookup_fmap in Hi, Hj.
    destruct (sols !! i) as [s|] eqn:Hs; [|discriminate].
    destruct (sols !! j) as [t|] eqn:Ht; [|discriminate].
    cbn in Hi, Hj. apply (H i j s t Hs Ht). apply sorted_eq_iff. congruence.
Qed.
